(** * PandaPower converter of power-grid-model-io: a shallow embedding

    Source: [src/power_grid_model_io/converters/pandapower_converter.py]
    (class [PandaPowerConverter]).

    Conventions of the embedding.
    - A Python exception is a value of [exn]; a method that may raise returns
      [result A].  The spec's error names are the code's built-in exceptions:
      what the spec calls MissingAttributeError, UnknownGroupError and
      MissingPrerequisiteDatasetError is [KeyError] in the code,
      InvalidVectorGroupError is [ValueError], and the "already populated"
      preconditions are [assert] statements ([AssertionError]).
    - A [dict] is an insertion-ordered association list with unique keys.
    - A pandas [Series] is the list of its (label, value) rows; a numpy array
      is a list.
    - float64 quantities are exact rationals ([Qc]); every statement about
      them is a statement of exact arithmetic.  Where the order of the
      float64 operations decides the result, the operations are given in
      binary64 as well ([accumulate_power_over_f64]).
    - [self] is passed explicitly, split by the slots a method touches. *)

From Stdlib Require Import PrimFloat.
From Stdlib Require Import ZArith QArith Qcanon Qround String Ascii Bool Lia.
From Stdlib Require Import List Permutation Sorted.
Import ListNotations.

Open Scope Z_scope.
Open Scope string_scope.
Open Scope list_scope.

Set Implicit Arguments.
Unset Strict Implicit.

(** ** Python values: exceptions and dictionaries *)

Module Py.

Inductive exn : Set := KeyError | ValueError | AssertionError.

Inductive result (A : Type) : Type :=
| Ok (a : A)
| Raise (e : exn).
Arguments Ok {A} a.
Arguments Raise {A} e.

Definition bind {A B} (c : result A) (k : A -> result B) : result B :=
  match c with
  | Ok a => k a
  | Raise e => Raise e
  end.

Definition is_ok {A} (c : result A) : bool :=
  match c with Ok _ => true | Raise _ => false end.

(** [for x in xs: f x], stopping at the first exception. *)
Fixpoint mapM {A B} (f : A -> result B) (xs : list A) : result (list B) :=
  match xs with
  | [] => Ok []
  | x :: xs' =>
      bind (f x) (fun y => bind (mapM f xs') (fun ys => Ok (y :: ys)))
  end.

Class EqDec (A : Type) := eq_dec : forall x y : A, {x = y} + {x <> y}.

#[global] Instance nat_EqDec : EqDec nat := Nat.eq_dec.
#[global] Instance Z_EqDec : EqDec Z := Z.eq_dec.
#[global] Instance string_EqDec : EqDec string := string_dec.
#[global] Instance option_EqDec {A} `{EqDec A} : EqDec (option A).
Proof. intros x y. unfold EqDec in *. decide equality. Defined.

Definition eqb {A} `{EqDec A} (x y : A) : bool :=
  if eq_dec x y then true else false.

(** An insertion-ordered dictionary. *)
Section Dict.
Context {K V : Type} `{EqDec K}.

Definition dict := list (K * V).

Fixpoint get (d : dict) (k : K) : option V :=
  match d with
  | [] => None
  | (k', v) :: d' => if eq_dec k k' then Some v else get d' k
  end.

(** [k in d] *)
Definition mem (k : K) (d : dict) : bool :=
  match get d k with Some _ => true | None => false end.

(** [d[k]], raising [KeyError] on a missing key. *)
Definition getitem (d : dict) (k : K) : result V :=
  match get d k with Some v => Ok v | None => Raise KeyError end.

(** [d[k] = v]: an existing key keeps its place. *)
Fixpoint set (d : dict) (k : K) (v : V) : dict :=
  match d with
  | [] => [(k, v)]
  | (k', v') :: d' =>
      if eq_dec k k' then (k, v) :: d' else (k', v') :: set d' k v
  end.

Definition keys (d : dict) : list K := map fst d.
End Dict.
Arguments dict : clear implicits.

End Py.
Import Py.

Notation "x <- c1 ;; c2" := (bind c1 (fun x => c2))
  (at level 61, c1 at next level, right associativity).
Notation "' pat <- c1 ;; c2" := (bind c1 (fun x => match x with pat => c2 end))
  (at level 61, pat pattern, c1 at next level, right associativity).

(** ** pandas Series and numpy arrays *)

Module Pandas.

(** A Series: one (index label, value) pair per row. *)
Definition Series (L V : Type) := list (L * V).

(** [pd.Series(values, index=labels)] *)
Definition mkSeries {L V} (values : list V) (labels : list L) : Series L V :=
  combine labels values.

Definition index {L V} (s : Series L V) : list L := map fst s.
Definition values {L V} (s : Series L V) : list V := map snd s.

(** The rows of [s] carrying label [l], in order. *)
Definition rows_at {L V} `{EqDec L} (s : Series L V) (l : L) : list V :=
  values (filter (fun r => eqb (fst r) l) s).

(** [s[labels]] for a list-like [labels]: label-based selection.  Every
    requested label contributes all the rows that carry it; a label carried
    by no row raises [KeyError]. *)
Definition loc {L V} `{EqDec L} (s : Series L V) (labels : list L)
  : result (list V) :=
  vss <- mapM (fun l => match rows_at s l with
                        | [] => Raise KeyError
                        | vs => Ok vs
                        end) labels ;;
  Ok (concat vss).

(** [np.int32]: two's-complement wrap-around into [-2^31, 2^31). *)
Definition int32 (z : Z) : Z := (z + 2 ^ 31) mod 2 ^ 32 - 2 ^ 31.

(** [np.arange(start=a, stop=b, dtype=np.int32)].  The properties of the
    registry are stated for ids below [2^31], where nothing wraps. *)
Definition arange_int32 (a b : Z) : list Z :=
  map (fun i => int32 (a + Z.of_nat i)) (seq 0 (Z.to_nat (b - a))).

End Pandas.
Import Pandas.

(** ** The identifier registry: [idx], [idx_lookup], [next_idx] *)

(** Keys of [self.idx] and [self.idx_lookup].  The annotated key is the tuple
    [(pp_table, name)]; [_extra_info_to_idx_lookup] stores under the bare
    table name, which Python keeps distinct from any tuple. *)
Inductive Key : Type :=
| KTuple (pp_table : string) (name : option string)
| KStr (pp_table : string).

#[global] Instance Key_EqDec : EqDec Key.
Proof.
  intros x y. unfold EqDec in *.
  decide equality; try apply string_dec.
  apply (option_EqDec (A := string)).
Defined.

Record Registry : Type := mkRegistry {
  idx : dict Key (Series Z Z);         (* pp index -> pgm id *)
  idx_lookup : dict Key (Series Z Z);  (* pgm id -> pp index *)
  next_idx : Z
}.

(** [__init__]: both dictionaries empty, counter at zero. *)
Definition init : Registry :=
  {| idx := []; idx_lookup := []; next_idx := 0 |}.

(** The registry part of the prologue of [_parse_data]:
    [self.idx_lookup = {}; self.next_idx = 0] ([self.idx] is left as is). *)
Definition _parse_data_reset (self : Registry) : Registry :=
  {| idx := idx self; idx_lookup := []; next_idx := 0 |}.

Definition _generate_ids (self : Registry) (pp_table : string)
    (pp_idx : list Z) (name : option string) : result (Registry * list Z) :=
  let key := KTuple pp_table name in
  if mem key (idx_lookup self) then Raise AssertionError else
  let n_objects := Z.of_nat (length pp_idx) in
  let pgm_idx := arange_int32 (next_idx self) (next_idx self + n_objects) in
  Ok ({| idx := set (idx self) key (mkSeries pgm_idx pp_idx);
         idx_lookup := set (idx_lookup self) key (mkSeries pp_idx pgm_idx);
         next_idx := next_idx self + n_objects |},
      pgm_idx).

Definition _get_ids (self : Registry) (pp_table : string) (pp_idx : list Z)
    (name : option string) : result (list Z) :=
  let key := KTuple pp_table name in
  match get (idx self) key with
  | None => Raise KeyError
  | Some s => loc s pp_idx
  end.

(** [Index.equals]: same labels in the same order. *)
Definition index_equals (i j : list Z) : bool :=
  if list_eq_dec Z.eq_dec i j then true else false.

Definition _get_pp_ids (self : Registry) (pp_table : string)
    (pgm_idx : list Z) (name : option string) : result (list Z) :=
  let key := KTuple pp_table name in
  match get (idx_lookup self) key with
  | None => Raise KeyError
  | Some s =>
      if index_equals (index s) pgm_idx then Ok (values s) else loc s pgm_idx
  end.

(** *** One conversion pass, seen from the registry

    [_create_input_data] calls the nine [_create_pgm_input_*] methods; each
    reaches the registry through [_generate_ids] only.  A pass is therefore
    the reset of [_parse_data] followed by a sequence of allocation calls
    [(pp_table, name, pp_idx)]. *)

Definition Request : Type := (string * option string * list Z)%type.

Definition request_key (r : Request) : Key :=
  let '(pp_table, name, _) := r in KTuple pp_table name.

Definition request_size (r : Request) : nat :=
  let '(_, _, pp_idx) := r in length pp_idx.

Fixpoint allocate_all (self : Registry) (reqs : list Request)
  : result (Registry * list (list Z)) :=
  match reqs with
  | [] => Ok (self, [])
  | (pp_table, name, pp_idx) :: reqs' =>
      '(self1, ids) <- _generate_ids self pp_table pp_idx name ;;
      '(self2, idss) <- allocate_all self1 reqs' ;;
      Ok (self2, ids :: idss)
  end.

(** The index labels of the source tables that own an identity group. *)
Record SourceIndices : Type := mkSourceIndices {
  bus_index : list Z;
  line_index : list Z;
  ext_grid_index : list Z;
  load_index : list Z;
  shunt_index : list Z;
  trafo_index : list Z;
  sgen_index : list Z;
  trafo3w_index : list Z;
  switch_index_et : list (Z * string)   (* index label and [et] per switch *)
}.

(** [if table.empty: return], else one allocation. *)
Definition unless_empty (pp_table : string) (name : option string)
    (pp_idx : list Z) : list Request :=
  match pp_idx with [] => [] | _ => [(pp_table, name, pp_idx)] end.

(** The allocation calls of [_create_input_data], in call order. *)
Definition _create_input_data_requests (pp : SourceIndices) : list Request :=
  unless_empty "bus" None (bus_index pp)
  ++ unless_empty "line" None (line_index pp)
  ++ unless_empty "ext_grid" None (ext_grid_index pp)
  ++ match load_index pp with
     | [] => []
     | l => [("load", Some "const_power", l);
             ("load", Some "const_impedance", l);
             ("load", Some "const_current", l)]
     end
  ++ unless_empty "shunt" None (shunt_index pp)
  ++ unless_empty "trafo" None (trafo_index pp)
  ++ unless_empty "sgen" None (sgen_index pp)
  ++ unless_empty "trafo3w" None (trafo3w_index pp)
  ++ match switch_index_et pp with
     | [] => []
     | sw => [("switch", Some "bus_to_bus",
               map fst (filter (fun r => eqb (snd r) "b") sw))]
     end.

(** *** The sidecar ([extra_info])

    [extra_info[pgm_idx]] is a dictionary; the converter reads and writes
    its ["id_reference"] entry only, itself a dictionary with the keys
    ["table"], ["index"] and, optionally, ["name"]. *)

Record IdReference : Type := mkIdReference {
  ref_table : string;
  ref_name : option string;     (* [None]: no ["name"] key *)
  ref_index : Z
}.

(** One record of the sidecar: [None] when it has no ["id_reference"]. *)
Definition Extra : Type := option IdReference.

Definition ExtraInfoLookup : Type := dict Z Extra.

(** Truth value of [name : Optional[str]]. *)
Definition truthy (name : option string) : bool :=
  match name with
  | Some (String _ _) => true
  | _ => false
  end.

(** The epilogue of [_parse_data]: one sidecar record per allocated id. *)
Definition _parse_data_extra_info (self : Registry)
    (extra_info : ExtraInfoLookup) : result ExtraInfoLookup :=
  fold_left
    (fun acc entry =>
       extra_info <- acc ;;
       match entry with
       | (KTuple pp_table name, indices) =>
           Ok (fold_left
                 (fun ei row =>
                    let '(pgm_idx, pp_idx) := row in
                    set ei pgm_idx
                        (Some {| ref_table := pp_table;
                                 ref_name := if truthy name then name else None;
                                 ref_index := pp_idx |}))
                 indices extra_info)
       | (KStr _, _) => Raise ValueError   (* the key does not unpack *)
       end)
    (idx_lookup self) (Ok extra_info).

(** [_parse_data] with [extra_info] supplied, for a pass whose converters
    issue the allocation calls [reqs]. *)
Definition _parse_data (self : Registry) (reqs : list Request)
    (extra_info : ExtraInfoLookup) : result (Registry * ExtraInfoLookup) :=
  '(self1, _) <- allocate_all (_parse_data_reset self) reqs ;;
  extra_info1 <- _parse_data_extra_info self1 extra_info ;;
  Ok (self1, extra_info1).

(** The first loop of [_extra_info_to_idx_lookup]: (pgm id, pp index) pairs
    collected per table. *)
Definition collect_id_references (extra_info : ExtraInfoLookup)
  : dict string (list (Z * Z)) :=
  fold_left
    (fun pgm_to_pp_id entry =>
       let '(pgm_idx, extra) := entry in
       match extra with
       | None => pgm_to_pp_id
       | Some id_reference =>
           let pp_table := ref_table id_reference in
           let pp_index := ref_index id_reference in
           let d := if mem pp_table pgm_to_pp_id then pgm_to_pp_id
                    else set pgm_to_pp_id pp_table [] in
           match get d pp_table with
           | Some l => set d pp_table (l ++ [(pgm_idx, pp_index)])
           | None => d
           end
       end)
    extra_info [].

Definition _extra_info_to_idx_lookup (self : Registry)
    (extra_info : ExtraInfoLookup) : Registry :=
  fold_left
    (fun self entry =>
       let '(pp_table, table_pgm_to_pp_id) := entry in
       let pgm_ids := map fst table_pgm_to_pp_id in
       let pp_indices := map snd table_pgm_to_pp_id in
       {| idx := set (idx self) (KStr pp_table) (mkSeries pgm_ids pp_indices);
          idx_lookup :=
            set (idx_lookup self) (KStr pp_table) (mkSeries pp_indices pgm_ids);
          next_idx := next_idx self |})
    (collect_id_references extra_info)
    {| idx := []; idx_lookup := []; next_idx := next_idx self |}.

(** ** Numbers *)

(** The decimal literals of the source. *)
Definition f_1e6 : Qc := Q2Qc 1000000.
Definition f_1e3 : Qc := Q2Qc 1000.
Definition f_1e_2 : Qc := Q2Qc (1 # 100).
Definition f_1e_3 : Qc := Q2Qc (1 # 1000).
Definition f_1e_6 : Qc := Q2Qc (1 # 1000000).
Definition f_1e2 : Qc := Q2Qc 100.

(** [a[:n] = v] and the like: the value assigned to a slice of [n] rows
    must have [n] rows. *)
Definition assign_rows {A} (n : nat) (v : list A) : result (list A) :=
  if Nat.eqb (length v) n then Ok v else Raise ValueError.

(** ** Forward converter: symmetric loads *)

(** [power_grid_model.LoadGenType] *)
Inductive LoadGenType : Set := const_power | const_impedance | const_current.

(** The columns of [pp_data["load"]] that the converter reads, row by row. *)
Module Load.
Record row : Type := mk {
  index : Z;
  bus : Z;
  in_service : bool;
  p_mw : Qc;
  q_mvar : Qc;
  const_z_percent : Qc;
  const_i_percent : Qc;
  scaling : Qc
}.
End Load.

(** One record of the [sym_load] input array. *)
Module SymLoad.
Record row : Type := mk {
  id : Z;
  node : Z;
  status : bool;
  type : LoadGenType;
  p_specified : Qc;
  q_specified : Qc
}.
End SymLoad.

(** The rows [a:b] of the array, assembled from the columns assigned to that
    slice. *)
Fixpoint sym_load_block (ty : LoadGenType) (ids nodes : list Z)
    (status : list bool) (p q : list Qc) : list SymLoad.row :=
  match ids, nodes, status, p, q with
  | i :: ids', n :: nodes', s :: status', p0 :: p', q0 :: q' =>
      SymLoad.mk i n s ty p0 q0 :: sym_load_block ty ids' nodes' status' p' q'
  | _, _, _, _, _ => []
  end.

(** Element-wise product of two columns of one frame. *)
Definition col_mul (a b : list Qc) : list Qc :=
  map (fun ab => (fst ab * snd ab)%Qc) (combine a b).

(** [_create_pgm_input_sym_loads]; [populated] holds the keys of
    [self.pgm_data].  The result is the new [pgm_data["sym_load"]], or [None]
    when the load table is empty. *)
Definition _create_pgm_input_sym_loads (populated : list string)
    (self : Registry) (pp_loads : list Load.row)
  : result (Registry * option (list SymLoad.row)) :=
  if existsb (eqb "sym_load") populated then Raise AssertionError else
  match pp_loads with
  | [] => Ok (self, None)
  | _ =>
    let n_loads := length pp_loads in
    let const_i_multiplier :=
      map (fun r => (Load.const_i_percent r * Load.scaling r
                     * (f_1e_2 * f_1e6))%Qc) pp_loads in
    let const_z_multiplier :=
      map (fun r => (Load.const_z_percent r * Load.scaling r
                     * (f_1e_2 * f_1e6))%Qc) pp_loads in
    let const_p_multiplier :=
      map (fun r => ((f_1e6
                      - Load.const_i_percent r * Load.scaling r
                        * (f_1e_2 * f_1e6)
                      - Load.const_z_percent r * Load.scaling r
                        * (f_1e_2 * f_1e6))
                     * Load.scaling r)%Qc) pp_loads in
    let pp_index := map Load.index pp_loads in
    let pp_bus := map Load.bus pp_loads in
    let in_service := map Load.in_service pp_loads in
    let p_mw := map Load.p_mw pp_loads in
    let q_mvar := map Load.q_mvar pp_loads in
    (* rows [:n_loads] *)
    '(self, ids) <- _generate_ids self "load" pp_index (Some "const_power") ;;
    id_p <- assign_rows n_loads ids ;;
    nodes <- _get_ids self "bus" pp_bus None ;;
    node_p <- assign_rows n_loads nodes ;;
    let block_p :=
      sym_load_block const_power id_p node_p in_service
        (col_mul const_p_multiplier p_mw) (col_mul const_p_multiplier q_mvar) in
    (* rows [n_loads : 2 * n_loads] *)
    '(self, ids) <- _generate_ids self "load" pp_index (Some "const_impedance") ;;
    id_z <- assign_rows n_loads ids ;;
    nodes <- _get_ids self "bus" pp_bus None ;;
    node_z <- assign_rows n_loads nodes ;;
    let block_z :=
      sym_load_block const_impedance id_z node_z in_service
        (col_mul const_z_multiplier p_mw) (col_mul const_z_multiplier q_mvar) in
    (* rows [-n_loads:] *)
    '(self, ids) <- _generate_ids self "load" pp_index (Some "const_current") ;;
    id_i <- assign_rows n_loads ids ;;
    nodes <- _get_ids self "bus" pp_bus None ;;
    node_i <- assign_rows n_loads nodes ;;
    let block_i :=
      sym_load_block const_current id_i node_i in_service
        (col_mul const_i_multiplier p_mw) (col_mul const_i_multiplier q_mvar) in
    Ok (self, Some (block_p ++ block_z ++ block_i))
  end.

(** The three records generated for the load row at position [i]. *)
Definition generated_for (n_loads i : nat) (arr : list SymLoad.row)
  : list SymLoad.row :=
  match nth_error arr i, nth_error arr (n_loads + i),
        nth_error arr (2 * n_loads + i) with
  | Some a, Some b, Some c => [a; b; c]
  | _, _, _ => []
  end.

Definition Qc_sum (l : list Qc) : Qc := fold_right Qcplus (Q2Qc 0) l.

(** ** Source tables of the branch-like devices and of the switches

    Each record lists the columns that the resolvers below read. *)

Module Line.
Record row : Type := mk {
  index : Z;
  from_bus : Z;
  to_bus : Z
}.
End Line.

Module Trafo.
Record row : Type := mk {
  index : Z;
  hv_bus : Z;
  lv_bus : Z;
  tap_side : string;
  tap_step_percent : Qc;
  vn_hv_kv : Qc;
  vn_lv_kv : Qc
}.
End Trafo.

Module Trafo3w.
Record row : Type := mk {
  index : Z;
  hv_bus : Z;
  mv_bus : Z;
  lv_bus : Z;
  tap_side : string;
  tap_step_percent : Qc;
  vn_hv_kv : Qc;
  vn_mv_kv : Qc;
  vn_lv_kv : Qc
}.
End Trafo3w.

Module Switch.
Record row : Type := mk {
  index : Z;
  et : string;
  bus : Z;
  element : Z;
  closed : bool
}.
End Switch.

(** The tables of [self.pp_data] used by the switch-state resolver. *)
Record PandaPowerData : Type := mkPandaPowerData {
  pp_line : list Line.row;
  pp_trafo : list Trafo.row;
  pp_trafo3w : list Trafo3w.row;
  pp_switch : list Switch.row
}.

(** ** Switch-state resolver *)

(** [left.merge(right, how="left", left_on=..., right_on=...)]: the left rows
    in their order, each once per matching right row (in the order of the
    right frame), or once with the right columns missing. *)
Definition merge_left {A B} (on : A -> B -> bool) (left : list A)
    (right : list B) : list (A * option B) :=
  flat_map (fun a => match filter (on a) right with
                     | [] => [(a, None)]
                     | bs => map (fun b => (a, Some b)) bs
                     end) left.

(** [get_individual_switch_states(component, switches, bus)].  [component]
    carries the column ["index"]; [bus] names one of its columns and is
    passed as the projection; [switches] has the columns
    [(element, bus, closed)]. *)
Definition get_individual_switch_states {Row} (index : Row -> Z)
    (component : list Row) (switches : list (Z * Z * bool)) (bus : Row -> Z)
  : result (Series Z bool) :=
  let merged :=
    merge_left (fun r (sw : Z * Z * bool) =>
                  let '(element, sw_bus, _) := sw in
                  Z.eqb (index r) element && Z.eqb (bus r) sw_bus)
               component switches in
  (* .fillna(True), column "closed" *)
  let closed :=
    map (fun m => match snd m with
                  | Some (_, _, c) => c
                  | None => true
                  end) merged in
  (* .set_index(component.index) *)
  if Nat.eqb (length closed) (length component)
  then Ok (mkSeries closed (map index component))
  else Raise ValueError.

(** [pp_switches[pp_switches["et"] == element_type][["element", "bus",
    "closed"]]] *)
Definition switches_of_type (element_type : string)
    (pp_switches : list Switch.row) : list (Z * Z * bool) :=
  map (fun sw => (Switch.element sw, Switch.bus sw, Switch.closed sw))
      (filter (fun sw => eqb (Switch.et sw) element_type) pp_switches).

(** [get_switch_states(pp_table)]: the two rows of the returned frame. *)
Definition get_switch_states (pp_data : PandaPowerData) (pp_table : string)
  : result (Series Z bool * Series Z bool) :=
  if eqb pp_table "line" then
    let pp_switches := switches_of_type "l" (pp_switch pp_data) in
    pp_from_switches <-
      get_individual_switch_states Line.index (pp_line pp_data) pp_switches
        Line.from_bus ;;
    pp_to_switches <-
      get_individual_switch_states Line.index (pp_line pp_data) pp_switches
        Line.to_bus ;;
    Ok (pp_from_switches, pp_to_switches)
  else
    let pp_switches := switches_of_type "t" (pp_switch pp_data) in
    if eqb pp_table "trafo" then
      pp_from_switches <-
        get_individual_switch_states Trafo.index (pp_trafo pp_data)
          pp_switches Trafo.hv_bus ;;
      pp_to_switches <-
        get_individual_switch_states Trafo.index (pp_trafo pp_data)
          pp_switches Trafo.lv_bus ;;
      Ok (pp_from_switches, pp_to_switches)
    else if eqb pp_table "trafo3w" then
      pp_from_switches <-
        get_individual_switch_states Trafo3w.index (pp_trafo3w pp_data)
          pp_switches Trafo3w.hv_bus ;;
      pp_to_switches <-
        get_individual_switch_states Trafo3w.index (pp_trafo3w pp_data)
          pp_switches Trafo3w.lv_bus ;;
      Ok (pp_from_switches, pp_to_switches)
    else Raise KeyError.   (* no table with columns hv_bus, lv_bus *)

(** [get_trafo3w_switch_states(component)]: the three rows of the frame. *)
Definition get_trafo3w_switch_states (pp_data : PandaPowerData)
    (component : list Trafo3w.row)
  : result (Series Z bool * Series Z bool * Series Z bool) :=
  let pp_switches := switches_of_type "t3" (pp_switch pp_data) in
  pp_1_switches <-
    get_individual_switch_states Trafo3w.index component pp_switches
      Trafo3w.hv_bus ;;
  pp_2_switches <-
    get_individual_switch_states Trafo3w.index component pp_switches
      Trafo3w.mv_bus ;;
  pp_3_switches <-
    get_individual_switch_states Trafo3w.index component pp_switches
      Trafo3w.lv_bus ;;
  Ok (pp_1_switches, pp_2_switches, pp_3_switches).

(** *** Specification of the resolved states *)

(** The switch row [sw] is of kind [element_type] and sits at terminal
    [bus] of the device [element]. *)
Definition switch_matches (element_type : string) (element bus : Z)
    (sw : Switch.row) : bool :=
  eqb (Switch.et sw) element_type
  && (Z.eqb element (Switch.element sw) && Z.eqb bus (Switch.bus sw)).

(** The state that the join leaves for the terminal [bus] of the device
    [element]. *)
Definition joined_state (element_type : string)
    (pp_switches : list Switch.row) (element bus : Z) : bool :=
  match filter (switch_matches element_type element bus) pp_switches with
  | [] => true
  | sw :: _ => Switch.closed sw
  end.

(** No terminal of the table is matched by two switch rows. *)
Definition unambiguous {Row} (index bus : Row -> Z) (element_type : string)
    (pp_switches : list Switch.row) (component : list Row) : Prop :=
  forall r, In r component ->
    (length (filter (switch_matches element_type (index r) (bus r))
                    pp_switches) <= 1)%nat.

(** [states] holds, row for row of [component], the resolved state of the
    terminal [bus]: closed without a matching switch row, else the
    [closed] flag of the matching row. *)
Definition terminal_resolved {Row} (index bus : Row -> Z)
    (element_type : string) (pp_switches : list Switch.row)
    (component : list Row) (states : Series Z bool) : Prop :=
  Pandas.index states = map index component
  /\ forall i r, nth_error component i = Some r ->
       exists state,
         nth_error states i = Some (index r, state)
         /\ ((forall sw, In sw pp_switches ->
                switch_matches element_type (index r) (bus r) sw = false) ->
             state = true)
         /\ (forall sw, In sw pp_switches ->
               switch_matches element_type (index r) (bus r) sw = true ->
               state = Switch.closed sw).

(** ** Tap calculator *)

(** [arr[mask] = column[mask]] for a boolean mask and a column of the length
    of [arr]. *)
Fixpoint masked_assign (mask : list bool) (arr column : list Qc) : list Qc :=
  match mask, arr, column with
  | m :: mask', a :: arr', c :: column' =>
      (if m then c else a) :: masked_assign mask' arr' column'
  | _, _, _ => arr
  end.

(** [np.empty(shape=n, dtype=np.float64)]: [n] cells of whatever [garbage]
    the allocator hands out. *)
Definition np_empty (garbage : nat -> Qc) (n : nat) : list Qc :=
  map garbage (seq 0 n).

Definition _get_tap_size (garbage : nat -> Qc) (pp_trafo : list Trafo.row)
  : list Qc :=
  let tap_side_hv := map (fun r => eqb (Trafo.tap_side r) "hv") pp_trafo in
  let tap_side_lv := map (fun r => eqb (Trafo.tap_side r) "lv") pp_trafo in
  let tap_step_multiplier :=
    map (fun r => (Trafo.tap_step_percent r * (f_1e_2 * f_1e3))%Qc) pp_trafo in
  let tap_size := np_empty garbage (length pp_trafo) in
  let tap_size :=
    masked_assign tap_side_hv tap_size
      (col_mul tap_step_multiplier (map Trafo.vn_hv_kv pp_trafo)) in
  let tap_size :=
    masked_assign tap_side_lv tap_size
      (col_mul tap_step_multiplier (map Trafo.vn_lv_kv pp_trafo)) in
  tap_size.

Definition _get_3wtransformer_tap_size (garbage : nat -> Qc)
    (pp_3wtrafo : list Trafo3w.row) : list Qc :=
  let tap_side_hv := map (fun r => eqb (Trafo3w.tap_side r) "hv") pp_3wtrafo in
  let tap_side_mv := map (fun r => eqb (Trafo3w.tap_side r) "mv") pp_3wtrafo in
  let tap_side_lv := map (fun r => eqb (Trafo3w.tap_side r) "lv") pp_3wtrafo in
  let tap_step_multiplier :=
    map (fun r => (Trafo3w.tap_step_percent r * (f_1e_2 * f_1e3))%Qc)
        pp_3wtrafo in
  let tap_size := np_empty garbage (length pp_3wtrafo) in
  let tap_size :=
    masked_assign tap_side_hv tap_size
      (col_mul tap_step_multiplier (map Trafo3w.vn_hv_kv pp_3wtrafo)) in
  let tap_size :=
    masked_assign tap_side_mv tap_size
      (col_mul tap_step_multiplier (map Trafo3w.vn_mv_kv pp_3wtrafo)) in
  let tap_size :=
    masked_assign tap_side_lv tap_size
      (col_mul tap_step_multiplier (map Trafo3w.vn_lv_kv pp_3wtrafo)) in
  tap_size.

(** The nominal voltage, in volt, of the terminal named by [tap_side]. *)
Definition trafo_tap_side_voltage (r : Trafo.row) : option Qc :=
  if eqb (Trafo.tap_side r) "hv" then Some (Trafo.vn_hv_kv r * f_1e3)%Qc
  else if eqb (Trafo.tap_side r) "lv" then Some (Trafo.vn_lv_kv r * f_1e3)%Qc
  else None.

Definition trafo3w_tap_side_voltage (r : Trafo3w.row) : option Qc :=
  if eqb (Trafo3w.tap_side r) "hv" then Some (Trafo3w.vn_hv_kv r * f_1e3)%Qc
  else if eqb (Trafo3w.tap_side r) "mv"
       then Some (Trafo3w.vn_mv_kv r * f_1e3)%Qc
  else if eqb (Trafo3w.tap_side r) "lv"
       then Some (Trafo3w.vn_lv_kv r * f_1e3)%Qc
  else None.

(** ** numpy structured arrays

    The arrays of [pgm_data] and [pgm_output_data] are structured arrays of
    [power_grid_model]; their dtypes are declared outside this repository.
    An array is its list of field names and its rows; reading a field that
    the dtype does not have raises [ValueError]. *)

Module StructArray.
Record t (X : Type) : Type := mk {
  fields : list string;
  rows : list (string -> X)
}.

Definition size {X} (a : t X) : nat := length (rows a).

(** [a[name]] *)
Definition field {X} (a : t X) (name : string) : result (list X) :=
  if existsb (eqb name) (fields a)
  then Ok (map (fun r => r name) (rows a))
  else Raise ValueError.
End StructArray.

(** A row of an array from its (field, value) pairs. *)
Definition row_of {X} (default : X) (l : list (string * X)) : string -> X :=
  fun name => match get l name with Some x => x | None => default end.

Definition col_scale (a : list Qc) (k : Qc) : list Qc :=
  map (fun x => (x * k)%Qc) a.

Definition col_add (a b : list Qc) : list Qc :=
  map (fun ab => (fst ab + snd ab)%Qc) (combine a b).

(** ** Output aggregator: three-winding transformers

    The column assignments of [_pp_trafos3w_output] that read the result
    array [pgm_output_data["three_winding_transformer"]]: source lines
    684-698 and 705, in source order.  The frame is the dictionary of its
    assigned columns.  The row index of the frame and the six columns copied
    from [pgm_nodes_lookup] (lines 656-658, 699-704) are not part of this
    definition. *)
Definition _pp_trafos3w_output (pgm_output_transformers3w : StructArray.t Qc)
  : result (dict string (list Qc)) :=
  let out := StructArray.field pgm_output_transformers3w in
  let pp_output_trafos3w : dict string (list Qc) := [] in
  p_1 <- out "p_1" ;;
  let pp_output_trafos3w := set pp_output_trafos3w "p_hv_mw" (col_scale p_1 f_1e_6) in
  q_1 <- out "q_1" ;;
  let pp_output_trafos3w := set pp_output_trafos3w "q_hv_mvar" (col_scale q_1 f_1e_6) in
  p_2 <- out "p_2" ;;
  let pp_output_trafos3w := set pp_output_trafos3w "p_mv_mw" (col_scale p_2 f_1e_6) in
  q_2 <- out "q_2" ;;
  let pp_output_trafos3w := set pp_output_trafos3w "q_mv_mvar" (col_scale q_2 f_1e_6) in
  p_3 <- out "p_3" ;;
  let pp_output_trafos3w := set pp_output_trafos3w "p_lv_mw" (col_scale p_3 f_1e_6) in
  q_e <- out "q_e" ;;
  let pp_output_trafos3w := set pp_output_trafos3w "q_lv_mvar" (col_scale q_e f_1e_6) in
  p_1 <- out "p_1" ;; p_2 <- out "p_2" ;; p_3 <- out "p_3" ;;
  let pp_output_trafos3w :=
    set pp_output_trafos3w "pl_mw" (col_scale (col_add (col_add p_1 p_2) p_3) f_1e_6) in
  p_1 <- out "p_1" ;; p_2 <- out "p_2" ;; p_3 <- out "p_3" ;;
  let pp_output_trafos3w :=
    set pp_output_trafos3w "ql_mvar" (col_scale (col_add (col_add p_1 p_2) p_3) f_1e_6) in
  i_1 <- out "i_1" ;;
  let pp_output_trafos3w := set pp_output_trafos3w "i_hv_ka" (col_scale i_1 f_1e_3) in
  i_2 <- out "i_2" ;;
  let pp_output_trafos3w := set pp_output_trafos3w "i_mv_ka" (col_scale i_2 f_1e_3) in
  i_3 <- out "i_3" ;;
  let pp_output_trafos3w := set pp_output_trafos3w "i_lv_ka" (col_scale i_3 f_1e_3) in
  loading <- out "loading" ;;
  let pp_output_trafos3w :=
    set pp_output_trafos3w "loading_percent" (col_scale loading f_1e2) in
  Ok pp_output_trafos3w.

(** ** Output aggregator: power accumulated per bus *)

(** The columns of [pp_output_buses] that the accumulator writes, with the
    row label. *)
Module BusOut.
Record row : Type := mk {
  index : Z;
  p_mw : Qc;
  q_mvar : Qc
}.
End BusOut.

(** The local [component_sides] of [_pp_buses_output__accumulate_power]. *)
Definition component_sides : dict string (list (string * string * string)) :=
  [ ("line", [("from_node", "p_from", "q_from"); ("to_node", "p_to", "q_to")]);
    ("link", [("from_node", "p_from", "q_from"); ("to_node", "p_to", "q_to")]);
    ("transformer",
     [("from_node", "p_from", "q_from"); ("to_node", "p_to", "q_to")]);
    ("three_winding_transformer",
     [("node_1", "p_1", "q_1"); ("node_2", "p_2", "q_2");
      ("node_3", "p_3", "q_3")]) ].

Fixpoint insert_sorted (k : Z) (l : list Z) : list Z :=
  match l with
  | [] => [k]
  | x :: l' =>
      if Z.ltb k x then k :: l
      else if Z.eqb k x then l
      else x :: insert_sorted k l'
  end.

(** The distinct keys, ascending. *)
Definition sorted_unique (ks : list Z) : list Z := fold_right insert_sorted [] ks.

(** [frame.groupby(node_col).sum()] for a frame of rows [(node, (p, q))]:
    one row per distinct node, ascending, holding the sums of its group. *)
Definition groupby_sum (data : list (Z * (Qc * Qc))) : Series Z (Qc * Qc) :=
  map (fun k =>
         let group := filter (fun r => Z.eqb (fst r) k) data in
         (k, (Qc_sum (map (fun r => fst (snd r)) group),
              Qc_sum (map (fun r => snd (snd r)) group))))
      (sorted_unique (map fst data)).

(** [Index.intersection] *)
Definition intersection (i j : list Z) : list Z :=
  filter (fun x => existsb (Z.eqb x) j) i.

(** [frame.loc[idx, "p_mw"] += acc[p_col]; frame.loc[idx, "q_mvar"] +=
    acc[q_col]]: rows and values are paired by label.  Labels are unique on
    both sides wherever the properties below use this function; pandas does
    not realign duplicated labels. *)
Definition add_at_labels (pp_output_buses : list BusOut.row)
    (idx : list Z) (acc : Series Z (Qc * Qc)) : list BusOut.row :=
  map (fun b =>
         if existsb (Z.eqb (BusOut.index b)) idx then
           match get acc (BusOut.index b) with
           | Some (p, q) =>
               BusOut.mk (BusOut.index b) (BusOut.p_mw b + p)%Qc
                         (BusOut.q_mvar b + q)%Qc
           | None => b
           end
         else b)
      pp_output_buses.

(** The body of the inner loop, first half: [accumulated_data], the sums
    per node of one side of one component, indexed by bus label. *)
Definition accumulated_side_data (self : Registry)
    (input : StructArray.t Z) (output : StructArray.t Qc)
    (side : string * string * string) : result (Series Z (Qc * Qc)) :=
  let '(node_col, p_col, q_col) := side in
  nodes <- StructArray.field input node_col ;;
  p <- StructArray.field output p_col ;;
  q <- StructArray.field output q_col ;;
  let component_data := combine nodes (combine p q) in
  let accumulated_data := groupby_sum component_data in
  labels <- _get_pp_ids self "bus" (index accumulated_data) None ;;
  labels <- assign_rows (length accumulated_data) labels ;;
  Ok (mkSeries (values accumulated_data) labels).

(** The body of the inner loop: the sums are added to the bus rows. *)
Definition accumulate_side (self : Registry)
    (input : StructArray.t Z) (output : StructArray.t Qc)
    (pp_output_buses : list BusOut.row) (side : string * string * string)
  : result (list BusOut.row) :=
  accumulated_data <- accumulated_side_data self input output side ;;
  let idx := intersection (map BusOut.index pp_output_buses)
                          (index accumulated_data) in
  Ok (add_at_labels pp_output_buses idx accumulated_data).

Fixpoint accumulate_sides (self : Registry)
    (input : StructArray.t Z) (output : StructArray.t Qc)
    (pp_output_buses : list BusOut.row)
    (sides : list (string * string * string)) : result (list BusOut.row) :=
  match sides with
  | [] => Ok pp_output_buses
  | side :: sides' =>
      buses <- accumulate_side self input output pp_output_buses side ;;
      accumulate_sides self input output buses sides'
  end.

(** The outer loop over [component_sides.items()]. *)
Fixpoint accumulate_components (self : Registry)
    (pgm_data : dict string (StructArray.t Z))
    (pgm_output_data : dict string (StructArray.t Qc))
    (pp_output_buses : list BusOut.row)
    (items : dict string (list (string * string * string)))
  : result (list BusOut.row) :=
  match items with
  | [] => Ok pp_output_buses
  | (component, sides) :: items' =>
      match get pgm_output_data component with
      | None => accumulate_components self pgm_data pgm_output_data
                  pp_output_buses items'
      | Some output =>
          if Nat.eqb (StructArray.size output) 0 then
            accumulate_components self pgm_data pgm_output_data
              pp_output_buses items'
          else
            match get pgm_data component with
            | None => Raise KeyError
            | Some input =>
                buses <- accumulate_sides self input output pp_output_buses
                           sides ;;
                accumulate_components self pgm_data pgm_output_data buses
                  items'
            end
      end
  end.

(** [_pp_buses_output__accumulate_power] with the table of components and
    sides made an argument. *)
Definition accumulate_power_over
    (items : dict string (list (string * string * string)))
    (self : Registry)
    (pgm_data : dict string (StructArray.t Z))
    (pgm_output_data : dict string (StructArray.t Qc))
    (pp_output_buses : list BusOut.row) : result (list BusOut.row) :=
  let zeroed :=
    map (fun b => BusOut.mk (BusOut.index b) (Q2Qc 0) (Q2Qc 0))
        pp_output_buses in
  buses <- accumulate_components self pgm_data pgm_output_data zeroed items ;;
  Ok (map (fun b => BusOut.mk (BusOut.index b) (BusOut.p_mw b / f_1e6)%Qc
                              (BusOut.q_mvar b / f_1e6)%Qc) buses).

Definition _pp_buses_output__accumulate_power :=
  accumulate_power_over component_sides.

(** *** Specification of the per-bus totals *)

(** The source bus of a node: the row of the group [("bus", None)] of
    [idx_lookup] labelled with the node id. *)
Definition bus_of_node (self : Registry) (node : Z) : option Z :=
  match get (idx_lookup self) (KTuple "bus" None) with
  | Some s => get s node
  | None => None
  end.

(** The result array of a component that is present and not empty. *)
Definition present (pgm_output_data : dict string (StructArray.t Qc))
    (component : string) : option (StructArray.t Qc) :=
  match get pgm_output_data component with
  | Some output =>
      if Nat.eqb (StructArray.size output) 0 then None else Some output
  | None => None
  end.

(** The rows [(node, (p, q))] of one side of one component. *)
Definition side_rows (input : StructArray.t Z) (output : StructArray.t Qc)
    (side : string * string * string) : list (Z * (Qc * Qc)) :=
  let '(node_col, p_col, q_col) := side in
  match StructArray.field input node_col, StructArray.field output p_col,
        StructArray.field output q_col with
  | Ok nodes, Ok p, Ok q => combine nodes (combine p q)
  | _, _, _ => []
  end.

(** The power ([pick] is [fst] for active, [snd] for reactive power) of
    the rows whose node is the bus [bus]. *)
Definition power_at (self : Registry) (pick : Qc * Qc -> Qc) (bus : Z)
    (rows : list (Z * (Qc * Qc))) : Qc :=
  Qc_sum
    (map (fun r => pick (snd r))
         (filter (fun r => match bus_of_node self (fst r) with
                           | Some b => Z.eqb b bus
                           | None => false
                           end) rows)).

(** The power one device family sends to [bus], over all its sides: zero
    for a family that is absent from the result dataset or empty there. *)
Definition family_power_at (self : Registry)
    (pgm_data : dict string (StructArray.t Z))
    (pgm_output_data : dict string (StructArray.t Qc))
    (pick : Qc * Qc -> Qc) (bus : Z)
    (item : string * list (string * string * string)) : Qc :=
  match present pgm_output_data (fst item), get pgm_data (fst item) with
  | Some output, Some input =>
      Qc_sum (map (fun side => power_at self pick bus
                                 (side_rows input output side)) (snd item))
  | _, _ => Q2Qc 0
  end.

(** The total of a bus: the sum over the families, converted once. *)
Definition bus_total (self : Registry)
    (pgm_data : dict string (StructArray.t Z))
    (pgm_output_data : dict string (StructArray.t Qc))
    (items : dict string (list (string * string * string)))
    (pick : Qc * Qc -> Qc) (bus : Z) : Qc :=
  (Qc_sum (map (family_power_at self pgm_data pgm_output_data pick bus) items)
   * f_1e_6)%Qc.

(** One side can be accumulated: its three fields exist and each of its
    nodes has a source bus. *)
Definition side_ready (self : Registry)
    (input : StructArray.t Z) (output : StructArray.t Qc)
    (side : string * string * string) : bool :=
  let '(node_col, p_col, q_col) := side in
  is_ok (StructArray.field input node_col)
  && is_ok (StructArray.field output p_col)
  && is_ok (StructArray.field output q_col)
  && forallb (fun r => match bus_of_node self (fst r) with
                       | Some _ => true
                       | None => false
                       end) (side_rows input output side).

(** Every family that is present in the result dataset is also in the input
    dataset, with all its sides ready. *)
Definition components_ready (self : Registry)
    (pgm_data : dict string (StructArray.t Z))
    (pgm_output_data : dict string (StructArray.t Qc))
    (items : dict string (list (string * string * string))) : bool :=
  forallb (fun item =>
             match present pgm_output_data (fst item) with
             | None => true
             | Some output =>
                 match get pgm_data (fst item) with
                 | None => false
                 | Some input => forallb (side_ready self input output) (snd item)
                 end
             end) items.

(** The rows of the bus frame with the specified totals. *)
Definition buses_with_totals (self : Registry)
    (pgm_data : dict string (StructArray.t Z))
    (pgm_output_data : dict string (StructArray.t Qc))
    (items : dict string (list (string * string * string)))
    (pp_output_buses : list BusOut.row) : list BusOut.row :=
  map (fun b =>
         BusOut.mk (BusOut.index b)
           (bus_total self pgm_data pgm_output_data items fst (BusOut.index b))
           (bus_total self pgm_data pgm_output_data items snd (BusOut.index b)))
      pp_output_buses.

(** The example network after a power flow: one line from node 0 to node 1
    and a link between the same nodes; no transformer of either kind. *)
Definition example_pgm_data : dict string (StructArray.t Z) :=
  [("line", {| StructArray.fields := ["id"; "from_node"; "to_node"];
               StructArray.rows :=
                 [row_of 0 [("id", 2); ("from_node", 0); ("to_node", 1)]] |});
   ("link", {| StructArray.fields := ["id"; "from_node"; "to_node"];
               StructArray.rows :=
                 [row_of 0 [("id", 3); ("from_node", 0); ("to_node", 1)]] |})].

Definition example_pgm_output_data : dict string (StructArray.t Qc) :=
  [("line", {| StructArray.fields := ["id"; "p_from"; "q_from"; "p_to"; "q_to"];
               StructArray.rows :=
                 [row_of (Q2Qc 0)
                    [("p_from", Q2Qc 1000000); ("q_from", Q2Qc 200000);
                     ("p_to", Q2Qc (-990000)); ("q_to", Q2Qc (-190000))]] |});
   ("link", {| StructArray.fields := ["id"; "p_from"; "q_from"; "p_to"; "q_to"];
               StructArray.rows :=
                 [row_of (Q2Qc 0)
                    [("p_from", Q2Qc 500000); ("q_from", Q2Qc 100000);
                     ("p_to", Q2Qc (-500000)); ("q_to", Q2Qc (-100000))]] |});
   ("transformer", {| StructArray.fields := ["id"; "p_from"; "q_from";
                                             "p_to"; "q_to"];
                      StructArray.rows := [] |})].

Definition example_pp_output_buses : list BusOut.row :=
  [BusOut.mk 10 (Q2Qc 0) (Q2Qc 0); BusOut.mk 11 (Q2Qc 0) (Q2Qc 0)].

(** ** Attribute resolver *)

(** A cell of a source table or of the type library
    ([Union[float, int, str]] and booleans). *)
Inductive Cell : Type :=
| CNum (x : Qc)
| CStr (s : string)
| CBool (b : bool).

(** A source table by column name, and [StdTypes]: table name -> type name
    -> attribute -> value. *)
Definition DataFrame : Type := dict string (list Cell).
Definition StdTypes : Type := dict string (dict string (dict string Cell)).

(** What [_get_pp_attr] returns: a column of the table, or the scalar
    default, left to the caller to broadcast. *)
Inductive Attr : Type :=
| Column (c : list Cell)
| Scalar (x : Qc).

(** The local function [get_std_value] of [_get_pp_attr] ([lru_cache] only
    saves repeated look-ups). *)
Definition get_std_value (std_types : dict string (dict string Cell))
    (attribute : string) (default : option Qc) (std_type_name : Cell)
  : result Cell :=
  match std_type_name with
  | CStr name =>
      std_type <- getitem std_types name ;;
      match get std_type attribute with
      | Some v => Ok v
      | None =>
          match default with
          | Some d => Ok (CNum d)
          | None => Raise KeyError
          end
      end
  | _ => Raise KeyError      (* the library is keyed by strings *)
  end.

(** [_get_pp_attr]; [self._std_types] is never [None] after [__init__]. *)
Definition _get_pp_attr (_std_types : StdTypes) (pp_data : dict string DataFrame)
    (table attribute : string) (default : option Qc) : result Attr :=
  pp_component_data <- getitem pp_data table ;;
  match get pp_component_data attribute with
  | Some column => Ok (Column column)
  | None =>
      match get _std_types table, get pp_component_data "std_type" with
      | Some std_types, Some std_type_column =>
          column <- mapM (get_std_value std_types attribute default)
                         std_type_column ;;
          Ok (Column column)
      | _, _ =>
          match default with
          | None => Raise KeyError
          | Some d => Ok (Scalar d)
          end
      end
  end.

(** *** Specification of the library values *)

(** The value the type library supplies for one row: the attribute of the
    row's type; the default, if one is given, when the type lacks the
    attribute; nothing when the row names no type of the library or the
    type lacks the attribute and no default is given. *)
Definition library_value (std_types : dict string (dict string Cell))
    (attribute : string) (default : option Qc) (std_type_name : Cell)
  : option Cell :=
  match std_type_name with
  | CStr name =>
      match get std_types name with
      | Some std_type =>
          match get std_type attribute with
          | Some v => Some v
          | None => option_map CNum default
          end
      | None => None
      end
  | _ => None
  end.

(** The example data of the resolver: a library with one line type, and a
    line table without the column [r_ohm_per_km]. *)
Definition example_std_types : StdTypes :=
  [("line", [("NAYY 4x50 SE", [("r_ohm_per_km", CNum (Q2Qc (642 # 1000)));
                               ("x_ohm_per_km", CNum (Q2Qc (83 # 1000)))])])].

Definition example_line_frame (std_type : string) : dict string DataFrame :=
  [("line", [("length_km", [CNum (Q2Qc 1)]); ("std_type", [CStr std_type])])].

(** ** Winding-type resolver *)

(** A backtracking matcher with the priorities of Python's [re]: the
    alternatives of [|] are tried left to right, [*] is greedy, and a later
    failure resumes the most recent choice.  Strings are strings of 8-bit
    characters (read as Latin-1, where [0]-[9] are the only decimal
    digits). *)
Module Re.

Inductive regex : Type :=
| Lit (w : string)              (* literal text *)
| Digit                         (* [\d] *)
| Alt (r1 r2 : regex)           (* [r1|r2] *)
| Seq (r1 r2 : regex)           (* [r1r2] *)
| Star (r : regex)              (* [r*] *)
| Group (n : nat) (r : regex).  (* [(r)], the [n]-th group *)

(** The text of the groups matched so far. *)
Definition captures : Type := dict nat string.

Definition is_digit (a : ascii) : bool :=
  (48 <=? nat_of_ascii a)%nat && (nat_of_ascii a <=? 57)%nat.

Fixpoint all_digits (s : string) : bool :=
  match s with
  | EmptyString => true
  | String a s' => is_digit a && all_digits s'
  end.

(** [s] without its prefix [w], if it starts with [w]. *)
Fixpoint strip_prefix (w s : string) : option string :=
  match w, s with
  | EmptyString, _ => Some s
  | String a w', String b s' =>
      if Ascii.eqb a b then strip_prefix w' s' else None
  | String _ _, EmptyString => None
  end.

(** The part of [s] in front of its suffix [rest]. *)
Definition consumed (s rest : string) : string :=
  substring 0 (String.length s - String.length rest) s.

Definition cont : Type := string -> captures -> option captures.

(** Greedy iteration of [step]: one more round if it consumes input and
    the rest then matches, else the continuation here. *)
Fixpoint star_loop (step : string -> captures -> cont -> option captures)
    (k : cont) (fuel : nat) (s : string) (c : captures) : option captures :=
  match fuel with
  | O => k s c
  | S fuel' =>
      match step s c (fun s' c' =>
                        if (String.length s' <? String.length s)%nat
                        then star_loop step k fuel' s' c'
                        else None) with
      | Some c' => Some c'
      | None => k s c
      end
  end.

(** [run r s c k]: match [r] at the front of [s], then [k] on the rest. *)
Fixpoint run (r : regex) (s : string) (c : captures) (k : cont)
  : option captures :=
  match r with
  | Lit w =>
      match strip_prefix w s with
      | Some s' => k s' c
      | None => None
      end
  | Digit =>
      match s with
      | String a s' => if is_digit a then k s' c else None
      | EmptyString => None
      end
  | Alt r1 r2 =>
      match run r1 s c k with
      | Some c' => Some c'
      | None => run r2 s c k
      end
  | Seq r1 r2 => run r1 s c (fun s' c' => run r2 s' c' k)
  | Star r1 => star_loop (run r1) k (String.length s) s c
  | Group n r1 => run r1 s c (fun s' c' => k s' (set c' n (consumed s s')))
  end.

(** The continuation of [fullmatch]: the end of the string. *)
Definition at_end : cont :=
  fun s' c => match s' with EmptyString => Some c | _ => None end.

(** [pattern.fullmatch(s)]: the groups of the first match of all of [s]. *)
Definition fullmatch (r : regex) (s : string) : option captures :=
  run r s [] at_end.

(** [a|b|c|d|e] *)
Definition one_of (a b c d e : string) : regex :=
  Alt (Lit a) (Alt (Lit b) (Alt (Lit c) (Alt (Lit d) (Lit e)))).

(** [match.group(n)] *)
Definition group (m : captures) (n : nat) : string :=
  match get m n with Some g => g | None => EmptyString end.

End Re.

(** [re.compile(r"(Y|YN|D|Z|ZN)(y|yn|d|z|zn)\d*")] *)
Definition CONNECTION_PATTERN_PP : Re.regex :=
  Re.Seq (Re.Group 1 (Re.one_of "Y" "YN" "D" "Z" "ZN"))
         (Re.Seq (Re.Group 2 (Re.one_of "y" "yn" "d" "z" "zn"))
                 (Re.Star Re.Digit)).

(** The connection of one winding: star, delta or zig-zag, with or without
    neutral. *)
Inductive WindingType : Set := star | star_n | delta | zigzag | zigzag_n.

(** Modelled from the spec: [get_winding] of
    [power_grid_model_io.functions] is not among the source files.  The
    spec gives one connection per winding code, "star/delta/zig-zag with or
    without neutral", the upper-case codes for the higher-voltage winding
    and the lower-case codes for the others, with ["Dyn11"] read as (delta,
    star-with-neutral).  Only texts of the pattern's groups reach it; any
    other text is refused. *)
Definition get_winding (winding : string) : result WindingType :=
  if eqb winding "Y" || eqb winding "y" then Ok star
  else if eqb winding "YN" || eqb winding "yn" then Ok star_n
  else if eqb winding "D" || eqb winding "d" then Ok delta
  else if eqb winding "Z" || eqb winding "z" then Ok zigzag
  else if eqb winding "ZN" || eqb winding "zn" then Ok zigzag_n
  else Raise ValueError.

(** The local function [vector_group_to_winding_types] of
    [get_trafo_winding_types]; the integer [.value] of the enumeration is
    left as the enumeration itself. *)
Definition vector_group_to_winding_types (vector_group : string)
  : result (WindingType * WindingType) :=
  match Re.fullmatch CONNECTION_PATTERN_PP vector_group with
  | None => Raise ValueError
  | Some m =>
      winding_from <- get_winding (Re.group m 1) ;;
      winding_to <- get_winding (Re.group m 2) ;;
      Ok (winding_from, winding_to)
  end.

(** The words of the two-winding grammar. *)
Definition winding1_codes : list string := ["Y"; "YN"; "D"; "Z"; "ZN"].
Definition winding2_codes : list string := ["y"; "yn"; "d"; "z"; "zn"].

(** The spec's grammar [<winding1><winding2><clock-digits>*]. *)
Definition two_winding_code (s : string) : Prop :=
  exists g1 g2 clock,
    In g1 winding1_codes /\ In g2 winding2_codes
    /\ Re.all_digits clock = true /\ s = (g1 ++ g2 ++ clock)%string.

(** The contiguous ids [a, a+1, ..., a+n-1]. *)
Definition iota (a : Z) (n : nat) : list Z :=
  map (fun i => a + Z.of_nat i) (seq 0 n).

(** The number of ids a pass allocates. *)
Definition total_size (reqs : list Request) : nat :=
  fold_right (fun r acc => (request_size r + acc)%nat) 0%nat reqs.

(** ** A small network, used to exercise the definitions

    Two buses (labels 10 and 11) and one load (label 7) at bus 10. *)
Definition example_indices : SourceIndices :=
  {| bus_index := [10; 11]; line_index := []; ext_grid_index := [];
     load_index := [7]; shunt_index := []; trafo_index := [];
     sgen_index := []; trafo3w_index := []; switch_index_et := [] |}.

Definition example_requests : list Request :=
  _create_input_data_requests example_indices.

(** The registry once the buses are converted. *)
Definition example_bus_registry : Registry :=
  {| idx := [(KTuple "bus" None, [(10, 0); (11, 1)])];
     idx_lookup := [(KTuple "bus" None, [(0, 10); (1, 11)])];
     next_idx := 2 |}.

(** A load of 1 MW and 1 MVAr, half of it constant current, scaled by 2. *)
Definition example_load : Load.row :=
  {| Load.index := 7; Load.bus := 10; Load.in_service := true;
     Load.p_mw := Q2Qc 1; Load.q_mvar := Q2Qc 1;
     Load.const_z_percent := Q2Qc 0; Load.const_i_percent := Q2Qc 50;
     Load.scaling := Q2Qc 2 |}.

(** A 110/20 kV transformer and a 110/20/10 kV transformer, with switches
    at the line and at the transformers. *)
Definition example_trafo : Trafo.row :=
  {| Trafo.index := 0; Trafo.hv_bus := 10; Trafo.lv_bus := 11;
     Trafo.tap_side := "hv"; Trafo.tap_step_percent := Q2Qc (5 # 2);
     Trafo.vn_hv_kv := Q2Qc 110; Trafo.vn_lv_kv := Q2Qc 20 |}.

Definition example_trafo3w : Trafo3w.row :=
  {| Trafo3w.index := 0; Trafo3w.hv_bus := 10; Trafo3w.mv_bus := 11;
     Trafo3w.lv_bus := 12;
     Trafo3w.tap_side := "mv"; Trafo3w.tap_step_percent := Q2Qc (5 # 4);
     Trafo3w.vn_hv_kv := Q2Qc 110; Trafo3w.vn_mv_kv := Q2Qc 20;
     Trafo3w.vn_lv_kv := Q2Qc 10 |}.

Definition example_pp_data : PandaPowerData :=
  {| pp_line := [Line.mk 0 10 11; Line.mk 1 11 12];
     pp_trafo := [example_trafo];
     pp_trafo3w := [example_trafo3w];
     pp_switch :=
       [Switch.mk 0 "l" 10 0 false;      (* line 0, at its from-bus: open *)
        Switch.mk 1 "l" 12 1 true;       (* line 1, at its to-bus: closed *)
        Switch.mk 2 "t" 11 0 false;      (* trafo 0, low-voltage side *)
        Switch.mk 3 "t3" 11 0 false;     (* trafo3w 0, medium-voltage side *)
        Switch.mk 4 "b" 10 11 true] |}.  (* bus to bus *)

(** A result array of one three-winding transformer, with the fields that
    [_pp_trafos3w_output] reads. *)
Definition example_trafo3w_result : StructArray.t Qc :=
  {| StructArray.fields :=
       ["id"; "p_1"; "q_1"; "p_2"; "q_2"; "p_3"; "q_3"; "q_e";
        "i_1"; "i_2"; "i_3"; "loading"];
     StructArray.rows :=
       [row_of (Q2Qc 0)
          [("p_1", Q2Qc 3000000); ("q_1", Q2Qc 400000);
           ("p_2", Q2Qc (-2000000)); ("q_2", Q2Qc (-100000));
           ("p_3", Q2Qc (-900000)); ("q_3", Q2Qc (-200000))]] |}.

(** *** Auxiliary notions of the accumulation proofs *)

(** Selection by labels, one look-up per label. *)
Definition lookup_all {V} (s : Series Z V) (ks : list Z) : result (list V) :=
  mapM (fun k => match get s k with
                 | Some v => Ok v
                 | None => Raise KeyError
                 end) ks.

(** The sums of [f] and [g] added to the two columns, row by row. *)
Definition add_power (f g : Z -> Qc) (buses : list BusOut.row)
  : list BusOut.row :=
  map (fun b => BusOut.mk (BusOut.index b)
                          (BusOut.p_mw b + f (BusOut.index b))%Qc
                          (BusOut.q_mvar b + g (BusOut.index b))%Qc) buses.

(** ** Public look-ups: [get_id] and [lookup_id] *)

(** The value of [s[l]] for one label [l]: the value of the row when one row
    carries the label, the sub-Series of the rows when several do. *)
Inductive Item (V : Type) : Type :=
| ItemScalar (v : V)
| ItemSeries (vs : list V).
Arguments ItemScalar {V} v.
Arguments ItemSeries {V} vs.

(** [s[l]]: label-based; a label that no row carries raises [KeyError]. *)
Definition getitem_label {L V} `{EqDec L} (s : Series L V) (l : L)
  : result (Item V) :=
  match rows_at s l with
  | [] => Raise KeyError
  | [v] => Ok (ItemScalar v)
  | vs => Ok (ItemSeries vs)
  end.

Definition get_id (self : Registry) (pp_table : string) (pp_idx : Z)
    (name : option string) : result (Item Z) :=
  s <- getitem (idx self) (KTuple pp_table name) ;;
  getitem_label s pp_idx.

(** The dictionary returned by [lookup_id]; [found_name] is [None] when the
    dictionary has no ["name"] entry. *)
Record Found : Type := mkFound {
  found_table : string;
  found_name : option string;
  found_index : Item Z
}.

(** [for (table, name), indices in ...]: a tuple key unpacks into its two
    components, a string key of two characters into those characters, any
    other string raises [ValueError]. *)
Definition unpack_key (key : Key) : result (string * option string) :=
  match key with
  | KTuple pp_table name => Ok (pp_table, name)
  | KStr (String a (String b EmptyString)) =>
      Ok (String a EmptyString, Some (String b EmptyString))
  | KStr _ => Raise ValueError
  end.

(** The loop of [lookup_id] over [self.idx_lookup.items()]. *)
Fixpoint lookup_id_in (items : dict Key (Series Z Z)) (pgm_id : Z)
  : result Found :=
  match items with
  | [] => Raise KeyError
  | (key, indices) :: items' =>
      '(table, name) <- unpack_key key ;;
      if existsb (Z.eqb pgm_id) (index indices) then
        pp_idx <- getitem_label indices pgm_id ;;
        Ok {| found_table := table;
              found_name := if truthy name then name else None;
              found_index := pp_idx |}
      else lookup_id_in items' pgm_id
  end.

Definition lookup_id (self : Registry) (pgm_id : Z) : result Found :=
  lookup_id_in (idx_lookup self) pgm_id.

(** *** The groups of a run of allocations

    What a run of allocation calls stores in [idx] and [idx_lookup]: one
    group per call, keyed by [(pp_table, name)]. *)
Definition idx_entries (reqs : list Request) (idss : list (list Z))
  : dict Key (Series Z Z) :=
  map (fun ri => (request_key (fst ri), mkSeries (snd ri) (snd (fst ri))))
      (combine reqs idss).

Definition idx_lookup_entries (reqs : list Request) (idss : list (list Z))
  : dict Key (Series Z Z) :=
  map (fun ri => (request_key (fst ri), mkSeries (snd (fst ri)) (snd ri)))
      (combine reqs idss).

(** The ids of all groups, in the order of the entries. *)
Definition entry_ids (items : dict Key (Series Z Z)) : list Z :=
  flat_map (fun kv => index (snd kv)) items.

(** Every key is a tuple [(pp_table, name)]. *)
Definition tuple_keys (items : dict Key (Series Z Z)) : Prop :=
  Forall (fun kv => exists pp_table name, fst kv = KTuple pp_table name) items.

(** The tables named by the records of a sidecar. *)
Definition sidecar_tables (extra_info : ExtraInfoLookup) : list string :=
  flat_map (fun entry => match snd entry with
                         | Some id_reference => [ref_table id_reference]
                         | None => []
                         end) extra_info.

(** ** Output aggregator: external grids *)

(** The fields of [pgm_output_data["source"]] that the aggregator reads. *)
Module SourceOut.
Record row : Type := mk {
  id : Z;
  p : Qc;
  q : Qc
}.
End SourceOut.

(** The frame [pp_output_data["ext_grid"]]: row label and the two
    columns. *)
Module ExtGridOut.
Record row : Type := mk {
  index : Z;
  p_mw : Qc;
  q_mvar : Qc
}.
End ExtGridOut.

(** [_pp_ext_grids_output].  [pp_output_data] and [pgm_data] are seen
    through their keys, [pgm_output_data] through its entry ["source"]
    ([None]: no such entry).  A column assigned to the frame must have as
    many cells as the frame has rows. *)
Definition _pp_ext_grids_output (self : Registry)
    (pp_output_data pgm_data : list string)
    (pgm_output_data_source : option (list SourceOut.row))
  : result (list ExtGridOut.row) :=
  if existsb (eqb "ext_grid") pp_output_data then Raise AssertionError else
  if negb (existsb (eqb "source") pgm_data) then Raise AssertionError else
  pgm_output_sources <-
    match pgm_output_data_source with
    | Some a => Ok a
    | None => Raise KeyError
    end ;;
  index <- _get_pp_ids self "source" (map SourceOut.id pgm_output_sources)
             None ;;
  p_mw <- assign_rows (length index)
            (col_scale (map SourceOut.p pgm_output_sources) f_1e_6) ;;
  q_mvar <- assign_rows (length index)
              (col_scale (map SourceOut.q pgm_output_sources) f_1e_6) ;;
  Ok (map (fun r => ExtGridOut.mk (fst r) (fst (snd r)) (snd (snd r)))
          (combine index (combine p_mw q_mvar))).

(** The registry after the forward conversion of two buses (labels 10 and
    11) and one external grid (label 4). *)
Definition example_ext_grid_registry : Registry :=
  {| idx := [(KTuple "bus" None, [(10, 0); (11, 1)]);
             (KTuple "ext_grid" None, [(4, 2)])];
     idx_lookup := [(KTuple "bus" None, [(0, 10); (1, 11)]);
                    (KTuple "ext_grid" None, [(2, 4)])];
     next_idx := 3 |}.

(** The groups that [_create_input_data] can allocate. *)
Definition input_groups : list Key :=
  [KTuple "bus" None; KTuple "line" None; KTuple "ext_grid" None;
   KTuple "load" (Some "const_power");
   KTuple "load" (Some "const_impedance");
   KTuple "load" (Some "const_current");
   KTuple "shunt" None; KTuple "trafo" None; KTuple "sgen" None;
   KTuple "trafo3w" None; KTuple "switch" (Some "bus_to_bus")].

(** ** Three-winding vector groups *)

(** [re.compile(r"(Y|YN|D|Z|ZN)(y|yn|d|z|zn)(y|yn|d|z|zn)\d*")] *)
Definition CONNECTION_PATTERN_PP_3WDG : Re.regex :=
  Re.Seq (Re.Group 1 (Re.one_of "Y" "YN" "D" "Z" "ZN"))
         (Re.Seq (Re.Group 2 (Re.one_of "y" "yn" "d" "z" "zn"))
                 (Re.Seq (Re.Group 3 (Re.one_of "y" "yn" "d" "z" "zn"))
                         (Re.Star Re.Digit))).

(** ** Clock numbers of the transformer converters *)

(** [round] of a float column: to the nearest whole number, a half to the
    even neighbour. *)
Definition round_half_even (x : Qc) : Z :=
  let f := Qfloor x in
  match Qccompare (x - Q2Qc (inject_Z f)) (Q2Qc (1 # 2)) with
  | Lt => f
  | Gt => f + 1
  | Eq => if Z.even f then f else f + 1
  end.

(** One cell of [round(shift_degree / 30) % 12], the expression of
    [_create_pgm_input_transformers] (["clock"]) and of
    [_create_pgm_input_three_winding_transformers] (["clock_12"],
    ["clock_13"]). *)
Definition clock (shift_degree : Qc) : Z :=
  round_half_even (shift_degree / Q2Qc 30) mod 12.

(** ** Forward converter: links (bus-to-bus switches) *)

(** One record of the [link] input array, with the fields that the
    converter assigns. *)
Module Link.
Record row : Type := mk {
  id : Z;
  from_node : Z;
  to_node : Z;
  from_status : bool;
  to_status : bool
}.
End Link.

(** The array assembled from its assigned columns. *)
Fixpoint link_rows (ids from_node to_node : list Z)
    (from_status to_status : list bool) : list Link.row :=
  match ids, from_node, to_node, from_status, to_status with
  | i :: ids', f :: from_node', t :: to_node', fs :: from_status',
    ts :: to_status' =>
      Link.mk i f t fs ts
      :: link_rows ids' from_node' to_node' from_status' to_status'
  | _, _, _, _, _ => []
  end.

(** [_create_pgm_input_links]; [populated] holds the keys of
    [self.pgm_data].  The result is the new [pgm_data["link"]], or [None]
    when the switch table is empty.  The table [pp_data["switch_b2b"]]
    that the method stores is the filtered table; its column ["closed"] is
    read back from it. *)
Definition _create_pgm_input_links (populated : list string)
    (self : Registry) (pp_switches : list Switch.row)
  : result (Registry * option (list Link.row)) :=
  if existsb (eqb "link") populated then Raise AssertionError else
  match pp_switches with
  | [] => Ok (self, None)
  | _ =>
    let pp_switches :=
      filter (fun sw => eqb (Switch.et sw) "b") pp_switches in
    let n := length pp_switches in
    '(self, ids) <- _generate_ids self "switch" (map Switch.index pp_switches)
                      (Some "bus_to_bus") ;;
    ids <- assign_rows n ids ;;
    from_node <- _get_ids self "bus" (map Switch.bus pp_switches) None ;;
    from_node <- assign_rows n from_node ;;
    to_node <- _get_ids self "bus" (map Switch.element pp_switches) None ;;
    to_node <- assign_rows n to_node ;;
    let closed := map Switch.closed pp_switches in
    Ok (self, Some (link_rows ids from_node to_node closed closed))
  end.

(** ** The size of a forward conversion *)


(** *** The totals that the claim names

    The claim speaks of four device families by name and of their
    terminals.  The definitions below state its totals without the
    code's table [component_sides] and without the accessors of the
    arrays: a family counts when the result dataset holds it with at least
    one row, and the columns of a terminal are read row by row. *)

(** The result array of a family that is in the result dataset with at
    least one row. *)
Definition result_rows (pgm_output_data : dict string (StructArray.t Qc))
    (component : string) : option (StructArray.t Qc) :=
  match get pgm_output_data component with
  | Some output =>
      match StructArray.rows output with
      | [] => None
      | _ :: _ => Some output
      end
  | None => None
  end.

Definition has_field {X} (a : StructArray.t X) (name : string) : bool :=
  if in_dec string_dec name (StructArray.fields a) then true else false.

Definition column {X} (a : StructArray.t X) (name : string) : list X :=
  map (fun row => row name) (StructArray.rows a).

(** The rows [(node, (p, q))] of one terminal of a family: the node of
    each device from the input array, its powers from the result array. *)
Definition terminal_rows (input : StructArray.t Z) (output : StructArray.t Qc)
    (terminal : string * string * string) : list (Z * (Qc * Qc)) :=
  let '(node_col, p_col, q_col) := terminal in
  combine (column input node_col)
          (combine (column output p_col) (column output q_col)).




(** One terminal can be read: its three fields exist and each of its nodes
    has a source bus. *)
Definition terminal_ready (self : Registry)
    (input : StructArray.t Z) (output : StructArray.t Qc)
    (terminal : string * string * string) : bool :=
  let '(node_col, p_col, q_col) := terminal in
  has_field input node_col && has_field output p_col
  && has_field output q_col
  && forallb (fun r => match bus_of_node self (fst r) with
                       | Some _ => true
                       | None => false
                       end) (terminal_rows input output terminal).

(** A family can be read: it has no row in the result dataset, or it is in
    the input dataset with all its terminals ready. *)
Definition family_ready (self : Registry)
    (pgm_data : dict string (StructArray.t Z))
    (pgm_output_data : dict string (StructArray.t Qc))
    (component : string) (terminals : list (string * string * string))
  : bool :=
  match result_rows pgm_output_data component with
  | None => true
  | Some output =>
      match get pgm_data component with
      | None => false
      | Some input => forallb (terminal_ready self input output) terminals
      end
  end.

Definition named_families_ready (self : Registry)
    (pgm_data : dict string (StructArray.t Z))
    (pgm_output_data : dict string (StructArray.t Qc)) : bool :=
  family_ready self pgm_data pgm_output_data "line"
    [("from_node", "p_from", "q_from"); ("to_node", "p_to", "q_to")]
  && family_ready self pgm_data pgm_output_data "link"
       [("from_node", "p_from", "q_from"); ("to_node", "p_to", "q_to")]
  && family_ready self pgm_data pgm_output_data "transformer"
       [("from_node", "p_from", "q_from"); ("to_node", "p_to", "q_to")]
  && family_ready self pgm_data pgm_output_data "three_winding_transformer"
       [("node_1", "p_1", "q_1"); ("node_2", "p_2", "q_2");
        ("node_3", "p_3", "q_3")].

(** ** Output aggregator: power accumulated per bus, in float64

    [_pp_buses_output__accumulate_power] once more, statement by statement
    as above, with the powers as binary64 numbers and the additions and the
    final division as binary64 performs them: the two columns are set to
    [0.0] (source lines 466-467), every (family, side) pair adds its group
    sums with [+=] in processing order (lines 497-498), and the columns are
    divided by [1e6] (lines 501-502). *)
Module BusOut64.
Record row : Type := mk {
  index : Z;
  p_mw : float;
  q_mvar : float
}.
End BusOut64.












(** * Properties *)

(** ** Dictionaries *)

Section DictFacts.
Context {K V : Type} `{EqDec K}.

Lemma get_set_same (d : dict K V) k v : get (set d k v) k = Some v.
Proof.
  induction d as [|[k' v'] d IH]; simpl.
  - destruct (eq_dec k k); congruence.
  - destruct (eq_dec k k') as [->|Hne]; simpl.
    + destruct (eq_dec k' k'); congruence.
    + destruct (eq_dec k k'); [congruence | exact IH].
Qed.

Lemma get_set_other (d : dict K V) k k' v :
  k <> k' -> get (set d k v) k' = get d k'.
Proof.
  intros Hne. induction d as [|[k0 v0] d IH]; simpl.
  - destruct (eq_dec k' k); congruence.
  - destruct (eq_dec k k0) as [->|Hne0]; simpl.
    + destruct (eq_dec k' k0); congruence.
    + destruct (eq_dec k' k0); [reflexivity | exact IH].
Qed.

Lemma mem_set_other (d : dict K V) k k' v :
  k <> k' -> mem k' (set d k v) = mem k' d.
Proof. intros Hne. unfold mem. now rewrite get_set_other. Qed.

Lemma mem_false_get (d : dict K V) k : mem k d = false -> get d k = None.
Proof. unfold mem. destruct (get d k); congruence. Qed.
End DictFacts.

(** ** Series *)

Lemma index_mkSeries {L V} (vs : list V) (ls : list L) :
  length ls = length vs -> index (mkSeries vs ls) = ls.
Proof.
  unfold index, mkSeries. revert vs.
  induction ls as [|l ls IH]; intros [|v vs] Hlen; simpl in *;
    try discriminate; try reflexivity.
  f_equal. apply IH. congruence.
Qed.

Lemma values_mkSeries {L V} (vs : list V) (ls : list L) :
  length ls = length vs -> values (mkSeries vs ls) = vs.
Proof.
  unfold values, mkSeries. revert vs.
  induction ls as [|l ls IH]; intros [|v vs] Hlen; simpl in *;
    try discriminate; try reflexivity.
  f_equal. apply IH. congruence.
Qed.

Lemma eqb_refl {A} `{EqDec A} (x : A) : eqb x x = true.
Proof. unfold eqb. destruct (eq_dec x x); congruence. Qed.

Lemma eqb_neq {A} `{EqDec A} (x y : A) : x <> y -> eqb x y = false.
Proof. unfold eqb. destruct (eq_dec x y); congruence. Qed.

Lemma eqb_true_iff {A} `{EqDec A} (x y : A) : eqb x y = true <-> x = y.
Proof. unfold eqb. destruct (eq_dec x y); split; congruence. Qed.

(** A label absent from the index selects no row. *)
Lemma rows_at_absent {L V} `{EqDec L} (s : Series L V) l :
  ~ In l (index s) -> rows_at s l = [].
Proof.
  unfold rows_at, values, index.
  induction s as [|[l0 v0] s IH]; simpl; intros Hn; [reflexivity|].
  rewrite eqb_neq by tauto. apply IH. tauto.
Qed.

(** With unique labels, a row is the only one under its label. *)
Lemma rows_at_unique {L V} `{EqDec L} (s : Series L V) l v :
  NoDup (index s) -> In (l, v) s -> rows_at s l = [v].
Proof.
  unfold rows_at, values, index.
  induction s as [|[l0 v0] s IH]; simpl; intros Hnd Hin; [contradiction|].
  inversion Hnd as [|? ? Hnotin Hnd']; subst.
  destruct Hin as [Heq|Hin].
  - inversion Heq; subst. rewrite eqb_refl. simpl. f_equal.
    apply (rows_at_absent (s := s)). exact Hnotin.
  - assert (l0 <> l).
    { intros ->. apply Hnotin. change l with (fst (l, v)). now apply in_map. }
    rewrite eqb_neq by assumption. now apply IH.
Qed.

Lemma loc_rows {L V} `{EqDec L} (s : Series L V) (rows : list (L * V)) :
  NoDup (index s) -> incl rows s ->
  loc s (map fst rows) = Ok (map snd rows).
Proof.
  intros Hnd. unfold loc.
  induction rows as [|[l v] rows IH]; intros Hincl; simpl; [reflexivity|].
  rewrite (rows_at_unique (v := v)) by (auto; apply Hincl; now left).
  simpl.
  assert (Hincl' : incl rows s) by (intros x Hx; apply Hincl; now right).
  specialize (IH Hincl'). unfold bind in *.
  destruct (mapM _ (map fst rows)) as [vss|e]; [|discriminate].
  simpl. inversion IH. reflexivity.
Qed.

(** Selecting by the whole index returns the values. *)
Lemma loc_index {L V} `{EqDec L} (s : Series L V) :
  NoDup (index s) -> loc s (index s) = Ok (values s).
Proof. intros Hnd. apply loc_rows; [assumption | apply incl_refl]. Qed.

(** ** [np.arange] within the range of [int32] *)

Lemma int32_small z : - 2 ^ 31 <= z < 2 ^ 31 -> int32 z = z.
Proof.
  intros Hz. unfold int32.
  rewrite Z.mod_small; lia.
Qed.

Lemma arange_int32_iota a (n : nat) :
  0 <= a -> a + Z.of_nat n <= 2 ^ 31 ->
  arange_int32 a (a + Z.of_nat n) = iota a n.
Proof.
  intros Ha Hb. unfold arange_int32, iota.
  replace (a + Z.of_nat n - a) with (Z.of_nat n) by lia.
  rewrite Nat2Z.id.
  apply map_ext_in. intros i Hi. apply in_seq in Hi.
  apply int32_small. lia.
Qed.

Lemma length_iota a n : length (iota a n) = n.
Proof. unfold iota. now rewrite length_map, length_seq. Qed.

Lemma in_iota a n z : In z (iota a n) <-> a <= z < a + Z.of_nat n.
Proof.
  unfold iota. rewrite in_map_iff. split.
  - intros [i [<- Hi]]. apply in_seq in Hi. lia.
  - intros Hz. exists (Z.to_nat (z - a)). split; [lia|].
    apply in_seq. lia.
Qed.

Lemma iota_app a n m :
  iota a (n + m) = iota a n ++ iota (a + Z.of_nat n) m.
Proof.
  unfold iota. rewrite seq_app, map_app. f_equal.
  generalize 0%nat as s.
  induction m as [|m IH]; intros s; [reflexivity|].
  simpl. f_equal; [lia|]. apply (IH (S s)).
Qed.

Lemma iota_sorted a n : StronglySorted Z.lt (iota a n).
Proof.
  revert a. induction n as [|n IH]; intros a; [constructor|].
  change (S n) with (1 + n)%nat. rewrite iota_app.
  change (iota a 1) with [a + Z.of_nat 0]. simpl.
  constructor; [apply IH|].
  apply Forall_forall. intros z Hz. apply in_iota in Hz. lia.
Qed.

Lemma iota_NoDup a n : NoDup (iota a n).
Proof.
  revert a. induction n as [|n IH]; intros a; [constructor|].
  change (S n) with (1 + n)%nat. rewrite iota_app.
  change (iota a 1) with [a + Z.of_nat 0]. simpl.
  constructor; [|apply IH].
  intros Hz. apply in_iota in Hz. lia.
Qed.

(** ** Identifier registry *)

(** Inside the range of [int32] an allocation hands out the next
    [len(pp_idx)] integers. *)
Lemma generate_ids_ok self pp_table pp_idx name :
  mem (KTuple pp_table name) (idx_lookup self) = false ->
  0 <= next_idx self ->
  next_idx self + Z.of_nat (length pp_idx) <= 2 ^ 31 ->
  _generate_ids self pp_table pp_idx name =
  Ok ({| idx := set (idx self) (KTuple pp_table name)
                    (mkSeries (iota (next_idx self) (length pp_idx)) pp_idx);
         idx_lookup := set (idx_lookup self) (KTuple pp_table name)
                           (mkSeries pp_idx (iota (next_idx self) (length pp_idx)));
         next_idx := next_idx self + Z.of_nat (length pp_idx) |},
      iota (next_idx self) (length pp_idx)).
Proof.
  intros Hm H0 Hb. unfold _generate_ids. rewrite Hm.
  rewrite arange_int32_iota by assumption. reflexivity.
Qed.

(** C3.  Allocating the target ids of a group and mapping the returned ids
    back with [_get_pp_ids] gives the source indices that were passed in, in
    the same order.  The group must be new (the [assert] of
    [_generate_ids]) and the ids must fit [int32]; the collection of source
    indices is arbitrary, empty or not. *)
Theorem generate_ids_then_get_pp_ids self pp_table pp_idx name :
  mem (KTuple pp_table name) (idx_lookup self) = false ->
  0 <= next_idx self ->
  next_idx self + Z.of_nat (length pp_idx) <= 2 ^ 31 ->
  exists self' pgm_idx,
    _generate_ids self pp_table pp_idx name = Ok (self', pgm_idx)
    /\ _get_pp_ids self' pp_table pgm_idx name = Ok pp_idx.
Proof.
  intros Hm H0 Hb. rewrite generate_ids_ok by assumption.
  eexists _, _. split; [reflexivity|].
  unfold _get_pp_ids. cbn [idx_lookup]. rewrite get_set_same.
  set (ids := iota (next_idx self) (length pp_idx)).
  assert (Hlen : length ids = length pp_idx) by apply length_iota.
  assert (Hidx : index (mkSeries pp_idx ids) = ids)
    by now apply index_mkSeries.
  assert (Hval : values (mkSeries pp_idx ids) = pp_idx)
    by now apply values_mkSeries.
  destruct (index_equals _ _); [now rewrite Hval|].
  rewrite <- Hidx at 2. rewrite loc_index; [now rewrite Hval|].
  rewrite Hidx. apply iota_NoDup.
Qed.

Lemma generate_ids_then_get_pp_ids_witness :
  exists self' pgm_idx,
    _generate_ids init "bus" [10; 11] None = Ok (self', pgm_idx)
    /\ _get_pp_ids self' "bus" pgm_idx None = Ok [10; 11].
Proof.
  apply (@generate_ids_then_get_pp_ids init "bus" [10; 11] None);
    [reflexivity | simpl; lia | simpl; lia].
Defined.

Lemma total_size_cons r reqs :
  total_size (r :: reqs) = (request_size r + total_size reqs)%nat.
Proof. reflexivity. Qed.

(** A run of allocations from any state whose counter is not negative. *)
Lemma allocate_all_spec reqs : forall self,
  NoDup (map request_key reqs) ->
  (forall r, In r reqs -> mem (request_key r) (idx_lookup self) = false) ->
  0 <= next_idx self ->
  next_idx self + Z.of_nat (total_size reqs) <= 2 ^ 31 ->
  exists self' idss,
    allocate_all self reqs = Ok (self', idss)
    /\ map (@length Z) idss = map request_size reqs
    /\ concat idss = iota (next_idx self) (total_size reqs)
    /\ next_idx self' = next_idx self + Z.of_nat (total_size reqs).
Proof.
  induction reqs as [|[[pp_table name] pp_idx] reqs IH];
    intros self Hnd Hnew H0 Hb.
  - exists self, []. simpl. repeat split. lia.
  - rewrite total_size_cons in *. cbn [request_size] in *.
    inversion Hnd as [|? ? Hnotin Hnd']; subst.
    assert (Hm : mem (KTuple pp_table name) (idx_lookup self) = false)
      by (apply (Hnew (pp_table, name, pp_idx)); now left).
    cbn [allocate_all].
    rewrite generate_ids_ok by (try assumption; lia).
    set (self1 := {| idx := _; idx_lookup := _; next_idx := _ |}).
    destruct (@IH self1) as (self' & idss & Hrun & Hlens & Hcat & Hnext).
    + assumption.
    + intros r Hr. unfold self1; cbn [idx_lookup].
      rewrite mem_set_other; [apply Hnew; now right|].
      intros Heq. apply Hnotin. rewrite Heq. now apply in_map.
    + unfold self1; cbn [next_idx]. lia.
    + unfold self1; cbn [next_idx]. lia.
    + exists self', (iota (next_idx self) (length pp_idx) :: idss).
      cbn [bind]. rewrite Hrun. cbn [bind].
      split; [reflexivity|]. split; [|split].
      * simpl. rewrite length_iota. now f_equal.
      * simpl. rewrite Hcat. unfold self1; cbn [next_idx].
        now rewrite iota_app.
      * rewrite Hnext. unfold self1; cbn [next_idx]. lia.
Qed.

(** C4.  A pass resets the counter to 0; its allocations, whatever the
    tables and qualifiers (each group allocated once, as the [assert]
    demands), succeed and hand out, taken in call order, exactly
    [0, 1, ..., total-1]: unique, contiguous from 0 and strictly increasing.
    The bound keeps every id inside [int32]. *)
Theorem pass_ids_contiguous_from_zero self reqs :
  NoDup (map request_key reqs) ->
  Z.of_nat (total_size reqs) <= 2 ^ 31 ->
  next_idx (_parse_data_reset self) = 0
  /\ exists self' idss,
       allocate_all (_parse_data_reset self) reqs = Ok (self', idss)
       /\ map (@length Z) idss = map request_size reqs
       /\ concat idss = iota 0 (total_size reqs)
       /\ NoDup (concat idss)
       /\ StronglySorted Z.lt (concat idss)
       /\ next_idx self' = Z.of_nat (total_size reqs).
Proof.
  intros Hnd Hb. split; [reflexivity|].
  destruct (@allocate_all_spec reqs (_parse_data_reset self))
    as (self' & idss & Hrun & Hlens & Hcat & Hnext);
    [assumption | reflexivity | simpl; lia | simpl; lia |].
  exists self', idss. simpl in Hcat, Hnext.
  repeat split; try assumption.
  - rewrite Hcat. apply iota_NoDup.
  - rewrite Hcat. apply iota_sorted.
Qed.

Lemma pass_ids_contiguous_from_zero_witness :
  next_idx (_parse_data_reset init) = 0
  /\ exists self' idss,
       allocate_all (_parse_data_reset init) example_requests = Ok (self', idss)
       /\ map (@length Z) idss = map request_size example_requests
       /\ concat idss = iota 0 (total_size example_requests)
       /\ NoDup (concat idss)
       /\ StronglySorted Z.lt (concat idss)
       /\ next_idx self' = Z.of_nat (total_size example_requests).
Proof.
  apply (@pass_ids_contiguous_from_zero init example_requests).
  - repeat constructor; simpl; intuition discriminate.
  - simpl; lia.
Defined.


(** *** The registry rebuilt from the sidecar *)

Lemma rebuild_keeps_tuple_keys_out entries : forall self pp_table name,
  get (idx self) (KTuple pp_table name) = None ->
  get (idx_lookup self) (KTuple pp_table name) = None ->
  let rebuilt :=
    fold_left
      (fun (self : Registry) (entry : string * list (Z * Z)) =>
         let '(pp_table, table_pgm_to_pp_id) := entry in
         let pgm_ids := map fst table_pgm_to_pp_id in
         let pp_indices := map snd table_pgm_to_pp_id in
         {| idx := set (idx self) (KStr pp_table) (mkSeries pgm_ids pp_indices);
            idx_lookup :=
              set (idx_lookup self) (KStr pp_table) (mkSeries pp_indices pgm_ids);
            next_idx := next_idx self |})
      entries self in
  get (idx rebuilt) (KTuple pp_table name) = None
  /\ get (idx_lookup rebuilt) (KTuple pp_table name) = None.
Proof.
  induction entries as [|[t l] entries IH]; intros self pp_table name H1 H2;
    cbn [fold_left]; [now split|].
  apply IH; cbn [idx idx_lookup];
    rewrite get_set_other by discriminate; assumption.
Qed.

(** After [_extra_info_to_idx_lookup], no group is stored under a
    [(pp_table, name)] key: both look-ups raise for every table, qualifier
    and id. *)
Lemma rebuilt_registry_lookups_raise self extra_info pp_table ids name :
  _get_pp_ids (_extra_info_to_idx_lookup self extra_info) pp_table ids name
  = Raise KeyError
  /\ _get_ids (_extra_info_to_idx_lookup self extra_info) pp_table ids name
     = Raise KeyError.
Proof.
  unfold _extra_info_to_idx_lookup, _get_pp_ids, _get_ids.
  destruct (@rebuild_keeps_tuple_keys_out (collect_id_references extra_info)
              {| idx := []; idx_lookup := []; next_idx := next_idx self |}
              pp_table name eq_refl eq_refl) as [H1 H2].
  cbv zeta in H1, H2. rewrite H1, H2. now split.
Qed.

(** C2 (not met by the code).  After the forward pass over the
    example network, the registry maps ids 0, 1 back to buses 10, 11 and
    load 7 to id 3 in the group "const_impedance".  The registry rebuilt
    from the sidecar of that very pass stores its groups under the bare
    table names, the three load groups merged into one, and raises
    [KeyError] on the same look-ups. *)
Theorem sidecar_rebuild_loses_groups :
  exists self extra_info,
    _parse_data init example_requests [] = Ok (self, extra_info)
    /\ _get_pp_ids self "bus" [0; 1] None = Ok [10; 11]
    /\ _get_ids self "load" [7] (Some "const_impedance") = Ok [3]
    /\ _get_pp_ids (_extra_info_to_idx_lookup self extra_info)
         "bus" [0; 1] None = Raise KeyError
    /\ _get_ids (_extra_info_to_idx_lookup self extra_info)
         "load" [7] (Some "const_impedance") = Raise KeyError
    /\ idx_lookup (_extra_info_to_idx_lookup self extra_info)
       = [(KStr "bus", [(0, 10); (1, 11)]);
          (KStr "load", [(2, 7); (3, 7); (4, 7)])].
Proof.
  eexists _, _. split; [vm_compute; reflexivity|].
  split; [reflexivity|]. split; [reflexivity|].
  split; [apply rebuilt_registry_lookups_raise|].
  split; [apply rebuilt_registry_lookups_raise|].
  reflexivity.
Qed.

(** ** Tap calculator *)

Lemma length_masked_assign mask : forall arr column,
  length (masked_assign mask arr column) = length arr.
Proof.
  induction mask as [|m mask IH]; intros [|a arr] [|c column]; simpl;
    try reflexivity.
  now rewrite IH.
Qed.

Lemma nth_error_masked_assign mask : forall arr column i m a c,
  nth_error mask i = Some m -> nth_error arr i = Some a ->
  nth_error column i = Some c ->
  nth_error (masked_assign mask arr column) i = Some (if m then c else a).
Proof.
  induction mask as [|m0 mask IH]; intros [|a0 arr] [|c0 column] [|i] m a c;
    simpl; try discriminate.
  - intros H1 H2 H3. inversion H1; inversion H2; inversion H3; now subst.
  - apply IH.
Qed.

Lemma nth_error_col_mul a b i x y :
  nth_error a i = Some x -> nth_error b i = Some y ->
  nth_error (col_mul a b) i = Some (x * y)%Qc.
Proof.
  revert b i. induction a as [|x0 a IH]; intros [|y0 b] [|i]; simpl;
    try discriminate.
  - intros H1 H2. inversion H1; inversion H2; now subst.
  - apply IH.
Qed.

Lemma nth_error_np_empty garbage n i :
  (i < n)%nat -> nth_error (np_empty garbage n) i = Some (garbage i).
Proof.
  intros Hi. unfold np_empty.
  rewrite nth_error_map, nth_error_nth' with (d := 0%nat)
    by (now rewrite length_seq).
  simpl. now rewrite seq_nth.
Qed.

Lemma length_get_tap_size garbage pp_trafo :
  length (_get_tap_size garbage pp_trafo) = length pp_trafo.
Proof.
  unfold _get_tap_size. rewrite !length_masked_assign.
  unfold np_empty. now rewrite length_map, length_seq.
Qed.

Lemma length_get_3wtransformer_tap_size garbage pp_3wtrafo :
  length (_get_3wtransformer_tap_size garbage pp_3wtrafo) = length pp_3wtrafo.
Proof.
  unfold _get_3wtransformer_tap_size. rewrite !length_masked_assign.
  unfold np_empty. now rewrite length_map, length_seq.
Qed.

(** The cell written for one two-winding row. *)
Lemma get_tap_size_row garbage pp_trafo i r :
  nth_error pp_trafo i = Some r ->
  nth_error (_get_tap_size garbage pp_trafo) i =
  Some (if eqb (Trafo.tap_side r) "lv"
        then (Trafo.tap_step_percent r * (f_1e_2 * f_1e3) * Trafo.vn_lv_kv r)%Qc
        else if eqb (Trafo.tap_side r) "hv"
        then (Trafo.tap_step_percent r * (f_1e_2 * f_1e3) * Trafo.vn_hv_kv r)%Qc
        else garbage i).
Proof.
  intros Hr. unfold _get_tap_size.
  assert (Hi : (i < length pp_trafo)%nat)
    by (apply nth_error_Some; congruence).
  erewrite nth_error_masked_assign; [reflexivity | | |].
  - rewrite nth_error_map, Hr. reflexivity.
  - erewrite nth_error_masked_assign; [reflexivity | | |].
    + rewrite nth_error_map, Hr. reflexivity.
    + now apply nth_error_np_empty.
    + apply nth_error_col_mul; rewrite nth_error_map, Hr; reflexivity.
  - apply nth_error_col_mul; rewrite nth_error_map, Hr; reflexivity.
Qed.

(** The cell written for one three-winding row. *)
Lemma get_3wtransformer_tap_size_row garbage pp_3wtrafo i r :
  nth_error pp_3wtrafo i = Some r ->
  nth_error (_get_3wtransformer_tap_size garbage pp_3wtrafo) i =
  Some (if eqb (Trafo3w.tap_side r) "lv"
        then (Trafo3w.tap_step_percent r * (f_1e_2 * f_1e3)
              * Trafo3w.vn_lv_kv r)%Qc
        else if eqb (Trafo3w.tap_side r) "mv"
        then (Trafo3w.tap_step_percent r * (f_1e_2 * f_1e3)
              * Trafo3w.vn_mv_kv r)%Qc
        else if eqb (Trafo3w.tap_side r) "hv"
        then (Trafo3w.tap_step_percent r * (f_1e_2 * f_1e3)
              * Trafo3w.vn_hv_kv r)%Qc
        else garbage i).
Proof.
  intros Hr. unfold _get_3wtransformer_tap_size.
  assert (Hi : (i < length pp_3wtrafo)%nat)
    by (apply nth_error_Some; congruence).
  erewrite nth_error_masked_assign; [reflexivity | | |].
  - rewrite nth_error_map, Hr. reflexivity.
  - erewrite nth_error_masked_assign; [reflexivity | | |].
    + rewrite nth_error_map, Hr. reflexivity.
    + erewrite nth_error_masked_assign; [reflexivity | | |].
      * rewrite nth_error_map, Hr. reflexivity.
      * now apply nth_error_np_empty.
      * apply nth_error_col_mul; rewrite nth_error_map, Hr; reflexivity.
    + apply nth_error_col_mul; rewrite nth_error_map, Hr; reflexivity.
  - apply nth_error_col_mul; rewrite nth_error_map, Hr; reflexivity.
Qed.

(** C9.  Both tap-size functions return one cell per row of the device
    table, and the cell of a row whose [tap_side] names a terminal
    (["hv"], ["lv"]; for three windings also ["mv"]) is
    [tap_step_percent * 1e-2] times that terminal's nominal voltage in
    volt. *)
Theorem tap_size_is_step_fraction_times_side_voltage
    garbage pp_trafo pp_3wtrafo i j r r3 u u3 :
  nth_error pp_trafo i = Some r ->
  trafo_tap_side_voltage r = Some u ->
  nth_error pp_3wtrafo j = Some r3 ->
  trafo3w_tap_side_voltage r3 = Some u3 ->
  length (_get_tap_size garbage pp_trafo) = length pp_trafo
  /\ nth_error (_get_tap_size garbage pp_trafo) i
     = Some (Trafo.tap_step_percent r * f_1e_2 * u)%Qc
  /\ length (_get_3wtransformer_tap_size garbage pp_3wtrafo)
     = length pp_3wtrafo
  /\ nth_error (_get_3wtransformer_tap_size garbage pp_3wtrafo) j
     = Some (Trafo3w.tap_step_percent r3 * f_1e_2 * u3)%Qc.
Proof.
  intros Hr Hu Hr3 Hu3.
  split; [apply length_get_tap_size|].
  split; [|split; [apply length_get_3wtransformer_tap_size|]].
  - rewrite (get_tap_size_row garbage Hr). f_equal.
    unfold trafo_tap_side_voltage in Hu.
    destruct (eqb (Trafo.tap_side r) "lv") eqn:Elv.
    + apply eqb_true_iff in Elv. rewrite Elv in Hu. simpl in Hu.
      inversion Hu; subst. ring.
    + destruct (eqb (Trafo.tap_side r) "hv"); [|discriminate].
      inversion Hu; subst. ring.
  - rewrite (get_3wtransformer_tap_size_row garbage Hr3). f_equal.
    unfold trafo3w_tap_side_voltage in Hu3.
    destruct (eqb (Trafo3w.tap_side r3) "lv") eqn:Elv.
    + apply eqb_true_iff in Elv. rewrite Elv in Hu3. simpl in Hu3.
      inversion Hu3; subst. ring.
    + destruct (eqb (Trafo3w.tap_side r3) "mv") eqn:Emv.
      * apply eqb_true_iff in Emv. rewrite Emv in Hu3. simpl in Hu3.
        inversion Hu3; subst. ring.
      * destruct (eqb (Trafo3w.tap_side r3) "hv"); [|discriminate].
        inversion Hu3; subst. ring.
Qed.

Lemma tap_size_is_step_fraction_times_side_voltage_witness :
  length (_get_tap_size (fun _ => Q2Qc 0) [example_trafo]) = 1%nat
  /\ nth_error (_get_tap_size (fun _ => Q2Qc 0) [example_trafo]) 0
     = Some (Trafo.tap_step_percent example_trafo * f_1e_2
             * (Trafo.vn_hv_kv example_trafo * f_1e3))%Qc
  /\ length (_get_3wtransformer_tap_size (fun _ => Q2Qc 0) [example_trafo3w])
     = 1%nat
  /\ nth_error (_get_3wtransformer_tap_size (fun _ => Q2Qc 0) [example_trafo3w]) 0
     = Some (Trafo3w.tap_step_percent example_trafo3w * f_1e_2
             * (Trafo3w.vn_mv_kv example_trafo3w * f_1e3))%Qc.
Proof.
  apply (@tap_size_is_step_fraction_times_side_voltage
           (fun _ => Q2Qc 0) [example_trafo] [example_trafo3w] 0 0
           example_trafo example_trafo3w);
    reflexivity.
Defined.

(** ** Forward converter: symmetric loads *)

(** C1 (not met by the code).  For the example load (1 MW,
    1 MVAr, [const_i_percent = 50], [const_z_percent = 0], [scaling = 2])
    the three generated records carry 0, 0 and 1e6: the constant-power
    share is scaled a second time after the scaled shares were subtracted
    from the unscaled total.  Their sum is 1e6 where
    [p_mw * scaling * 1e6] is 2e6, and likewise for the reactive power. *)
Theorem load_split_scales_constant_power_twice :
  exists self cp cz ci,
    _create_pgm_input_sym_loads [] example_bus_registry [example_load]
    = Ok (self, Some [cp; cz; ci])
    /\ (SymLoad.type cp, SymLoad.type cz, SymLoad.type ci)
       = (const_power, const_impedance, const_current)
    /\ SymLoad.p_specified cp = Q2Qc 0
    /\ SymLoad.p_specified cz = Q2Qc 0
    /\ SymLoad.p_specified ci = Q2Qc 1000000
    /\ (SymLoad.p_specified cp + SymLoad.p_specified cz
        + SymLoad.p_specified ci)%Qc = Q2Qc 1000000
    /\ (Load.p_mw example_load * Load.scaling example_load * f_1e6)%Qc
       = Q2Qc 2000000
    /\ (SymLoad.q_specified cp + SymLoad.q_specified cz
        + SymLoad.q_specified ci)%Qc = Q2Qc 1000000
    /\ (Load.q_mvar example_load * Load.scaling example_load * f_1e6)%Qc
       = Q2Qc 2000000.
Proof.
  eexists _, _, _, _. split; [vm_compute; reflexivity|].
  split; [reflexivity|].
  repeat split; apply Qc_is_canon; reflexivity.
Qed.

(** *** The split in general *)

Lemma assign_rows_inv {A} n (v v' : list A) :
  assign_rows n v = Ok v' -> v' = v /\ length v = n.
Proof.
  unfold assign_rows.
  destruct (Nat.eqb_spec (length v) n) as [Hl|]; [|discriminate].
  intros H. split; [congruence | exact Hl].
Qed.

Lemma length_sym_load_block ty n : forall ids nodes status p q,
  length ids = n -> length nodes = n -> length status = n ->
  length p = n -> length q = n ->
  length (sym_load_block ty ids nodes status p q) = n.
Proof.
  induction n as [|n IH];
    intros [|i ids] [|nd nodes] [|s status] [|p0 p] [|q0 q];
    simpl; try discriminate; try reflexivity.
  intros. f_equal. apply IH; congruence.
Qed.

Lemma nth_error_sym_load_block ty : forall ids nodes status p q i a b c x y,
  nth_error ids i = Some a -> nth_error nodes i = Some b ->
  nth_error status i = Some c -> nth_error p i = Some x ->
  nth_error q i = Some y ->
  nth_error (sym_load_block ty ids nodes status p q) i
  = Some (SymLoad.mk a b c ty x y).
Proof.
  induction ids as [|i0 ids IH];
    intros [|nd nodes] [|s status] [|p0 p] [|q0 q] [|i] a b c x y;
    simpl; try discriminate.
  - intros H1 H2 H3 H4 H5.
    inversion H1; inversion H2; inversion H3; inversion H4; inversion H5.
    now subst.
  - apply IH.
Qed.

Lemma nth_error_of_length {A} (l : list A) i n :
  length l = n -> (i < n)%nat -> exists a, nth_error l i = Some a.
Proof.
  intros Hl Hi. destruct (nth_error l i) as [a|] eqn:E; [now exists a|].
  apply nth_error_None in E. lia.
Qed.

Lemma length_col_mul a b n :
  length a = n -> length b = n -> length (col_mul a b) = n.
Proof.
  intros Ha Hb. unfold col_mul. rewrite length_map, length_combine. lia.
Qed.

Lemma generated_for_blocks n i (bp bz bi : list SymLoad.row) a b c :
  length bp = n -> length bz = n ->
  nth_error bp i = Some a -> nth_error bz i = Some b ->
  nth_error bi i = Some c ->
  generated_for n i (bp ++ bz ++ bi) = [a; b; c].
Proof.
  intros Lp Lz Ha Hb Hc. unfold generated_for.
  assert (Hi : (i < n)%nat) by (rewrite <- Lp; apply nth_error_Some; congruence).
  rewrite nth_error_app1, Ha by lia.
  rewrite (nth_error_app2 bp) by lia.
  replace (n + i - length bp)%nat with i by lia.
  rewrite nth_error_app1, Hb by lia.
  rewrite (nth_error_app2 bp) by lia.
  rewrite (nth_error_app2 bz) by lia.
  replace (2 * n + i - length bp - length bz)%nat with i by lia.
  now rewrite Hc.
Qed.

(** The three records of one load row, whatever the registry hands out
    for ids and nodes. *)
Lemma sym_loads_of_row populated self pp_loads self' arr i r :
  _create_pgm_input_sym_loads populated self pp_loads = Ok (self', Some arr) ->
  nth_error pp_loads i = Some r ->
  exists cp cz ci,
    generated_for (length pp_loads) i arr = [cp; cz; ci]
    /\ (SymLoad.type cp, SymLoad.type cz, SymLoad.type ci)
       = (const_power, const_impedance, const_current)
    /\ SymLoad.p_specified cp
       = ((f_1e6 - Load.const_i_percent r * Load.scaling r * (f_1e_2 * f_1e6)
           - Load.const_z_percent r * Load.scaling r * (f_1e_2 * f_1e6))
          * Load.scaling r * Load.p_mw r)%Qc
    /\ SymLoad.p_specified cz
       = (Load.const_z_percent r * Load.scaling r * (f_1e_2 * f_1e6)
          * Load.p_mw r)%Qc
    /\ SymLoad.p_specified ci
       = (Load.const_i_percent r * Load.scaling r * (f_1e_2 * f_1e6)
          * Load.p_mw r)%Qc
    /\ SymLoad.q_specified cp
       = ((f_1e6 - Load.const_i_percent r * Load.scaling r * (f_1e_2 * f_1e6)
           - Load.const_z_percent r * Load.scaling r * (f_1e_2 * f_1e6))
          * Load.scaling r * Load.q_mvar r)%Qc
    /\ SymLoad.q_specified cz
       = (Load.const_z_percent r * Load.scaling r * (f_1e_2 * f_1e6)
          * Load.q_mvar r)%Qc
    /\ SymLoad.q_specified ci
       = (Load.const_i_percent r * Load.scaling r * (f_1e_2 * f_1e6)
          * Load.q_mvar r)%Qc.
Proof.
  intros Hrun Hr.
  assert (Hi : (i < length pp_loads)%nat)
    by (apply nth_error_Some; congruence).
  unfold _create_pgm_input_sym_loads in Hrun.
  destruct (existsb _ populated); [discriminate|].
  destruct pp_loads as [|r0 rest] eqn:Eloads; [discriminate|].
  rewrite <- Eloads in *. clear Eloads r0 rest.
  set (n := length pp_loads) in *.
  repeat match type of Hrun with
         | bind ?c _ = Ok _ =>
             let E := fresh "E" in
             destruct c as [?x|] eqn:E; [cbn [bind] in Hrun | discriminate Hrun]
         | match ?x with (_, _) => _ end = Ok _ => destruct x
         end.
  inversion Hrun; subst arr; clear Hrun.
  repeat match goal with
         | H : assign_rows _ _ = Ok _ |- _ =>
             apply assign_rows_inv in H; destruct H as [-> ?]
         end.
  repeat match goal with
         | H : length ?l = n |- _ =>
             lazymatch goal with
             | _ : nth_error l i = Some _ |- _ => fail
             | _ => destruct (nth_error_of_length H Hi)
             end
         end.
  assert (Hs : nth_error (map Load.in_service pp_loads) i
               = Some (Load.in_service r))
    by (rewrite nth_error_map, Hr; reflexivity).
  assert (Hp : forall f : Load.row -> Qc,
             nth_error (col_mul (map f pp_loads) (map Load.p_mw pp_loads)) i
             = Some (f r * Load.p_mw r)%Qc)
    by (intros; apply nth_error_col_mul; rewrite nth_error_map, Hr;
        reflexivity).
  assert (Hq : forall f : Load.row -> Qc,
             nth_error (col_mul (map f pp_loads) (map Load.q_mvar pp_loads)) i
             = Some (f r * Load.q_mvar r)%Qc)
    by (intros; apply nth_error_col_mul; rewrite nth_error_map, Hr;
        reflexivity).
  assert (Hlen : forall (A : Type) (f : Load.row -> A),
             length (map f pp_loads) = n)
    by (intros; apply length_map).
  eexists _, _, _. split.
  - apply generated_for_blocks;
      try (apply length_sym_load_block; auto using length_col_mul);
      apply nth_error_sym_load_block; eauto.
  - repeat split.
Qed.

(** The sum of the three records of a load row: the scaled power of the
    row and a remainder that vanishes for [scaling = 1]. *)
Lemma sym_loads_of_row_sum populated self pp_loads self' arr i r :
  _create_pgm_input_sym_loads populated self pp_loads = Ok (self', Some arr) ->
  nth_error pp_loads i = Some r ->
  let rows := generated_for (length pp_loads) i arr in
  let shares := (Load.const_i_percent r + Load.const_z_percent r)%Qc in
  Qc_sum (map SymLoad.p_specified rows)
  = (Load.p_mw r * Load.scaling r * f_1e6
     + shares * (f_1e_2 * f_1e6) * Load.scaling r
       * (Q2Qc 1 - Load.scaling r) * Load.p_mw r)%Qc
  /\ Qc_sum (map SymLoad.q_specified rows)
     = (Load.q_mvar r * Load.scaling r * f_1e6
        + shares * (f_1e_2 * f_1e6) * Load.scaling r
          * (Q2Qc 1 - Load.scaling r) * Load.q_mvar r)%Qc.
Proof.
  intros Hrun Hr rows shares.
  destruct (sym_loads_of_row Hrun Hr)
    as (cp & cz & ci & Hrows & _ & P1 & P2 & P3 & Q1 & Q2 & Q3).
  subst rows shares. rewrite Hrows.
  cbn [map Qc_sum fold_right]. rewrite P1, P2, P3, Q1, Q2, Q3.
  split; ring.
Qed.

(** With [scaling = 1] the split preserves the power of the row. *)
Lemma sym_loads_of_row_sum_unscaled populated self pp_loads self' arr i r :
  _create_pgm_input_sym_loads populated self pp_loads = Ok (self', Some arr) ->
  nth_error pp_loads i = Some r ->
  Load.scaling r = Q2Qc 1 ->
  Qc_sum (map SymLoad.p_specified (generated_for (length pp_loads) i arr))
  = (Load.p_mw r * Load.scaling r * f_1e6)%Qc
  /\ Qc_sum (map SymLoad.q_specified (generated_for (length pp_loads) i arr))
     = (Load.q_mvar r * Load.scaling r * f_1e6)%Qc.
Proof.
  intros Hrun Hr Hs.
  destruct (sym_loads_of_row_sum Hrun Hr) as [Hp Hq].
  cbv zeta in Hp, Hq. rewrite Hp, Hq, Hs. split; ring.
Qed.

(** ** Output aggregator: three-winding transformers *)

Lemma nth_error_col_scale a k i x :
  nth_error a i = Some x -> nth_error (col_scale a k) i = Some (x * k)%Qc.
Proof. intros H. unfold col_scale. now rewrite nth_error_map, H. Qed.

Lemma nth_error_col_add a b i x y :
  nth_error a i = Some x -> nth_error b i = Some y ->
  nth_error (col_add a b) i = Some (x + y)%Qc.
Proof.
  revert b i. induction a as [|x0 a IH]; intros [|y0 b] [|i]; simpl;
    try discriminate.
  - intros H1 H2. inversion H1; inversion H2; now subst.
  - apply IH.
Qed.

Lemma nth_error_field {X} (a : StructArray.t X) name col i row :
  StructArray.field a name = Ok col ->
  nth_error (StructArray.rows a) i = Some row ->
  nth_error col i = Some (row name).
Proof.
  unfold StructArray.field. destruct (existsb _ _); [|discriminate].
  intros H Hrow. inversion H; subst. now rewrite nth_error_map, Hrow.
Qed.

(** The frame built by [_pp_trafos3w_output] holds, under ["ql_mvar"], the
    scaled sum of the three active-power columns. *)
Lemma pp_trafos3w_output_ql_column arr frame :
  _pp_trafos3w_output arr = Ok frame ->
  exists p_1 p_2 p_3,
    StructArray.field arr "p_1" = Ok p_1
    /\ StructArray.field arr "p_2" = Ok p_2
    /\ StructArray.field arr "p_3" = Ok p_3
    /\ get frame "ql_mvar"
       = Some (col_scale (col_add (col_add p_1 p_2) p_3) f_1e_6).
Proof.
  unfold _pp_trafos3w_output.
  destruct (StructArray.field arr "p_1") as [p_1|]; [|discriminate].
  destruct (StructArray.field arr "q_1") as [q_1|]; [|discriminate].
  destruct (StructArray.field arr "p_2") as [p_2|]; [|discriminate].
  destruct (StructArray.field arr "q_2") as [q_2|]; [|discriminate].
  destruct (StructArray.field arr "p_3") as [p_3|]; [|discriminate].
  destruct (StructArray.field arr "q_e") as [q_e|]; [|discriminate].
  destruct (StructArray.field arr "i_1") as [i_1|]; [|discriminate].
  destruct (StructArray.field arr "i_2") as [i_2|]; [|discriminate].
  destruct (StructArray.field arr "i_3") as [i_3|]; [|discriminate].
  destruct (StructArray.field arr "loading") as [loading|]; [|discriminate].
  cbn [bind]. intros H. inversion H; subst; clear H.
  exists p_1, p_2, p_3. repeat split; reflexivity.
Qed.

(** C10.  Whenever [_pp_trafos3w_output] gets through its column
    assignments, the cell of ["ql_mvar"] in every result row is
    [(p_1 + p_2 + p_3) * 1e-6], the sum of the three active-power legs of
    that row; [q_1], [q_2] and [q_3] are not read for it. *)
Theorem trafos3w_ql_mvar_is_active_power_sum arr frame i row :
  _pp_trafos3w_output arr = Ok frame ->
  nth_error (StructArray.rows arr) i = Some row ->
  exists ql_mvar,
    get frame "ql_mvar" = Some ql_mvar
    /\ nth_error ql_mvar i
       = Some ((row "p_1" + row "p_2" + row "p_3") * f_1e_6)%Qc.
Proof.
  intros Hout Hrow.
  destruct (pp_trafos3w_output_ql_column Hout)
    as (p_1 & p_2 & p_3 & H1 & H2 & H3 & Hql).
  eexists. split; [exact Hql|].
  apply nth_error_col_scale.
  repeat apply nth_error_col_add;
    eapply nth_error_field; eassumption.
Qed.

Lemma trafos3w_ql_mvar_is_active_power_sum_witness :
  exists ql_mvar,
    get (match _pp_trafos3w_output example_trafo3w_result with
         | Ok frame => frame
         | Raise _ => []
         end) "ql_mvar" = Some ql_mvar
    /\ nth_error ql_mvar 0
       = Some ((Q2Qc 3000000 + Q2Qc (-2000000) + Q2Qc (-900000)) * f_1e_6)%Qc.
Proof.
  apply (@trafos3w_ql_mvar_is_active_power_sum example_trafo3w_result _ 0%nat
           (row_of (Q2Qc 0)
              [("p_1", Q2Qc 3000000); ("q_1", Q2Qc 400000);
               ("p_2", Q2Qc (-2000000)); ("q_2", Q2Qc (-100000));
               ("p_3", Q2Qc (-900000)); ("q_3", Q2Qc (-200000))]));
    reflexivity.
Defined.

(** ** Switch-state resolver *)

Lemma merge_left_at_most_one {A B} (on : A -> B -> bool) left right :
  (forall a, In a left -> (length (filter (on a) right) <= 1)%nat) ->
  merge_left on left right
  = map (fun a => (a, hd_error (filter (on a) right))) left.
Proof.
  induction left as [|a left IH]; intros Hone; [reflexivity|].
  change (merge_left on (a :: left) right)
    with (match filter (on a) right with
          | [] => [(a, None)]
          | bs => map (fun b => (a, Some b)) bs
          end ++ merge_left on left right).
  rewrite IH by (intros a' Ha'; apply Hone; now right).
  specialize (Hone a (or_introl eq_refl)). cbn [map].
  destruct (filter (on a) right) as [|b [|b' bs]]; simpl in *;
    try reflexivity; lia.
Qed.

Lemma filter_switches_of_type element_type pp_switches element bus :
  filter (fun sw : Z * Z * bool =>
            let '(sw_element, sw_bus, _) := sw in
            Z.eqb element sw_element && Z.eqb bus sw_bus)
         (switches_of_type element_type pp_switches)
  = map (fun sw => (Switch.element sw, Switch.bus sw, Switch.closed sw))
        (filter (switch_matches element_type element bus) pp_switches).
Proof.
  unfold switches_of_type, switch_matches.
  induction pp_switches as [|sw sws IH]; simpl; [reflexivity|].
  destruct (eqb (Switch.et sw) element_type); simpl; [|exact IH].
  destruct (Z.eqb element (Switch.element sw) && Z.eqb bus (Switch.bus sw));
    simpl; now rewrite IH.
Qed.

Lemma nth_error_mkSeries_map {A L V} (f : A -> L) (g : A -> V) l i a :
  nth_error l i = Some a ->
  nth_error (mkSeries (map g l) (map f l)) i = Some (f a, g a).
Proof.
  unfold mkSeries. revert i.
  induction l as [|a0 l IH]; intros [|i]; simpl; try discriminate.
  - intros H. now inversion H.
  - apply IH.
Qed.

Lemma filter_nil_of_all_false {A} (f : A -> bool) l :
  (forall x, In x l -> f x = false) -> filter f l = [].
Proof.
  induction l as [|x l IH]; intros H; simpl; [reflexivity|].
  rewrite (H x (or_introl eq_refl)). apply IH.
  intros y Hy. apply H. now right.
Qed.

(** One terminal of one table: with at most one matching switch row per
    device, the join returns a state per device, in table order. *)
Lemma individual_switch_states_resolved {Row} (index bus : Row -> Z)
    element_type pp_switches (component : list Row) :
  unambiguous index bus element_type pp_switches component ->
  exists states,
    get_individual_switch_states index component
      (switches_of_type element_type pp_switches) bus = Ok states
    /\ terminal_resolved index bus element_type pp_switches component states.
Proof.
  intros Hone. unfold get_individual_switch_states.
  rewrite merge_left_at_most_one.
  2:{ intros r Hr. rewrite filter_switches_of_type, length_map.
      now apply Hone. }
  rewrite map_map. cbn [snd].
  rewrite length_map, Nat.eqb_refl.
  eexists. split; [reflexivity|].
  split; [apply index_mkSeries; now rewrite !length_map|].
  intros i r Hr.
  exists (joined_state element_type pp_switches (index r) (bus r)).
  split; [|split].
  - rewrite (nth_error_mkSeries_map index _ Hr). f_equal. f_equal.
    rewrite filter_switches_of_type. unfold joined_state.
    now destruct (filter _ pp_switches).
  - intros Hnone. unfold joined_state.
    now rewrite filter_nil_of_all_false.
  - intros sw Hin Hm. unfold joined_state.
    assert (Hf : In sw (filter (switch_matches element_type (index r) (bus r))
                               pp_switches))
      by (apply filter_In; now split).
    assert (Hlen := Hone r (nth_error_In _ _ Hr)).
    destruct (filter _ pp_switches) as [|sw0 [|sw1 rest]]; simpl in *.
    + contradiction.
    + destruct Hf as [->|[]]. reflexivity.
    + lia.
Qed.

(** C5.  For the two terminals of every line and of every transformer and
    the three terminals of every three-winding transformer: when no
    terminal is matched by more than one switch row of its kind, the
    resolvers return one state per device in table order; the state is
    [true] (closed) if no switch row of the kind has the device as
    [element] and the terminal bus as [bus], and it is the [closed] flag of
    the matching row otherwise. *)
Theorem switch_states_resolved pp_data :
  let sw := pp_switch pp_data in
  unambiguous Line.index Line.from_bus "l" sw (pp_line pp_data) ->
  unambiguous Line.index Line.to_bus "l" sw (pp_line pp_data) ->
  unambiguous Trafo.index Trafo.hv_bus "t" sw (pp_trafo pp_data) ->
  unambiguous Trafo.index Trafo.lv_bus "t" sw (pp_trafo pp_data) ->
  unambiguous Trafo3w.index Trafo3w.hv_bus "t3" sw (pp_trafo3w pp_data) ->
  unambiguous Trafo3w.index Trafo3w.mv_bus "t3" sw (pp_trafo3w pp_data) ->
  unambiguous Trafo3w.index Trafo3w.lv_bus "t3" sw (pp_trafo3w pp_data) ->
  (exists s_from s_to,
     get_switch_states pp_data "line" = Ok (s_from, s_to)
     /\ terminal_resolved Line.index Line.from_bus "l" sw
          (pp_line pp_data) s_from
     /\ terminal_resolved Line.index Line.to_bus "l" sw
          (pp_line pp_data) s_to)
  /\ (exists s_hv s_lv,
        get_switch_states pp_data "trafo" = Ok (s_hv, s_lv)
        /\ terminal_resolved Trafo.index Trafo.hv_bus "t" sw
             (pp_trafo pp_data) s_hv
        /\ terminal_resolved Trafo.index Trafo.lv_bus "t" sw
             (pp_trafo pp_data) s_lv)
  /\ (exists s_hv s_mv s_lv,
        get_trafo3w_switch_states pp_data (pp_trafo3w pp_data)
        = Ok (s_hv, s_mv, s_lv)
        /\ terminal_resolved Trafo3w.index Trafo3w.hv_bus "t3" sw
             (pp_trafo3w pp_data) s_hv
        /\ terminal_resolved Trafo3w.index Trafo3w.mv_bus "t3" sw
             (pp_trafo3w pp_data) s_mv
        /\ terminal_resolved Trafo3w.index Trafo3w.lv_bus "t3" sw
             (pp_trafo3w pp_data) s_lv).
Proof.
  intros sw Hlf Hlt Hth Htl H3h H3m H3l.
  destruct (individual_switch_states_resolved Hlf) as (s1 & E1 & R1).
  destruct (individual_switch_states_resolved Hlt) as (s2 & E2 & R2).
  destruct (individual_switch_states_resolved Hth) as (s3 & E3 & R3).
  destruct (individual_switch_states_resolved Htl) as (s4 & E4 & R4).
  destruct (individual_switch_states_resolved H3h) as (s5 & E5 & R5).
  destruct (individual_switch_states_resolved H3m) as (s6 & E6 & R6).
  destruct (individual_switch_states_resolved H3l) as (s7 & E7 & R7).
  split; [|split].
  - exists s1, s2. split; [|now split].
    unfold get_switch_states. simpl eqb.
    fold sw. rewrite E1, E2. reflexivity.
  - exists s3, s4. split; [|now split].
    unfold get_switch_states. simpl eqb.
    fold sw. rewrite E3, E4. reflexivity.
  - exists s5, s6, s7.
    split; [|split; [exact R5 | split; [exact R6 | exact R7]]].
    unfold get_trafo3w_switch_states.
    fold sw. rewrite E5, E6, E7. reflexivity.
Qed.

Lemma switch_states_resolved_witness :
  (exists s_from s_to,
     get_switch_states example_pp_data "line" = Ok (s_from, s_to)
     /\ terminal_resolved Line.index Line.from_bus "l"
          (pp_switch example_pp_data) (pp_line example_pp_data) s_from
     /\ terminal_resolved Line.index Line.to_bus "l"
          (pp_switch example_pp_data) (pp_line example_pp_data) s_to)
  /\ (exists s_hv s_lv,
        get_switch_states example_pp_data "trafo" = Ok (s_hv, s_lv)
        /\ terminal_resolved Trafo.index Trafo.hv_bus "t"
             (pp_switch example_pp_data) (pp_trafo example_pp_data) s_hv
        /\ terminal_resolved Trafo.index Trafo.lv_bus "t"
             (pp_switch example_pp_data) (pp_trafo example_pp_data) s_lv)
  /\ (exists s_hv s_mv s_lv,
        get_trafo3w_switch_states example_pp_data (pp_trafo3w example_pp_data)
        = Ok (s_hv, s_mv, s_lv)
        /\ terminal_resolved Trafo3w.index Trafo3w.hv_bus "t3"
             (pp_switch example_pp_data) (pp_trafo3w example_pp_data) s_hv
        /\ terminal_resolved Trafo3w.index Trafo3w.mv_bus "t3"
             (pp_switch example_pp_data) (pp_trafo3w example_pp_data) s_mv
        /\ terminal_resolved Trafo3w.index Trafo3w.lv_bus "t3"
             (pp_switch example_pp_data) (pp_trafo3w example_pp_data) s_lv).
Proof.
  apply (@switch_states_resolved example_pp_data);
    intros r Hr; simpl in Hr;
    repeat (destruct Hr as [<-|Hr]; [vm_compute; lia|]); contradiction.
Defined.

(** The states of the example network: line 0 is open at its from-bus,
    every other line terminal is closed; the transformer is open at its
    low-voltage side, the three-winding transformer at its medium-voltage
    side. *)
Example switch_states_of_example :
  get_switch_states example_pp_data "line"
  = Ok ([(0, false); (1, true)], [(0, true); (1, true)])
  /\ get_switch_states example_pp_data "trafo"
     = Ok ([(0, true)], [(0, false)])
  /\ get_trafo3w_switch_states example_pp_data (pp_trafo3w example_pp_data)
     = Ok ([(0, true)], [(0, false)], [(0, true)]).
Proof. repeat split. Qed.

(** A second switch at the same terminal makes the join longer than the
    table, and [set_index] refuses it. *)
Example switch_states_ambiguous :
  get_individual_switch_states Line.index [Line.mk 0 10 11]
    [(0, 10, true); (0, 10, true)] Line.from_bus
  = Raise ValueError.
Proof. reflexivity. Qed.

(** ** Attribute resolver *)

Lemma get_std_value_library_value std_types attribute default cell :
  get_std_value std_types attribute default cell
  = match library_value std_types attribute default cell with
    | Some v => Ok v
    | None => Raise KeyError
    end.
Proof.
  unfold get_std_value, library_value, getitem.
  destruct cell as [x|name|b]; try reflexivity.
  destruct (get std_types name) as [std_type|]; [|reflexivity].
  cbn [bind].
  destruct (get std_type attribute); [reflexivity|].
  now destruct default.
Qed.

Lemma mapM_all_ok {A B} (f : A -> result B) (g : A -> option B) l :
  (forall x, f x = match g x with Some v => Ok v | None => Raise KeyError end) ->
  (forall x, In x l -> g x <> None) ->
  exists ys, mapM f l = Ok ys /\ map g l = map Some ys.
Proof.
  intros Hf. induction l as [|x l IH]; intros Hall.
  - exists []. now split.
  - destruct IH as (ys & Hys & Hmap); [intros y Hy; apply Hall; now right|].
    specialize (Hall x (or_introl eq_refl)).
    cbn [mapM]. rewrite Hf.
    destruct (g x) as [v|] eqn:Eg; [|congruence].
    exists (v :: ys). cbn [bind]. rewrite Hys. cbn [bind map].
    rewrite Eg, Hmap. now split.
Qed.

Lemma mapM_some_fails {A B} (f : A -> result B) (g : A -> option B) l :
  (forall x, f x = match g x with Some v => Ok v | None => Raise KeyError end) ->
  (exists x, In x l /\ g x = None) ->
  mapM f l = Raise KeyError.
Proof.
  intros Hf. induction l as [|x l IH]; intros (y & Hy & Hny).
  - contradiction.
  - cbn [mapM]. rewrite Hf.
    destruct (g x) as [v|] eqn:Eg; [|reflexivity].
    cbn [bind]. rewrite IH; [reflexivity|].
    destruct Hy as [->|Hy]; [congruence|]. now exists y.
Qed.

(** C7, as the code has it.  For a table of the source data:
    - a column of the attribute's name is returned as it is;
    - else, with a type library for the table and a [std_type] column, the
      result is the column of the per-row library values, the default
      standing in where a type lacks the attribute; the call fails with
      [KeyError] as soon as one row has no such value: its type name is not
      in the library, or the type lacks the attribute and there is no
      default;
    - else the scalar default is returned when there is one, and the call
      fails with [KeyError] when there is none. *)
Theorem get_pp_attr_resolution (_std_types : StdTypes)
    (pp_data : dict string DataFrame) (table attribute : string)
    (default : option Qc) (frame : DataFrame) :
  get pp_data table = Some frame ->
  (forall column, get frame attribute = Some column ->
     _get_pp_attr _std_types pp_data table attribute default
     = Ok (Column column))
  /\ (forall std_types names,
        get frame attribute = None ->
        get _std_types table = Some std_types ->
        get frame "std_type" = Some names ->
        ((forall cell, In cell names ->
            library_value std_types attribute default cell <> None) ->
         exists column,
           _get_pp_attr _std_types pp_data table attribute default
           = Ok (Column column)
           /\ map (library_value std_types attribute default) names
              = map Some column)
        /\ ((exists cell, In cell names
               /\ library_value std_types attribute default cell = None) ->
            _get_pp_attr _std_types pp_data table attribute default
            = Raise KeyError))
  /\ (get frame attribute = None ->
      get _std_types table = None \/ get frame "std_type" = None ->
      _get_pp_attr _std_types pp_data table attribute default
      = match default with
        | Some d => Ok (Scalar d)
        | None => Raise KeyError
        end).
Proof.
  intros Hframe. unfold _get_pp_attr, getitem. rewrite Hframe. cbn [bind].
  split; [|split].
  - intros column Hc. now rewrite Hc.
  - intros std_types names Hc Hlib Hnames. rewrite Hc, Hlib, Hnames.
    split.
    + intros Hall.
      destruct (mapM_all_ok
                  (get_std_value_library_value std_types attribute default)
                  Hall) as (ys & Hys & Hmap).
      exists ys. rewrite Hys. now split.
    + intros Hbad.
      rewrite (mapM_some_fails
                 (get_std_value_library_value std_types attribute default)
                 Hbad).
      reflexivity.
  - intros Hc [Hlib|Hnames]; rewrite Hc.
    + rewrite Hlib. now destruct default.
    + rewrite Hnames. destruct (get _std_types table); now destruct default.
Qed.

Lemma get_pp_attr_resolution_witness :
  (forall column,
     get [("length_km", [CNum (Q2Qc 1)]); ("std_type", [CStr "NAYY 4x50 SE"])]
         "r_ohm_per_km" = Some column ->
     _get_pp_attr example_std_types (example_line_frame "NAYY 4x50 SE")
       "line" "r_ohm_per_km" None
     = Ok (Column column))
  /\ (forall std_types names,
        get [("length_km", [CNum (Q2Qc 1)]); ("std_type", [CStr "NAYY 4x50 SE"])]
            "r_ohm_per_km" = None ->
        get example_std_types "line" = Some std_types ->
        get [("length_km", [CNum (Q2Qc 1)]); ("std_type", [CStr "NAYY 4x50 SE"])]
            "std_type" = Some names ->
        ((forall cell, In cell names ->
            library_value std_types "r_ohm_per_km" None cell <> None) ->
         exists column,
           _get_pp_attr example_std_types (example_line_frame "NAYY 4x50 SE")
             "line" "r_ohm_per_km" None
           = Ok (Column column)
           /\ map (library_value std_types "r_ohm_per_km" None) names
              = map Some column)
        /\ ((exists cell, In cell names
               /\ library_value std_types "r_ohm_per_km" None cell = None) ->
            _get_pp_attr example_std_types (example_line_frame "NAYY 4x50 SE")
              "line" "r_ohm_per_km" None
            = Raise KeyError))
  /\ (get [("length_km", [CNum (Q2Qc 1)]); ("std_type", [CStr "NAYY 4x50 SE"])]
          "r_ohm_per_km" = None ->
      get example_std_types "line" = None
      \/ get [("length_km", [CNum (Q2Qc 1)]); ("std_type", [CStr "NAYY 4x50 SE"])]
             "std_type" = None ->
      _get_pp_attr example_std_types (example_line_frame "NAYY 4x50 SE")
        "line" "r_ohm_per_km" None
      = Raise KeyError).
Proof.
  apply (@get_pp_attr_resolution example_std_types
           (example_line_frame "NAYY 4x50 SE") "line" "r_ohm_per_km" None
           [("length_km", [CNum (Q2Qc 1)]);
            ("std_type", [CStr "NAYY 4x50 SE"])]).
  reflexivity.
Defined.

(** The three tiers on the example data. *)
Example get_pp_attr_of_example :
  _get_pp_attr example_std_types (example_line_frame "NAYY 4x50 SE")
    "line" "length_km" None = Ok (Column [CNum (Q2Qc 1)])
  /\ _get_pp_attr example_std_types (example_line_frame "NAYY 4x50 SE")
       "line" "r_ohm_per_km" None = Ok (Column [CNum (Q2Qc (642 # 1000))])
  /\ _get_pp_attr example_std_types (example_line_frame "NAYY 4x50 SE")
       "line" "c_nf_per_km" (Some (Q2Qc 210))
     = Ok (Column [CNum (Q2Qc 210)])
  /\ _get_pp_attr [] (example_line_frame "NAYY 4x50 SE")
       "line" "df" (Some (Q2Qc 1)) = Ok (Scalar (Q2Qc 1))
  /\ _get_pp_attr [] (example_line_frame "NAYY 4x50 SE")
       "line" "df" None = Raise KeyError.
Proof. repeat split. Qed.

(** C7, as stated, fails.  The type library covers the table and the table
    has a [std_type] column, so the second tier applies; yet
    the call fails (a) for a row whose type name is not in the library,
    default or not, and (b) for a type that lacks the attribute when no
    default is given. *)
Lemma get_pp_attr_fails_in_second_case :
  mem "line" example_std_types = true
  /\ get [("length_km", [CNum (Q2Qc 1)]); ("std_type", [CStr "custom"])]
         "std_type" = Some [CStr "custom"]
  /\ _get_pp_attr example_std_types (example_line_frame "custom")
       "line" "r_ohm_per_km" (Some (Q2Qc 1)) = Raise KeyError
  /\ _get_pp_attr example_std_types (example_line_frame "NAYY 4x50 SE")
       "line" "c_nf_per_km" None = Raise KeyError.
Proof. repeat split. Qed.

(** ** Winding-type resolver *)

Lemma strip_prefix_app w s : Re.strip_prefix w (w ++ s)%string = Some s.
Proof.
  induction w as [|a w IH]; simpl; [now destruct s|].
  now rewrite Ascii.eqb_refl.
Qed.

Lemma strip_prefix_inv w : forall s s',
  Re.strip_prefix w s = Some s' -> s = (w ++ s')%string.
Proof.
  induction w as [|a w IH]; intros s s'; simpl.
  - destruct s; intros H; now inversion H.
  - destruct s as [|b s]; [discriminate|].
    destruct (Ascii.eqb_spec a b) as [->|]; [|discriminate].
    intros H. now rewrite (IH _ _ H).
Qed.

Lemma string_length_app w s :
  String.length (w ++ s)%string = (String.length w + String.length s)%nat.
Proof. induction w as [|a w IH]; simpl; [reflexivity | now rewrite IH]. Qed.

Lemma consumed_app w s : Re.consumed (w ++ s)%string s = w.
Proof.
  unfold Re.consumed. rewrite string_length_app.
  replace (String.length w + String.length s - String.length s)%nat
    with (String.length w) by lia.
  induction w as [|a w IH]; simpl; [now destruct s | now rewrite IH].
Qed.

(** A greedy run of digits up to the end of the string. *)
Lemma star_digit_at_end fuel : forall s c,
  (String.length s <= fuel)%nat ->
  Re.star_loop (Re.run Re.Digit) Re.at_end fuel s c
  = if Re.all_digits s then Some c else None.
Proof.
  induction fuel as [|fuel IH]; intros s c Hlen.
  - destruct s; simpl in *; [reflexivity | lia].
  - destruct s as [|a s]; [reflexivity|].
    cbn [Re.star_loop Re.run Re.all_digits].
    destruct (Re.is_digit a); [|reflexivity].
    replace (String.length s <? String.length (String a s))%nat with true
      by (symmetry; apply Nat.ltb_lt; simpl; lia).
    rewrite IH by (simpl in Hlen; lia).
    now destruct (Re.all_digits s).
Qed.

Lemma run_star_digit_at_end s c :
  Re.run (Re.Star Re.Digit) s c Re.at_end
  = if Re.all_digits s then Some c else None.
Proof. apply star_digit_at_end. lia. Qed.

Lemma run_lit_inv w s c k x :
  Re.run (Re.Lit w) s c k = Some x ->
  exists s', s = (w ++ s')%string /\ k s' c = Some x.
Proof.
  cbn [Re.run]. destruct (Re.strip_prefix w s) as [s'|] eqn:E; [|discriminate].
  intros H. exists s'. split; [now apply strip_prefix_inv | exact H].
Qed.

Lemma run_one_of_inv a b c d e s cs k x :
  Re.run (Re.one_of a b c d e) s cs k = Some x ->
  exists w s', In w [a; b; c; d; e] /\ s = (w ++ s')%string
               /\ k s' cs = Some x.
Proof.
  unfold Re.one_of. cbn [Re.run].
  repeat match goal with
         | |- context [match Re.strip_prefix ?w s with _ => _ end] =>
             let E := fresh "E" in
             destruct (Re.strip_prefix w s) as [?s'|] eqn:E
         end;
    repeat match goal with
           | |- context [match k ?s' cs with _ => _ end] =>
               let K := fresh "K" in destruct (k s' cs) eqn:K
           end;
    intros H; try discriminate;
    match goal with
    | E : Re.strip_prefix ?w s = Some ?s', K : k ?s' cs = Some _ |- _ =>
        solve [ exists w, s'; split; [simpl; tauto|];
                split; [now apply strip_prefix_inv | congruence] ]
    end.
Qed.

Lemma run_seq r1 r2 s c k :
  Re.run (Re.Seq r1 r2) s c k = Re.run r1 s c (fun s' c' => Re.run r2 s' c' k).
Proof. reflexivity. Qed.

Lemma run_group n r s c k :
  Re.run (Re.Group n r) s c k
  = Re.run r s c (fun s' c' => k s' (set c' n (Re.consumed s s'))).
Proof. reflexivity. Qed.

Lemma run_lit_complete w s c k :
  k s c <> None -> Re.run (Re.Lit w) (w ++ s)%string c k <> None.
Proof. intros Hk. cbn [Re.run]. now rewrite strip_prefix_app. Qed.

Lemma run_alt_complete r1 r2 s c k :
  Re.run r1 s c k <> None \/ Re.run r2 s c k <> None ->
  Re.run (Re.Alt r1 r2) s c k <> None.
Proof.
  cbn [Re.run]. destruct (Re.run r1 s c k); [discriminate | tauto].
Qed.

Lemma run_one_of_complete a b c d e w s cs k :
  In w [a; b; c; d; e] -> k s cs <> None ->
  Re.run (Re.one_of a b c d e) (w ++ s)%string cs k <> None.
Proof.
  intros Hin Hk. unfold Re.one_of.
  pose proof (@run_lit_complete w s cs k Hk) as Hlit.
  destruct Hin as [<-|[<-|[<-|[<-|[<-|[]]]]]];
    repeat first [ exact Hlit
                 | apply run_alt_complete; left; exact Hlit
                 | apply run_alt_complete; right ].
Qed.

(** What a full match of the two-winding pattern says of the string. *)
Lemma fullmatch_connection_pattern_inv s m :
  Re.fullmatch CONNECTION_PATTERN_PP s = Some m ->
  exists g1 g2 clock,
    In g1 winding1_codes /\ In g2 winding2_codes
    /\ Re.all_digits clock = true /\ s = (g1 ++ g2 ++ clock)%string
    /\ m = set (set [] 1%nat g1) 2%nat g2.
Proof.
  unfold Re.fullmatch, CONNECTION_PATTERN_PP.
  rewrite run_seq, run_group. intros H.
  apply run_one_of_inv in H. destruct H as (g1 & s1 & Hin1 & -> & H).
  cbv beta in H. rewrite consumed_app, run_seq, run_group in H.
  apply run_one_of_inv in H. destruct H as (g2 & s2 & Hin2 & -> & H).
  cbv beta in H. rewrite consumed_app, run_star_digit_at_end in H.
  destruct (Re.all_digits s2) eqn:Hd; [|discriminate].
  inversion H; subst. exists g1, g2, s2. repeat split; assumption.
Qed.

Lemma fullmatch_connection_pattern_complete g1 g2 clock :
  In g1 winding1_codes -> In g2 winding2_codes ->
  Re.all_digits clock = true ->
  Re.fullmatch CONNECTION_PATTERN_PP (g1 ++ g2 ++ clock)%string <> None.
Proof.
  intros H1 H2 Hd. unfold Re.fullmatch, CONNECTION_PATTERN_PP.
  rewrite run_seq, run_group.
  apply run_one_of_complete; [exact H1|]. cbv beta.
  rewrite run_seq, run_group.
  apply run_one_of_complete; [exact H2|]. cbv beta.
  rewrite run_star_digit_at_end, Hd. discriminate.
Qed.

Lemma get_winding_of_code g :
  In g winding1_codes \/ In g winding2_codes ->
  exists w, get_winding g = Ok w.
Proof.
  unfold winding1_codes, winding2_codes. cbn [In].
  intros H.
  repeat match goal with H : _ \/ _ |- _ => destruct H as [H|H] end;
    try contradiction; subst; eexists; reflexivity.
Qed.

Lemma vector_group_to_winding_types_inv s w1 w2 :
  vector_group_to_winding_types s = Ok (w1, w2) ->
  exists g1 g2 clock,
    In g1 winding1_codes /\ In g2 winding2_codes
    /\ Re.all_digits clock = true /\ s = (g1 ++ g2 ++ clock)%string
    /\ get_winding g1 = Ok w1 /\ get_winding g2 = Ok w2.
Proof.
  unfold vector_group_to_winding_types.
  destruct (Re.fullmatch CONNECTION_PATTERN_PP s) as [m|] eqn:Hm;
    [|discriminate].
  apply fullmatch_connection_pattern_inv in Hm.
  destruct Hm as (g1 & g2 & clock & H1 & H2 & Hd & -> & ->).
  change (Re.group (set (set [] 1%nat g1) 2%nat g2) 1) with g1.
  change (Re.group (set (set [] 1%nat g1) 2%nat g2) 2) with g2.
  destruct (get_winding g1) as [a|] eqn:Ea; [|discriminate].
  destruct (get_winding g2) as [b|] eqn:Eb; [|discriminate].
  cbn [bind]. intros H. inversion H; subst.
  exists g1, g2, clock. repeat split; assumption.
Qed.

(** The grammar splits a string in one way only. *)
Lemma two_winding_code_unique g1 g2 clock g1' g2' clock' :
  In g1 winding1_codes -> In g2 winding2_codes ->
  Re.all_digits clock = true ->
  In g1' winding1_codes -> In g2' winding2_codes ->
  Re.all_digits clock' = true ->
  (g1 ++ g2 ++ clock)%string = (g1' ++ g2' ++ clock')%string ->
  g1 = g1' /\ g2 = g2'.
Proof.
  unfold winding1_codes, winding2_codes. cbn [In].
  intros H1 H2 Hd H1' H2' Hd' He.
  repeat match goal with H : _ \/ _ |- _ => destruct H as [H|H] end;
    try contradiction; subst; cbn in He;
    try (injection He as He); subst; cbn in Hd, Hd';
    solve [ split; reflexivity | discriminate ].
Qed.

(** C8.  [vector_group_to_winding_types] returns a pair of windings
    exactly for the strings of the grammar
    [{Y,YN,D,Z,ZN}{y,yn,d,z,zn}<digits>*]: for every string of the grammar
    it returns the windings of its two codes, every string it accepts is
    of the grammar, and it raises [ValueError] for every other string;
    ["Dyn11"] gives (delta, star with neutral). *)
Theorem vector_group_parses_iff_two_winding_code :
  (forall g1 g2 clock,
     In g1 winding1_codes -> In g2 winding2_codes ->
     Re.all_digits clock = true ->
     exists w1 w2,
       get_winding g1 = Ok w1 /\ get_winding g2 = Ok w2
       /\ vector_group_to_winding_types (g1 ++ g2 ++ clock)%string
          = Ok (w1, w2))
  /\ (forall s w1 w2,
        vector_group_to_winding_types s = Ok (w1, w2) ->
        exists g1 g2 clock,
          In g1 winding1_codes /\ In g2 winding2_codes
          /\ Re.all_digits clock = true /\ s = (g1 ++ g2 ++ clock)%string
          /\ get_winding g1 = Ok w1 /\ get_winding g2 = Ok w2)
  /\ (forall s, ~ two_winding_code s ->
        vector_group_to_winding_types s = Raise ValueError)
  /\ vector_group_to_winding_types "Dyn11" = Ok (delta, star_n).
Proof.
  split; [|split; [|split]].
  - intros g1 g2 clock H1 H2 Hd.
    pose proof (fullmatch_connection_pattern_complete H1 H2 Hd) as Hc.
    unfold vector_group_to_winding_types.
    destruct (Re.fullmatch CONNECTION_PATTERN_PP _) as [m|] eqn:Hm;
      [|congruence].
    apply fullmatch_connection_pattern_inv in Hm.
    destruct Hm as (g1' & g2' & clock' & H1' & H2' & Hd' & Hs & ->).
    destruct (two_winding_code_unique H1 H2 Hd H1' H2' Hd' Hs) as [<- <-].
    change (Re.group (set (set [] 1%nat g1) 2%nat g2) 1) with g1.
    change (Re.group (set (set [] 1%nat g1) 2%nat g2) 2) with g2.
    destruct (@get_winding_of_code g1 (or_introl H1)) as [a Ha].
    destruct (@get_winding_of_code g2 (or_intror H2)) as [b Hb].
    exists a, b. rewrite Ha, Hb. now repeat split.
  - apply vector_group_to_winding_types_inv.
  - intros s Hnot. unfold vector_group_to_winding_types.
    destruct (Re.fullmatch CONNECTION_PATTERN_PP s) as [m|] eqn:Hm;
      [|reflexivity].
    exfalso. apply Hnot.
    apply fullmatch_connection_pattern_inv in Hm.
    destruct Hm as (g1 & g2 & clock & H1 & H2 & Hd & Hs & _).
    now exists g1, g2, clock.
  - reflexivity.
Qed.

(** ** Output aggregator: power accumulated per bus *)

Lemma in_insert_sorted k l x : In x (insert_sorted k l) <-> x = k \/ In x l.
Proof.
  induction l as [|y l IH]; simpl; [intuition|].
  destruct (Z.ltb_spec k y); [simpl; intuition|].
  destruct (Z.eqb_spec k y); [subst; simpl; intuition|].
  simpl. rewrite IH. intuition.
Qed.

Lemma insert_sorted_sorted k l :
  StronglySorted Z.lt l -> StronglySorted Z.lt (insert_sorted k l).
Proof.
  induction 1 as [|y l Hs IH Hall]; simpl; [repeat constructor|].
  destruct (Z.ltb_spec k y).
  - constructor; [now constructor|].
    constructor; [assumption|].
    eapply Forall_impl; [|exact Hall]. intros; lia.
  - destruct (Z.eqb_spec k y); [now constructor|].
    constructor; [assumption|].
    apply Forall_forall. intros x Hx. apply in_insert_sorted in Hx.
    destruct Hx as [->|Hx]; [lia|].
    rewrite Forall_forall in Hall. now apply Hall.
Qed.

Lemma sorted_unique_sorted ks : StronglySorted Z.lt (sorted_unique ks).
Proof.
  induction ks as [|k ks IH]; simpl; [constructor|].
  now apply insert_sorted_sorted.
Qed.

Lemma in_sorted_unique ks x : In x (sorted_unique ks) <-> In x ks.
Proof.
  induction ks as [|k ks IH]; simpl; [tauto|].
  rewrite in_insert_sorted, IH. intuition.
Qed.

Lemma get_some_in {V} (s : Series Z V) k v : get s k = Some v -> In (k, v) s.
Proof.
  induction s as [|[k0 v0] s IH]; simpl; [discriminate|].
  destruct (eq_dec k k0) as [->|].
  - intros H. inversion H. now left.
  - intros H. right. now apply IH.
Qed.

Lemma get_none_not_in {V} (s : Series Z V) k :
  get s k = None -> ~ In k (index s).
Proof.
  unfold index. induction s as [|[k0 v0] s IH]; simpl; [tauto|].
  destruct (eq_dec k k0) as [->|]; [discriminate|].
  intros H [Heq|Hin]; [congruence | now apply IH].
Qed.

Lemma rows_at_get {V} (s : Series Z V) k :
  NoDup (index s) ->
  rows_at s k = match get s k with Some v => [v] | None => [] end.
Proof.
  intros Hnd. destruct (get s k) as [v|] eqn:E.
  - apply rows_at_unique; [assumption | now apply get_some_in].
  - apply rows_at_absent. now apply get_none_not_in.
Qed.

Lemma loc_lookup_all {V} (s : Series Z V) ks :
  NoDup (index s) -> loc s ks = lookup_all s ks.
Proof.
  intros Hnd. unfold loc, lookup_all.
  induction ks as [|k ks IH]; [reflexivity|].
  cbn [mapM]. rewrite rows_at_get by assumption.
  destruct (get s k) as [v|]; [|reflexivity].
  cbn [bind] in *.
  destruct (mapM _ ks) as [vss|e]; destruct (mapM _ ks) as [vs|e'];
    cbn [bind] in *; try congruence.
  inversion IH. reflexivity.
Qed.

Lemma lookup_all_index {V} (s : Series Z V) :
  NoDup (index s) -> lookup_all s (index s) = Ok (values s).
Proof.
  intros Hnd. rewrite <- loc_lookup_all by assumption. now apply loc_index.
Qed.

Lemma get_pp_ids_bus self s ks :
  get (idx_lookup self) (KTuple "bus" None) = Some s ->
  NoDup (index s) ->
  _get_pp_ids self "bus" ks None = lookup_all s ks.
Proof.
  intros Hs Hnd. unfold _get_pp_ids. rewrite Hs.
  unfold index_equals. destruct (list_eq_dec Z.eq_dec (index s) ks) as [<-|].
  - now rewrite lookup_all_index.
  - now apply loc_lookup_all.
Qed.

Lemma lookup_all_inv {V} (s : Series Z V) ks labels :
  lookup_all s ks = Ok labels -> map (get s) ks = map Some labels.
Proof.
  unfold lookup_all. revert labels.
  induction ks as [|k ks IH]; intros labels; cbn [mapM].
  - intros H. now inversion H.
  - destruct (get s k) as [v|] eqn:E; [|discriminate]. cbn [bind].
    destruct (mapM _ ks) as [vs|e]; [|discriminate]. cbn [bind].
    intros H. inversion H; subst. cbn [map]. rewrite E. f_equal. now apply IH.
Qed.

Lemma lookup_all_total {V} (s : Series Z V) ks :
  (forall k, In k ks -> get s k <> None) ->
  exists labels, lookup_all s ks = Ok labels.
Proof.
  intros Hall.
  destruct (@mapM_all_ok _ _ (fun k => match get s k with
                                       | Some v => Ok v
                                       | None => Raise KeyError
                                       end) (get s) ks (fun _ => eq_refl) Hall)
    as (ys & Hys & _).
  now exists ys.
Qed.

Lemma series_values_injective (s : Series Z Z) k1 k2 b :
  NoDup (values s) -> get s k1 = Some b -> get s k2 = Some b -> k1 = k2.
Proof.
  intros Hnd H1 H2. apply get_some_in in H1, H2. unfold values in Hnd.
  induction s as [|[k0 v0] s IH]; [contradiction|].
  cbn [map snd] in Hnd. inversion Hnd as [|? ? Hnotin Hnd']; subst.
  destruct H1 as [E1|H1], H2 as [E2|H2].
  - congruence.
  - inversion E1; subst. exfalso. apply Hnotin.
    change b with (snd (k2, b)). now apply in_map.
  - inversion E2; subst. exfalso. apply Hnotin.
    change b with (snd (k1, b)). now apply in_map.
  - now apply IH.
Qed.

(** Looking a label up in a relabelled series is finding the first key that
    carries the label. *)
Lemma get_relabelled {V} (g : Z -> option Z) (F : Z -> V) bus keys :
  forall labels, map g keys = map Some labels ->
  get (mkSeries (map F keys) labels) bus
  = option_map F (find (fun k => match g k with
                                 | Some b => Z.eqb b bus
                                 | None => false
                                 end) keys).
Proof.
  unfold mkSeries.
  induction keys as [|k keys IH]; intros [|l labels] Hmap; try discriminate;
    [reflexivity|].
  cbn [map] in Hmap. inversion Hmap as [[Hk Hrest]].
  cbn [map combine get find]. rewrite Hk.
  destruct (eq_dec bus l) as [->|Hne].
  - now rewrite Z.eqb_refl.
  - replace (Z.eqb l bus) with false
      by (symmetry; apply Z.eqb_neq; congruence).
    now apply IH.
Qed.

Lemma index_groupby_sum rows :
  index (groupby_sum rows) = sorted_unique (map fst rows).
Proof. unfold index, groupby_sum. rewrite map_map. apply map_id. Qed.

Lemma length_groupby_sum rows :
  length (groupby_sum rows) = length (sorted_unique (map fst rows)).
Proof. unfold groupby_sum. apply length_map. Qed.

Section OneSide.
Variables (self : Registry) (s : Series Z Z).
Hypothesis Hgroup : get (idx_lookup self) (KTuple "bus" None) = Some s.
Hypothesis Hindex : NoDup (index s).
Hypothesis Hvalues : NoDup (values s).

Lemma bus_of_node_get node : bus_of_node self node = get s node.
Proof. unfold bus_of_node. now rewrite Hgroup. Qed.

(** What a relabelled group holds under a bus label: the powers of the
    rows whose node is that bus. *)
Lemma get_accumulated rows labels bus :
  map (get s) (sorted_unique (map fst rows)) = map Some labels ->
  match get (mkSeries (values (groupby_sum rows)) labels) bus with
  | Some pq => pq
  | None => (Q2Qc 0, Q2Qc 0)
  end
  = (power_at self fst bus rows, power_at self snd bus rows).
Proof.
  intros Hmap. unfold values, groupby_sum. rewrite map_map. cbn [snd].
  rewrite (get_relabelled _ bus Hmap).
  unfold power_at.
  destruct (find _ (sorted_unique (map fst rows))) as [k|] eqn:Ef; cbn [option_map].
  - apply find_some in Ef. destruct Ef as [_ Hk].
    destruct (get s k) as [b|] eqn:Ek; [|discriminate].
    apply Z.eqb_eq in Hk. subst b.
    assert (Hfilter : filter (fun r : Z * (Qc * Qc) => Z.eqb (fst r) k) rows
                      = filter (fun r => match bus_of_node self (fst r) with
                                         | Some b => Z.eqb b bus
                                         | None => false
                                         end) rows).
    { apply filter_ext. intros r. rewrite bus_of_node_get.
      destruct (Z.eqb_spec (fst r) k) as [->|Hne].
      - rewrite Ek. symmetry. apply Z.eqb_refl.
      - destruct (get s (fst r)) as [b|] eqn:Er; [|reflexivity].
        destruct (Z.eqb_spec b bus) as [->|]; [|reflexivity].
        exfalso. apply Hne.
        exact (series_values_injective Hvalues Er Ek). }
    now rewrite Hfilter.
  - assert (Hfilter : filter (fun r => match bus_of_node self (fst r) with
                                       | Some b => Z.eqb b bus
                                       | None => false
                                       end) rows = []).
    { apply filter_nil_of_all_false. intros r Hr. rewrite bus_of_node_get.
      apply (find_none _ _ Ef (fst r)).
      apply in_sorted_unique. now apply in_map. }
    now rewrite Hfilter.
Qed.

Lemma accumulated_side_data_inv input output side acc :
  accumulated_side_data self input output side = Ok acc ->
  exists labels,
    map (get s) (sorted_unique (map fst (side_rows input output side)))
    = map Some labels
    /\ acc = mkSeries (values (groupby_sum (side_rows input output side)))
                      labels.
Proof.
  destruct side as [[node_col p_col] q_col].
  unfold accumulated_side_data, side_rows.
  destruct (StructArray.field input node_col) as [nodes|]; [|discriminate].
  destruct (StructArray.field output p_col) as [p|]; [|discriminate].
  destruct (StructArray.field output q_col) as [q|]; [|discriminate].
  cbn [bind].
  rewrite (get_pp_ids_bus _ Hgroup Hindex), index_groupby_sum.
  destruct (lookup_all s _) as [labels|] eqn:El; [|discriminate].
  cbn [bind]. unfold assign_rows.
  destruct (Nat.eqb _ _); [|discriminate].
  cbn [bind]. intros H. inversion H; subst.
  exists labels. split; [now apply lookup_all_inv | reflexivity].
Qed.

Lemma in_index_of_get {V} (acc : Series Z V) l v :
  get acc l = Some v -> In l (index acc).
Proof.
  intros H. apply get_some_in in H. unfold index.
  change l with (fst (l, v)). now apply in_map.
Qed.

(** One side: the rows of the bus frame get the powers of the side added,
    bus by bus. *)
Lemma accumulate_side_adds input output buses side :
  accumulate_side self input output buses side
  = match accumulated_side_data self input output side with
    | Ok _ =>
        Ok (add_power
              (fun bus => power_at self fst bus (side_rows input output side))
              (fun bus => power_at self snd bus (side_rows input output side))
              buses)
    | Raise e => Raise e
    end.
Proof.
  unfold accumulate_side.
  destruct (accumulated_side_data self input output side) as [acc|e] eqn:Eacc;
    [|reflexivity].
  cbn [bind]. f_equal.
  apply accumulated_side_data_inv in Eacc.
  destruct Eacc as (labels & Hmap & ->).
  unfold add_at_labels, add_power. apply map_ext_in. intros b Hb.
  pose proof (@get_accumulated (side_rows input output side) labels
                (BusOut.index b) Hmap) as Hget.
  set (acc := mkSeries _ labels) in *.
  destruct (get acc (BusOut.index b)) as [[p q]|] eqn:Eg.
  - inversion Hget as [[Hp Hq]].
    replace (existsb _ _) with true; [reflexivity|].
    symmetry. apply existsb_exists. exists (BusOut.index b).
    split; [|apply Z.eqb_refl].
    apply filter_In. split; [now apply in_map|].
    apply existsb_exists. exists (BusOut.index b).
    split; [now apply in_index_of_get in Eg | apply Z.eqb_refl].
  - inversion Hget as [[Hp Hq]].
    destruct b as [i p q]. cbn [BusOut.index BusOut.p_mw BusOut.q_mvar].
    rewrite !Qcplus_0_r. now destruct (existsb _ _).
Qed.


Lemma Qc_sum_cons x l : Qc_sum (x :: l) = (x + Qc_sum l)%Qc.
Proof. reflexivity. Qed.

Lemma add_power_ext f g f' g' buses :
  (forall bus, f bus = f' bus) -> (forall bus, g bus = g' bus) ->
  add_power f g buses = add_power f' g' buses.
Proof.
  intros Hf Hg. unfold add_power. apply map_ext. intros b.
  now rewrite Hf, Hg.
Qed.

Lemma add_power_add_power f1 g1 f2 g2 buses :
  add_power f2 g2 (add_power f1 g1 buses)
  = add_power (fun bus => f1 bus + f2 bus)%Qc (fun bus => g1 bus + g2 bus)%Qc
              buses.
Proof.
  unfold add_power. rewrite map_map. apply map_ext. intros b.
  cbn [BusOut.index BusOut.p_mw BusOut.q_mvar]. f_equal; ring.
Qed.

Lemma add_power_zero buses :
  add_power (fun _ => Q2Qc 0) (fun _ => Q2Qc 0) buses = buses.
Proof.
  unfold add_power. rewrite <- (map_id buses) at 2. apply map_ext.
  intros [i p q]. cbn [BusOut.index BusOut.p_mw BusOut.q_mvar].
  now rewrite !Qcplus_0_r.
Qed.

(** All sides of one component. *)
Lemma accumulate_sides_adds input output sides : forall buses,
  accumulate_sides self input output buses sides
  = match mapM (accumulated_side_data self input output) sides with
    | Ok _ =>
        Ok (add_power
              (fun bus => Qc_sum (map (fun side =>
                 power_at self fst bus (side_rows input output side)) sides))
              (fun bus => Qc_sum (map (fun side =>
                 power_at self snd bus (side_rows input output side)) sides))
              buses)
    | Raise e => Raise e
    end.
Proof.
  induction sides as [|side sides IH]; intros buses.
  - cbn [accumulate_sides mapM map Qc_sum fold_right].
    now rewrite add_power_zero.
  - cbn [accumulate_sides mapM]. rewrite accumulate_side_adds.
    destruct (accumulated_side_data self input output side) as [acc|e];
      [|reflexivity].
    cbn [bind]. rewrite IH.
    destruct (mapM _ sides) as [accs|e]; [|reflexivity].
    cbn [bind]. f_equal. rewrite add_power_add_power.
    apply add_power_ext; intros bus; reflexivity.
Qed.

Section Components.
Variables (pgm_data : dict string (StructArray.t Z))
          (pgm_output_data : dict string (StructArray.t Qc)).

Lemma family_power_at_absent pick bus component sides :
  present pgm_output_data component = None ->
  family_power_at self pgm_data pgm_output_data pick bus (component, sides)
  = Q2Qc 0.
Proof. intros Hp. unfold family_power_at. cbn [fst]. now rewrite Hp. Qed.

Lemma family_power_at_present pick bus component sides output input :
  present pgm_output_data component = Some output ->
  get pgm_data component = Some input ->
  family_power_at self pgm_data pgm_output_data pick bus (component, sides)
  = Qc_sum (map (fun side => power_at self pick bus
                               (side_rows input output side)) sides).
Proof.
  intros Hp Hi. unfold family_power_at. cbn [fst snd]. now rewrite Hp, Hi.
Qed.

(** The loop over the components: whether it completes does not depend on
    the bus frame, and when it does, every family that is present has added
    its power. *)
Lemma accumulate_components_adds items : forall buses,
  accumulate_components self pgm_data pgm_output_data buses items
  = match accumulate_components self pgm_data pgm_output_data [] items with
    | Ok _ =>
        Ok (add_power
              (fun bus => Qc_sum (map (family_power_at self pgm_data
                                         pgm_output_data fst bus) items))
              (fun bus => Qc_sum (map (family_power_at self pgm_data
                                         pgm_output_data snd bus) items))
              buses)
    | Raise e => Raise e
    end.
Proof.
  induction items as [|[component sides] items IH]; intros buses.
  - cbn [accumulate_components map Qc_sum fold_right].
    now rewrite add_power_zero.
  - cbn [accumulate_components].
    assert (Hskip : present pgm_output_data component = None ->
      match accumulate_components self pgm_data pgm_output_data [] items with
      | Ok _ =>
          Ok (add_power
                (fun bus => Qc_sum (map (family_power_at self pgm_data
                                           pgm_output_data fst bus) items))
                (fun bus => Qc_sum (map (family_power_at self pgm_data
                                           pgm_output_data snd bus) items))
                buses)
      | Raise e => Raise e
      end
      = match accumulate_components self pgm_data pgm_output_data [] items with
        | Ok _ =>
            Ok (add_power
                  (fun bus => Qc_sum (map (family_power_at self pgm_data
                     pgm_output_data fst bus) ((component, sides) :: items)))
                  (fun bus => Qc_sum (map (family_power_at self pgm_data
                     pgm_output_data snd bus) ((component, sides) :: items)))
                  buses)
        | Raise e => Raise e
        end).
    { intros Hp.
      destruct (accumulate_components self pgm_data pgm_output_data [] items);
        [|reflexivity].
      f_equal. apply add_power_ext; intros bus;
        cbn [map]; rewrite Qc_sum_cons;
        rewrite (family_power_at_absent _ _ sides Hp); ring. }
    unfold present in Hskip.
    destruct (get pgm_output_data component) as [output|] eqn:Eout.
    2:{ rewrite IH. now apply Hskip. }
    destruct (Nat.eqb (StructArray.size output) 0) eqn:Esize.
    { rewrite IH. now apply Hskip. }
    clear Hskip.
    destruct (get pgm_data component) as [input|] eqn:Ein; [|reflexivity].
    rewrite !accumulate_sides_adds.
    destruct (mapM _ sides) as [accs|e]; [|reflexivity].
    cbn [bind]. rewrite IH. cbn [add_power map].
    destruct (accumulate_components self pgm_data pgm_output_data [] items);
      [|reflexivity].
    f_equal. rewrite add_power_add_power.
    assert (Hp : present pgm_output_data component = Some output)
      by (unfold present; now rewrite Eout, Esize).
    apply add_power_ext; intros bus;
      cbn [map]; rewrite Qc_sum_cons;
      rewrite (family_power_at_present _ _ sides Hp Ein); reflexivity.
Qed.

Lemma div_1e6 x : (x / f_1e6 = x * f_1e_6)%Qc.
Proof.
  unfold Qcdiv. replace (/ f_1e6)%Qc with f_1e_6; [reflexivity|].
  apply Qc_is_canon. reflexivity.
Qed.

(** The whole accumulation, in closed form. *)
Lemma accumulate_power_over_totals items buses :
  accumulate_power_over items self pgm_data pgm_output_data buses
  = match accumulate_components self pgm_data pgm_output_data [] items with
    | Ok _ => Ok (buses_with_totals self pgm_data pgm_output_data items buses)
    | Raise e => Raise e
    end.
Proof.
  unfold accumulate_power_over. rewrite accumulate_components_adds.
  destruct (accumulate_components self pgm_data pgm_output_data [] items);
    [|reflexivity].
  cbn [bind]. f_equal. unfold add_power, buses_with_totals, bus_total.
  rewrite !map_map. apply map_ext. intros b.
  cbn [BusOut.index BusOut.p_mw BusOut.q_mvar].
  rewrite !div_1e6. f_equal; ring.
Qed.


(** *** When the accumulation completes *)

Lemma side_ready_ok input output side :
  side_ready self input output side = true ->
  exists acc, accumulated_side_data self input output side = Ok acc.
Proof.
  destruct side as [[node_col p_col] q_col].
  unfold side_ready, accumulated_side_data, side_rows.
  destruct (StructArray.field input node_col) as [nodes|];
    [|discriminate].
  destruct (StructArray.field output p_col) as [p|]; [|discriminate].
  destruct (StructArray.field output q_col) as [q|]; [|discriminate].
  cbn [is_ok andb bind]. intros Hall.
  rewrite (get_pp_ids_bus _ Hgroup Hindex), index_groupby_sum.
  set (rows := combine nodes (combine p q)) in *.
  destruct (@lookup_all_total _ s (sorted_unique (map fst rows)))
    as [labels Hl].
  { intros k Hk. apply in_sorted_unique, in_map_iff in Hk.
    destruct Hk as (r & <- & Hr).
    rewrite forallb_forall in Hall. specialize (Hall r Hr).
    rewrite bus_of_node_get in Hall.
    destruct (get s (fst r)); congruence. }
  rewrite Hl. cbn [bind]. unfold assign_rows.
  assert (Hlen : length labels = length (groupby_sum rows)).
  { apply lookup_all_inv in Hl. rewrite length_groupby_sum.
    apply (f_equal (@length _)) in Hl. rewrite !length_map in Hl.
    congruence. }
  rewrite Hlen, Nat.eqb_refl. cbn [bind]. eexists; reflexivity.
Qed.

Lemma sides_ready_ok input output sides :
  forallb (side_ready self input output) sides = true ->
  exists accs, mapM (accumulated_side_data self input output) sides = Ok accs.
Proof.
  induction sides as [|side sides IH]; cbn [forallb mapM]; intros H.
  - now exists [].
  - apply andb_prop in H. destruct H as [Hside Hrest].
    destruct (side_ready_ok Hside) as [acc ->].
    destruct (IH Hrest) as [accs ->].
    cbn [bind]. eexists; reflexivity.
Qed.

Lemma components_ready_ok items :
  components_ready self pgm_data pgm_output_data items = true ->
  accumulate_components self pgm_data pgm_output_data [] items = Ok [].
Proof.
  induction items as [|[component sides] items IH]; [reflexivity|].
  unfold components_ready. cbn [forallb fst snd]. intros H.
  apply andb_prop in H. destruct H as [Hitem Hrest].
  specialize (IH Hrest). cbn [accumulate_components].
  unfold present in Hitem.
  destruct (get pgm_output_data component) as [output|]; [|exact IH].
  destruct (Nat.eqb (StructArray.size output) 0); [exact IH|].
  destruct (get pgm_data component) as [input|]; [|discriminate].
  rewrite accumulate_sides_adds.
  destruct (sides_ready_ok Hitem) as [accs ->].
  cbn [bind add_power map]. exact IH.
Qed.

(** *** Any order of the families, the sums being exact *)

Lemma accumulate_components_nil_cons item items :
  accumulate_components self pgm_data pgm_output_data [] (item :: items)
  = match accumulate_components self pgm_data pgm_output_data [] [item] with
    | Ok _ => accumulate_components self pgm_data pgm_output_data [] items
    | Raise e => Raise e
    end.
Proof.
  destruct item as [component sides]. cbn [accumulate_components].
  destruct (get pgm_output_data component) as [output|]; [|reflexivity].
  destruct (Nat.eqb (StructArray.size output) 0); [reflexivity|].
  destruct (get pgm_data component) as [input|]; [|reflexivity].
  rewrite !accumulate_sides_adds.
  now destruct (mapM _ sides).
Qed.

Lemma is_ok_accumulate_components items :
  is_ok (accumulate_components self pgm_data pgm_output_data [] items)
  = forallb (fun item =>
               is_ok (accumulate_components self pgm_data pgm_output_data []
                        [item])) items.
Proof.
  induction items as [|item items IH]; [reflexivity|].
  rewrite accumulate_components_nil_cons. cbn [forallb].
  now destruct (accumulate_components self pgm_data pgm_output_data [] [item]).
Qed.

Lemma forallb_Permutation {A} (f : A -> bool) l l' :
  Permutation l l' -> forallb f l = forallb f l'.
Proof.
  induction 1; cbn [forallb]; try congruence.
  now destruct (f x), (f y).
Qed.

Lemma Qc_sum_Permutation l l' : Permutation l l' -> Qc_sum l = Qc_sum l'.
Proof.
  induction 1; rewrite ?Qc_sum_cons; try congruence.
  ring.
Qed.

Lemma buses_with_totals_Permutation items items' buses :
  Permutation items items' ->
  buses_with_totals self pgm_data pgm_output_data items buses
  = buses_with_totals self pgm_data pgm_output_data items' buses.
Proof.
  intros Hp. unfold buses_with_totals, bus_total. apply map_ext. intros b.
  f_equal; f_equal; apply Qc_sum_Permutation; now apply Permutation_map.
Qed.

(** With exact sums, processing the families in another order gives the
    same frame.  The float64 sums of the source depend on the order
    ([accumulate_power_over_f64]). *)
Lemma accumulate_power_over_Permutation items items' buses r :
  Permutation items items' ->
  accumulate_power_over items self pgm_data pgm_output_data buses = Ok r ->
  accumulate_power_over items' self pgm_data pgm_output_data buses = Ok r.
Proof.
  intros Hp. rewrite !accumulate_power_over_totals.
  pose proof (is_ok_accumulate_components items) as H1.
  pose proof (is_ok_accumulate_components items') as H2.
  rewrite (forallb_Permutation _ Hp) in H1. rewrite <- H2 in H1.
  destruct (accumulate_components self pgm_data pgm_output_data [] items);
    destruct (accumulate_components self pgm_data pgm_output_data [] items');
    cbn [is_ok] in H1; try discriminate.
  intros H. inversion H; subst. f_equal. symmetry.
  now apply buses_with_totals_Permutation.
Qed.

End Components.
End OneSide.

(** *** The named totals and the table of the code *)

Lemma present_result_rows pgm_output_data component :
  present pgm_output_data component = result_rows pgm_output_data component.
Proof.
  unfold present, result_rows, StructArray.size.
  destruct (get pgm_output_data component) as [output|]; [|reflexivity].
  now destruct (StructArray.rows output).
Qed.

Lemma field_has_field {X} (a : StructArray.t X) name :
  StructArray.field a name
  = if has_field a name then Ok (column a name) else Raise ValueError.
Proof.
  unfold StructArray.field, has_field, column.
  destruct (in_dec string_dec name (StructArray.fields a)) as [Hin|Hn].
  - assert (E : existsb (eqb name) (StructArray.fields a) = true).
    { apply existsb_exists. exists name. split; [exact Hin | apply eqb_refl]. }
    now rewrite E.
  - destruct (existsb (eqb name) (StructArray.fields a)) eqn:E; [|reflexivity].
    exfalso. apply Hn. apply existsb_exists in E. destruct E as (x & Hx & E).
    apply eqb_true_iff in E. now subst.
Qed.

Lemma side_ready_terminal_ready self input output terminal :
  side_ready self input output terminal
  = terminal_ready self input output terminal.
Proof.
  destruct terminal as [[node_col p_col] q_col].
  unfold side_ready, terminal_ready, side_rows, terminal_rows.
  rewrite !field_has_field.
  destruct (has_field input node_col), (has_field output p_col),
    (has_field output q_col); reflexivity.
Qed.


Lemma components_ready_named self pgm_data pgm_output_data :
  components_ready self pgm_data pgm_output_data component_sides
  = named_families_ready self pgm_data pgm_output_data.
Proof.
  unfold components_ready, component_sides, named_families_ready,
    family_ready.
  cbn [forallb fst snd]. rewrite !present_result_rows.
  rewrite andb_true_r, !andb_assoc.
  repeat match goal with
         | |- context [match result_rows pgm_output_data ?c with _ => _ end] =>
             destruct (result_rows pgm_output_data c)
         end;
    repeat match goal with
           | |- context [match get pgm_data ?c with _ => _ end] =>
               destruct (get pgm_data c)
           end;
    cbn [forallb]; rewrite ?side_ready_terminal_ready; reflexivity.
Qed.







(** The totals of the example: bus 10 receives 1.5 MW and 0.3 MVAr from
    the line and the link, bus 11 receives -1.49 MW and -0.29 MVAr; the
    transformer array is empty and the three-winding transformers are
    absent. *)
Example bus_power_totals_of_example :
  exists b10 b11,
    _pp_buses_output__accumulate_power example_bus_registry example_pgm_data
      example_pgm_output_data example_pp_output_buses = Ok [b10; b11]
    /\ (BusOut.index b10, BusOut.index b11) = (10, 11)
    /\ BusOut.p_mw b10 = Q2Qc (3 # 2) /\ BusOut.q_mvar b10 = Q2Qc (3 # 10)
    /\ BusOut.p_mw b11 = Q2Qc (-149 # 100)
    /\ BusOut.q_mvar b11 = Q2Qc (-29 # 100).
Proof.
  eexists _, _. split; [vm_compute; reflexivity|].
  split; [reflexivity|].
  repeat split; apply Qc_is_canon; reflexivity.
Qed.

(** ** The registry across a pass *)

Lemma set_fresh {K V} `{EqDec K} (d : dict K V) k v :
  mem k d = false -> set d k v = d ++ [(k, v)].
Proof.
  unfold mem. induction d as [|[k' v'] d IH]; simpl; [reflexivity|].
  destruct (eq_dec k k'); [discriminate|].
  intros Hm. now rewrite IH.
Qed.

Lemma get_app {K V} `{EqDec K} (d1 d2 : dict K V) k :
  get (d1 ++ d2) k = match get d1 k with Some v => Some v | None => get d2 k end.
Proof.
  induction d1 as [|[k' v'] d1 IH]; simpl; [reflexivity|].
  destruct (eq_dec k k'); [reflexivity | exact IH].
Qed.

Lemma generate_ids_inv self pp_table pp_idx name self' ids :
  _generate_ids self pp_table pp_idx name = Ok (self', ids) ->
  mem (KTuple pp_table name) (idx_lookup self) = false
  /\ ids = arange_int32 (next_idx self)
             (next_idx self + Z.of_nat (length pp_idx))
  /\ idx self' = set (idx self) (KTuple pp_table name) (mkSeries ids pp_idx)
  /\ idx_lookup self' =
       set (idx_lookup self) (KTuple pp_table name) (mkSeries pp_idx ids)
  /\ next_idx self' = next_idx self + Z.of_nat (length pp_idx).
Proof.
  unfold _generate_ids.
  destruct (mem (KTuple pp_table name) (idx_lookup self)); [discriminate|].
  intros Heq. inversion Heq; subst. cbn. repeat split.
Qed.

Lemma length_arange_int32 a (n : nat) :
  length (arange_int32 a (a + Z.of_nat n)) = n.
Proof.
  unfold arange_int32. rewrite length_map, length_seq. lia.
Qed.

(** A label missing from the index makes a list selection fail. *)
Lemma loc_missing {L V} `{EqDec L} (s : Series L V) labels l :
  In l labels -> ~ In l (index s) -> loc s labels = Raise KeyError.
Proof.
  intros Hin Hnot. unfold loc.
  induction labels as [|l0 labels IH]; [contradiction|].
  cbn [mapM].
  destruct (rows_at s l0) as [|v vs] eqn:E; [reflexivity|].
  cbn [bind].
  destruct Hin as [->|Hin].
  - rewrite rows_at_absent in E by assumption. discriminate.
  - specialize (IH Hin). unfold bind in IH.
    destruct (mapM _ labels); [discriminate|].
    inversion IH. reflexivity.
Qed.


Lemma generate_ids_fresh self pp_table pp_idx name :
  mem (KTuple pp_table name) (idx_lookup self) = false ->
  exists self' ids,
    _generate_ids self pp_table pp_idx name = Ok (self', ids)
    /\ length ids = length pp_idx.
Proof.
  intros Hm. unfold _generate_ids. rewrite Hm.
  eexists _, _. split; [reflexivity|]. apply length_arange_int32.
Qed.

(** X1.  Forward round trip.  After a group has been allocated for a
    collection of distinct source indices, [_get_ids] maps the collection to
    the ids that the allocation returned, maps every selection of them
    (repetitions and any order allowed) to the ids of the selected indices,
    and raises [KeyError] as soon as one requested index was not in the
    collection. *)
Theorem generate_ids_then_get_ids self pp_table pp_idx name :
  NoDup pp_idx ->
  mem (KTuple pp_table name) (idx_lookup self) = false ->
  exists self' ids,
    _generate_ids self pp_table pp_idx name = Ok (self', ids)
    /\ _get_ids self' pp_table pp_idx name = Ok ids
    /\ (forall sel, incl sel (combine pp_idx ids) ->
          _get_ids self' pp_table (map fst sel) name = Ok (map snd sel))
    /\ (forall labels l, In l labels -> ~ In l pp_idx ->
          _get_ids self' pp_table labels name = Raise KeyError).
Proof.
  intros Hnd Hm.
  destruct (@generate_ids_fresh self pp_table pp_idx name Hm)
    as (self' & ids & Hgen & Hlen).
  exists self', ids. split; [exact Hgen|].
  destruct (generate_ids_inv Hgen) as (_ & _ & Hidx & _ & _).
  assert (Hindex : index (mkSeries ids pp_idx) = pp_idx)
    by now apply index_mkSeries.
  unfold _get_ids. rewrite Hidx, get_set_same.
  split; [|split].
  - rewrite <- Hindex at 2. rewrite loc_index by (now rewrite Hindex).
    now rewrite values_mkSeries.
  - intros sel Hsel. apply loc_rows; [now rewrite Hindex | exact Hsel].
  - intros labels l Hin Hnot. apply (@loc_missing _ _ _ _ labels l Hin).
    now rewrite Hindex.
Qed.

Lemma generate_ids_then_get_ids_witness :
  exists self' ids,
    _generate_ids init "line" [7; 3; 5] None = Ok (self', ids)
    /\ _get_ids self' "line" [7; 3; 5] None = Ok ids
    /\ (forall sel, incl sel (combine [7; 3; 5] ids) ->
          _get_ids self' "line" (map fst sel) None = Ok (map snd sel))
    /\ (forall labels l, In l labels -> ~ In l [7; 3; 5] ->
          _get_ids self' "line" labels None = Raise KeyError).
Proof.
  apply (@generate_ids_then_get_ids init "line" [7; 3; 5] None).
  - repeat constructor; simpl; intuition discriminate.
  - reflexivity.
Defined.

Lemma allocate_all_ok_iff reqs : forall self,
  is_ok (allocate_all self reqs) = true
  <-> NoDup (map request_key reqs)
      /\ forall r, In r reqs -> mem (request_key r) (idx_lookup self) = false.
Proof.
  induction reqs as [|[[pp_table name] pp_idx] reqs IH]; intros self.
  - simpl. split; [intros _; split; [constructor | tauto] | reflexivity].
  - cbn [allocate_all map request_key].
    destruct (mem (KTuple pp_table name) (idx_lookup self)) eqn:Hm.
    + unfold _generate_ids. rewrite Hm. cbn [bind is_ok]. split; [discriminate|].
      intros [_ Hall].
      specialize (Hall (pp_table, name, pp_idx) (or_introl eq_refl)).
      cbn [request_key] in Hall. congruence.
    + destruct (@generate_ids_fresh self pp_table pp_idx name Hm)
        as (self1 & ids & Hgen & _).
      rewrite Hgen. cbn [bind].
      destruct (generate_ids_inv Hgen) as (_ & _ & _ & Hlk & _).
      assert (Hok : is_ok ('(self2, idss) <- allocate_all self1 reqs ;;
                           Ok (self2, ids :: idss))
                    = is_ok (allocate_all self1 reqs)).
      { destruct (allocate_all self1 reqs) as [[? ?]|]; reflexivity. }
      rewrite Hok, IH. rewrite Hlk. split.
      * intros [Hnd Hall]. split.
        -- constructor; [|exact Hnd].
           intros Hin. apply in_map_iff in Hin. destruct Hin as (r & Hr & Hin).
           specialize (Hall r Hin). rewrite Hr in Hall.
           unfold mem in Hall. rewrite get_set_same in Hall. discriminate.
        -- intros r [<-|Hin]; [exact Hm|].
           specialize (Hall r Hin).
           destruct (eq_dec (KTuple pp_table name) (request_key r)) as [E|E].
           ++ rewrite <- E in Hall. unfold mem in Hall.
              rewrite get_set_same in Hall. discriminate.
           ++ now rewrite mem_set_other in Hall.
      * intros [Hnd Hall]. inversion Hnd as [|? ? Hnotin Hnd']; subst.
        split; [exact Hnd'|].
        intros r Hin. rewrite mem_set_other.
        -- apply Hall. now right.
        -- intros E. apply Hnotin. rewrite E. now apply in_map.
Qed.


Lemma allocate_all_raises reqs : forall self e,
  allocate_all self reqs = Raise e -> e = AssertionError.
Proof.
  induction reqs as [|[[pp_table name] pp_idx] reqs IH]; intros self e;
    cbn [allocate_all]; [discriminate|].
  unfold _generate_ids at 1.
  destruct (mem (KTuple pp_table name) (idx_lookup self)).
  - cbn [bind]. congruence.
  - cbn [bind].
    match goal with |- context [allocate_all ?s reqs] =>
      destruct (allocate_all s reqs) as [[? ?]|e'] eqn:E end.
    + discriminate.
    + cbn [bind]. intros H. inversion H; subst. exact (IH _ _ E).
Qed.

Lemma get_in_NoDup {K V} `{EqDec K} (d : dict K V) k v :
  NoDup (keys d) -> In (k, v) d -> get d k = Some v.
Proof.
  unfold keys. induction d as [|[k0 v0] d IH]; simpl; [tauto|].
  intros Hnd Hin. inversion Hnd as [|? ? Hnotin Hnd']; subst.
  destruct Hin as [E|Hin].
  - inversion E; subst. destruct (eq_dec k k); congruence.
  - destruct (eq_dec k k0) as [->|].
    + exfalso. apply Hnotin. change k0 with (fst (k0, v)). now apply in_map.
    + now apply IH.
Qed.

Lemma get_not_in_keys {K V} `{EqDec K} (d : dict K V) k :
  ~ In k (keys d) -> get d k = None.
Proof.
  unfold keys. induction d as [|[k0 v0] d IH]; simpl; [reflexivity|].
  intros Hn. destruct (eq_dec k k0) as [->|]; [tauto|]. apply IH. tauto.
Qed.

Lemma get_in_keys {K V} `{EqDec K} (d : dict K V) k :
  In k (keys d) -> get d k <> None.
Proof.
  unfold keys. induction d as [|[k0 v0] d IH]; simpl; [tauto|].
  intros Hin. destruct (eq_dec k k0) as [->|]; [discriminate|].
  apply IH. destruct Hin; congruence.
Qed.

Lemma keys_idx_entries reqs : forall idss,
  length idss = length reqs ->
  keys (idx_entries reqs idss) = map request_key reqs.
Proof.
  unfold keys, idx_entries.
  induction reqs as [|r reqs IH]; intros [|ids idss] Hlen; simpl in *;
    try discriminate; try reflexivity.
  f_equal. apply IH. congruence.
Qed.

Lemma keys_idx_lookup_entries reqs : forall idss,
  length idss = length reqs ->
  keys (idx_lookup_entries reqs idss) = map request_key reqs.
Proof.
  unfold keys, idx_lookup_entries.
  induction reqs as [|r reqs IH]; intros [|ids idss] Hlen; simpl in *;
    try discriminate; try reflexivity.
  f_equal. apply IH. congruence.
Qed.

(** The registry at the end of a successful run of allocations. *)
Lemma allocate_all_groups reqs : forall self self' idss,
  allocate_all self reqs = Ok (self', idss) ->
  length idss = length reqs
  /\ Forall2 (fun r ids => length ids = request_size r) reqs idss
  /\ idx_lookup self' = idx_lookup self ++ idx_lookup_entries reqs idss
  /\ (forall key, get (idx self') key =
                  match get (idx_entries reqs idss) key with
                  | Some s => Some s
                  | None => get (idx self) key
                  end).
Proof.
  induction reqs as [|[[pp_table name] pp_idx] reqs IH]; intros self self' idss;
    cbn [allocate_all].
  - intros H. inversion H; subst. cbn. rewrite app_nil_r.
    repeat split. constructor.
  - destruct (_generate_ids self pp_table pp_idx name) as [[self1 ids]|]
      eqn:Hgen; [|discriminate].
    cbn [bind].
    destruct (allocate_all self1 reqs) as [[self2 idss']|] eqn:Hrun;
      [|discriminate].
    cbn [bind]. intros H. inversion H; subst. clear H.
    destruct (generate_ids_inv Hgen) as (Hm & Hids & Hidx & Hlk & _).
    destruct (IH _ _ _ Hrun) as (Hlen & Hall & Hlk' & Hidx').
    assert (Hfresh : ~ In (KTuple pp_table name) (map request_key reqs)).
    { intros Hin. apply in_map_iff in Hin. destruct Hin as (r & Hr & Hin).
      assert (Hok : is_ok (allocate_all self1 reqs) = true)
        by now rewrite Hrun.
      apply allocate_all_ok_iff in Hok. destruct Hok as [_ Hok].
      specialize (Hok r Hin). rewrite Hr, Hlk in Hok.
      unfold mem in Hok. rewrite get_set_same in Hok. discriminate. }
    split; [simpl; congruence|]. split; [|split].
    + constructor; [|exact Hall]. cbn [request_size].
      rewrite Hids. apply length_arange_int32.
    + rewrite Hlk', Hlk, set_fresh by exact Hm.
      rewrite <- app_assoc. reflexivity.
    + intros key. rewrite Hidx'.
      unfold idx_entries at 2. cbn [combine map fst snd get request_key].
      fold (idx_entries reqs idss').
      destruct (eq_dec key (KTuple pp_table name)) as [->|Hne].
      * rewrite get_not_in_keys
          by (rewrite keys_idx_entries by exact Hlen; exact Hfresh).
        rewrite Hidx. apply get_set_same.
      * destruct (get (idx_entries reqs idss') key); [reflexivity|].
        rewrite Hidx. apply get_set_other. congruence.
Qed.

(** X2.  A pass succeeds exactly when its allocation calls name pairwise
    distinct groups, whatever the registry held before the pass: a second
    allocation for a [(pp_table, name)] pair trips the [assert] of
    [_generate_ids], and an allocation fails in no other way. *)
Theorem pass_succeeds_iff_groups_distinct self reqs :
  (is_ok (allocate_all (_parse_data_reset self) reqs) = true
   <-> NoDup (map request_key reqs))
  /\ (forall e, allocate_all (_parse_data_reset self) reqs = Raise e ->
        e = AssertionError).
Proof.
  split.
  - rewrite allocate_all_ok_iff. split; [tauto|].
    intros Hnd. split; [exact Hnd | reflexivity].
  - intros e. apply allocate_all_raises.
Qed.

Lemma nth_error_combine {A B} (l1 : list A) : forall (l2 : list B) k a b,
  nth_error l1 k = Some a -> nth_error l2 k = Some b ->
  nth_error (combine l1 l2) k = Some (a, b).
Proof.
  induction l1 as [|x l1 IH]; intros [|y l2] [|k] a b; simpl;
    try discriminate.
  - congruence.
  - apply IH.
Qed.

Lemma allocated_group self reqs self' idss k pp_table name pp_idx ids :
  allocate_all self reqs = Ok (self', idss) ->
  nth_error reqs k = Some (pp_table, name, pp_idx) ->
  nth_error idss k = Some ids ->
  length ids = length pp_idx
  /\ get (idx self') (KTuple pp_table name) = Some (mkSeries ids pp_idx)
  /\ get (idx_lookup self') (KTuple pp_table name)
     = match get (idx_lookup self) (KTuple pp_table name) with
       | Some s => Some s
       | None => Some (mkSeries pp_idx ids)
       end.
Proof.
  intros Hrun Hr Hi.
  destruct (allocate_all_groups Hrun) as (Hlen & Hall & Hlk & Hidx).
  assert (Hnd : NoDup (map request_key reqs)).
  { assert (Hok : is_ok (allocate_all self reqs) = true) by now rewrite Hrun.
    apply allocate_all_ok_iff in Hok. tauto. }
  pose proof (nth_error_combine Hr Hi) as Hc.
  split; [|split].
  - clear - Hall Hr Hi. revert k Hr Hi.
    induction Hall as [|r i reqs idss Hri Hall IH]; intros [|k]; simpl;
      try discriminate.
    + intros H1 H2. inversion H1; inversion H2; subst. exact Hri.
    + apply IH.
  - rewrite Hidx. erewrite get_in_NoDup; [reflexivity | |].
    + now rewrite keys_idx_entries.
    + unfold idx_entries. apply nth_error_In in Hc.
      apply (in_map (fun ri : Request * list Z =>
                       (request_key (fst ri), mkSeries (snd ri) (snd (fst ri)))))
        in Hc. exact Hc.
  - rewrite Hlk, get_app.
    destruct (get (idx_lookup self) (KTuple pp_table name)); [reflexivity|].
    apply get_in_NoDup.
    + now rewrite keys_idx_lookup_entries.
    + unfold idx_lookup_entries. apply nth_error_In in Hc.
      apply (in_map (fun ri : Request * list Z =>
                       (request_key (fst ri), mkSeries (snd (fst ri)) (snd ri))))
        in Hc. exact Hc.
Qed.

(** X3.  Every group of a pass survives the rest of the pass.  At the end
    of a successful pass, the ids returned by any of its allocation calls
    map back, through [_get_pp_ids], to the source indices of that call, and
    (for distinct source indices) [_get_ids] maps those indices to the ids:
    later allocations disturb neither direction. *)
Theorem pass_groups_round_trip self reqs self' idss k pp_table name pp_idx ids :
  allocate_all (_parse_data_reset self) reqs = Ok (self', idss) ->
  nth_error reqs k = Some (pp_table, name, pp_idx) ->
  nth_error idss k = Some ids ->
  _get_pp_ids self' pp_table ids name = Ok pp_idx
  /\ (NoDup pp_idx -> _get_ids self' pp_table pp_idx name = Ok ids).
Proof.
  intros Hrun Hr Hi.
  destruct (allocated_group Hrun Hr Hi) as (Hlen & Hidx & Hlk).
  cbn [_parse_data_reset idx_lookup get] in Hlk.
  split.
  - unfold _get_pp_ids. rewrite Hlk.
    rewrite index_mkSeries by exact Hlen.
    unfold index_equals. destruct (list_eq_dec Z.eq_dec ids ids); [|congruence].
    now rewrite values_mkSeries.
  - intros Hnd. unfold _get_ids. rewrite Hidx.
    assert (Hindex : index (mkSeries ids pp_idx) = pp_idx)
      by now apply index_mkSeries.
    rewrite <- Hindex at 2. rewrite loc_index by (now rewrite Hindex).
    now rewrite values_mkSeries.
Qed.

Lemma pass_groups_round_trip_witness :
  _get_pp_ids
    {| idx := [(KTuple "bus" None, [(10, 0); (11, 1)]);
               (KTuple "line" None, [(5, 2)])];
       idx_lookup := [(KTuple "bus" None, [(0, 10); (1, 11)]);
                      (KTuple "line" None, [(2, 5)])];
       next_idx := 3 |} "bus" [0; 1] None = Ok [10; 11]
  /\ (NoDup [10; 11] ->
      _get_ids
        {| idx := [(KTuple "bus" None, [(10, 0); (11, 1)]);
                   (KTuple "line" None, [(5, 2)])];
           idx_lookup := [(KTuple "bus" None, [(0, 10); (1, 11)]);
                          (KTuple "line" None, [(2, 5)])];
           next_idx := 3 |} "bus" [10; 11] None = Ok [0; 1]).
Proof.
  apply (@pass_groups_round_trip init
           [("bus", None, [10; 11]); ("line", None, [5])]
           _ [[0; 1]; [2]] 0%nat "bus" None [10; 11] [0; 1]);
    reflexivity.
Defined.

(** X4.  A pass clears [idx_lookup] but not [idx].  For a group that the
    pass does not allocate again, [_get_ids] answers after the pass exactly
    as it did before it (ids of the previous pass included), while
    [_get_pp_ids] raises [KeyError] for it. *)
Theorem pass_keeps_forward_groups_of_earlier_passes
    self reqs self' idss pp_table name :
  allocate_all (_parse_data_reset self) reqs = Ok (self', idss) ->
  ~ In (KTuple pp_table name) (map request_key reqs) ->
  (forall pp_idx,
     _get_ids self' pp_table pp_idx name = _get_ids self pp_table pp_idx name)
  /\ (forall pgm_idx,
        _get_pp_ids self' pp_table pgm_idx name = Raise KeyError).
Proof.
  intros Hrun Hnot.
  destruct (allocate_all_groups Hrun) as (Hlen & _ & Hlk & Hidx).
  split.
  - intros pp_idx. unfold _get_ids. rewrite Hidx.
    rewrite get_not_in_keys by (now rewrite keys_idx_entries).
    reflexivity.
  - intros pgm_idx. unfold _get_pp_ids. rewrite Hlk. cbn [_parse_data_reset idx_lookup app].
    rewrite get_not_in_keys by (now rewrite keys_idx_lookup_entries).
    reflexivity.
Qed.

Lemma pass_keeps_forward_groups_of_earlier_passes_witness :
  (forall pp_idx,
     _get_ids {| idx := [(KTuple "bus" None, [(10, 0); (11, 1)]);
                         (KTuple "line" None, [(5, 0)])];
                 idx_lookup := [(KTuple "line" None, [(0, 5)])];
                 next_idx := 1 |} "bus" pp_idx None
     = _get_ids example_bus_registry "bus" pp_idx None)
  /\ (forall pgm_idx,
        _get_pp_ids {| idx := [(KTuple "bus" None, [(10, 0); (11, 1)]);
                               (KTuple "line" None, [(5, 0)])];
                       idx_lookup := [(KTuple "line" None, [(0, 5)])];
                       next_idx := 1 |} "bus" pgm_idx None
        = Raise KeyError).
Proof.
  apply (@pass_keeps_forward_groups_of_earlier_passes example_bus_registry
           [("line", None, [5])] _ [[0]] "bus" None).
  - reflexivity.
  - simpl. intuition discriminate.
Defined.

(** *** [lookup_id] and the sidecar after a pass *)

Lemma existsb_Zeqb_In i l : existsb (Z.eqb i) l = true <-> In i l.
Proof.
  rewrite existsb_exists. split.
  - intros (x & Hx & E). apply Z.eqb_eq in E. now subst.
  - intros Hin. exists i. split; [exact Hin | apply Z.eqb_refl].
Qed.

Lemma existsb_Zeqb_not_In i l : ~ In i l -> existsb (Z.eqb i) l = false.
Proof.
  intros Hn. destruct (existsb (Z.eqb i) l) eqn:E; [|reflexivity].
  apply existsb_Zeqb_In in E. contradiction.
Qed.

Lemma getitem_label_get {V} (s : Series Z V) k :
  NoDup (index s) ->
  getitem_label s k = match get s k with
                      | Some v => Ok (ItemScalar v)
                      | None => Raise KeyError
                      end.
Proof.
  intros Hnd. unfold getitem_label. rewrite rows_at_get by exact Hnd.
  now destruct (get s k).
Qed.

Lemma get_mkSeries_nth {V} (ls : list Z) : forall (vs : list V) j l v,
  NoDup ls -> nth_error ls j = Some l -> nth_error vs j = Some v ->
  get (mkSeries vs ls) l = Some v.
Proof.
  unfold mkSeries.
  induction ls as [|l0 ls IH]; intros [|v0 vs] [|j] l v Hnd; simpl;
    try discriminate.
  - intros H1 H2. inversion H1; inversion H2; subst.
    destruct (eq_dec l l); congruence.
  - intros H1 H2. inversion Hnd as [|? ? Hnotin Hnd']; subst.
    destruct (eq_dec l l0) as [->|].
    + exfalso. apply Hnotin. eapply nth_error_In; eassumption.
    + eapply IH; eassumption.
Qed.

Lemma lookup_id_in_absent items i :
  tuple_keys items -> ~ In i (entry_ids items) ->
  lookup_id_in items i = Raise KeyError.
Proof.
  unfold tuple_keys, entry_ids.
  induction items as [|[key s] items IH]; intros Hk Hn; [reflexivity|].
  inversion Hk as [|? ? (t & n & Hkey) Hk']; subst. cbn [fst] in Hkey. subst key.
  cbn [lookup_id_in unpack_key bind]. cbn [flat_map snd] in Hn.
  rewrite in_app_iff in Hn.
  rewrite existsb_Zeqb_not_In by tauto. apply IH; tauto.
Qed.

Lemma lookup_id_in_present items : forall i k pp_table name s p,
  NoDup (entry_ids items) ->
  tuple_keys items ->
  nth_error items k = Some (KTuple pp_table name, s) ->
  get s i = Some p ->
  lookup_id_in items i
  = Ok {| found_table := pp_table;
          found_name := if truthy name then name else None;
          found_index := ItemScalar p |}.
Proof.
  unfold entry_ids, tuple_keys.
  induction items as [|[key s0] items IH]; intros i k pp_table name s p Hnd Hk;
    destruct k as [|k]; cbn [nth_error]; try discriminate.
  - intros H Hget. inversion H; subst. cbn [lookup_id_in unpack_key bind].
    cbn [flat_map snd] in Hnd. apply NoDup_app_remove_r in Hnd.
    assert (Hin : In i (index s)).
    { apply get_some_in in Hget. unfold index.
      change i with (fst (i, p)). now apply in_map. }
    apply existsb_Zeqb_In in Hin. rewrite Hin.
    rewrite getitem_label_get by exact Hnd. rewrite Hget. reflexivity.
  - intros H Hget.
    inversion Hk as [|? ? (t & n & Hkey) Hk']; subst. cbn [fst] in Hkey.
    subst key. cbn [lookup_id_in unpack_key bind].
    cbn [flat_map snd] in Hnd.
    assert (Hin : In i (flat_map (fun kv : Key * Series Z Z => index (snd kv))
                          items)).
    { apply in_flat_map. exists (KTuple pp_table name, s). split.
      - eapply nth_error_In; eassumption.
      - cbn [snd]. apply get_some_in in Hget. unfold index.
        change i with (fst (i, p)). now apply in_map. }
    rewrite existsb_Zeqb_not_In.
    + eapply IH; try eassumption. now apply NoDup_app_remove_l in Hnd.
    + intros Hi. revert Hnd. clear - Hi Hin. intros Hnd.
      induction (index s0) as [|x l IHl]; [contradiction|].
      cbn [app] in Hnd. inversion Hnd as [|? ? Hnotin Hnd']; subst.
      destruct Hi as [->|Hi].
      * apply Hnotin. apply in_or_app. now right.
      * now apply IHl.
Qed.

Lemma lookup_id_in_inv items : forall i f,
  NoDup (entry_ids items) ->
  tuple_keys items ->
  lookup_id_in items i = Ok f ->
  exists k pp_table name s p,
    nth_error items k = Some (KTuple pp_table name, s)
    /\ get s i = Some p
    /\ f = {| found_table := pp_table;
              found_name := if truthy name then name else None;
              found_index := ItemScalar p |}.
Proof.
  intros i f Hnd Hk Hf.
  destruct (in_dec Z.eq_dec i (entry_ids items)) as [Hin|Hn].
  - unfold entry_ids in Hin. apply in_flat_map in Hin.
    destruct Hin as ([key s] & Hkv & Hi). cbn [snd] in Hi.
    apply In_nth_error in Hkv. destruct Hkv as [k Hkth].
    pose proof Hk as Hk0. unfold tuple_keys in Hk0.
    rewrite Forall_forall in Hk0.
    destruct (Hk0 (key, s) (nth_error_In _ _ Hkth)) as (t & n & Hkey).
    cbn [fst] in Hkey. subst key.
    destruct (get s i) as [p|] eqn:Hget.
    + exists k, t, n, s, p. split; [exact Hkth|]. split; [exact Hget|].
      rewrite (lookup_id_in_present Hnd Hk Hkth Hget) in Hf. congruence.
    + apply get_none_not_in in Hget. contradiction.
  - rewrite lookup_id_in_absent in Hf by assumption. discriminate.
Qed.

Lemma entry_ids_idx_lookup_entries reqs : forall idss,
  Forall2 (fun r ids => length ids = request_size r) reqs idss ->
  entry_ids (idx_lookup_entries reqs idss) = concat idss.
Proof.
  unfold entry_ids, idx_lookup_entries.
  induction reqs as [|[[t n] pp_idx] reqs IH]; intros idss Hall;
    inversion Hall as [|? ids ? idss' Hlen Hall']; subst; [reflexivity|].
  cbn [combine map flat_map fst snd concat]. cbn [request_size] in Hlen.
  rewrite index_mkSeries by exact Hlen. f_equal. now apply IH.
Qed.

Lemma tuple_keys_idx_lookup_entries reqs idss :
  tuple_keys (idx_lookup_entries reqs idss).
Proof.
  unfold tuple_keys, idx_lookup_entries. apply Forall_forall.
  intros kv Hin. apply in_map_iff in Hin.
  destruct Hin as ([[[t n] pp_idx] ids] & <- & _). now exists t, n.
Qed.

(** The registry after a pass that stays inside [int32]. *)
Lemma pass_registry self reqs self' idss :
  allocate_all (_parse_data_reset self) reqs = Ok (self', idss) ->
  Z.of_nat (total_size reqs) <= 2 ^ 31 ->
  idx_lookup self' = idx_lookup_entries reqs idss
  /\ length idss = length reqs
  /\ entry_ids (idx_lookup self') = iota 0 (total_size reqs)
  /\ NoDup (entry_ids (idx_lookup self'))
  /\ tuple_keys (idx_lookup self').
Proof.
  intros Hrun Hb.
  destruct (allocate_all_groups Hrun) as (Hlen & Hall & Hlk & _).
  cbn [_parse_data_reset idx_lookup app] in Hlk.
  assert (Hnd : NoDup (map request_key reqs)).
  { assert (Hok : is_ok (allocate_all (_parse_data_reset self) reqs) = true)
      by now rewrite Hrun.
    apply allocate_all_ok_iff in Hok. tauto. }
  destruct (@allocate_all_spec reqs (_parse_data_reset self))
    as (self2 & idss2 & Hrun2 & _ & Hcat & _);
    [assumption | reflexivity | simpl; lia | simpl; lia |].
  rewrite Hrun in Hrun2. inversion Hrun2; subst self2 idss2.
  cbn [_parse_data_reset next_idx] in Hcat.
  assert (Hids : entry_ids (idx_lookup self') = iota 0 (total_size reqs))
    by (rewrite Hlk, entry_ids_idx_lookup_entries by exact Hall; exact Hcat).
  repeat split; try assumption.
  - rewrite Hids. apply iota_NoDup.
  - rewrite Hlk. apply tuple_keys_idx_lookup_entries.
Qed.

Lemma nth_error_idx_lookup_entries reqs idss k pp_table name pp_idx ids :
  nth_error reqs k = Some (pp_table, name, pp_idx) ->
  nth_error idss k = Some ids ->
  nth_error (idx_lookup_entries reqs idss) k
  = Some (KTuple pp_table name, mkSeries pp_idx ids).
Proof.
  intros Hr Hi. unfold idx_lookup_entries.
  exact (map_nth_error _ _ _ (nth_error_combine Hr Hi)).
Qed.

(** X5.  After a pass, [lookup_id] recovers the origin of every id: for
    the id handed out for the [j]-th source index of the [k]-th allocation
    call it returns the table of that call, its qualifier (left out when the
    qualifier is [None] or empty) and that source index. *)
Theorem lookup_id_of_allocated_id
    self reqs self' idss k pp_table name pp_idx ids j pp_i pgm_i :
  allocate_all (_parse_data_reset self) reqs = Ok (self', idss) ->
  Z.of_nat (total_size reqs) <= 2 ^ 31 ->
  nth_error reqs k = Some (pp_table, name, pp_idx) ->
  nth_error idss k = Some ids ->
  nth_error pp_idx j = Some pp_i ->
  nth_error ids j = Some pgm_i ->
  lookup_id self' pgm_i
  = Ok {| found_table := pp_table;
          found_name := if truthy name then name else None;
          found_index := ItemScalar pp_i |}.
Proof.
  intros Hrun Hb Hr Hi Hp Hg.
  destruct (pass_registry Hrun Hb) as (Hlk & Hlen & Hids & Hnd & Hk).
  unfold lookup_id.
  apply (@lookup_id_in_present _ pgm_i k pp_table name (mkSeries pp_idx ids));
    try assumption.
  - rewrite Hlk. now apply nth_error_idx_lookup_entries.
  - apply (@get_mkSeries_nth _ ids pp_idx j); try assumption.
    destruct (allocated_group Hrun Hr Hi) as (Hl & _).
    clear - Hnd Hlk Hr Hi Hl.
    rewrite Hlk in Hnd. unfold entry_ids in Hnd.
    pose proof (nth_error_idx_lookup_entries Hr Hi) as Hnth.
    apply nth_error_split in Hnth. destruct Hnth as (l1 & l2 & E & _).
    rewrite E, flat_map_app in Hnd. apply NoDup_app_remove_l in Hnd.
    cbn [flat_map snd] in Hnd. apply NoDup_app_remove_r in Hnd.
    now rewrite index_mkSeries in Hnd.
Qed.

Lemma lookup_id_of_allocated_id_witness :
  lookup_id {| idx := [(KTuple "bus" None, [(10, 0); (11, 1)]);
                       (KTuple "load" (Some "const_power"), [(7, 2)])];
               idx_lookup := [(KTuple "bus" None, [(0, 10); (1, 11)]);
                              (KTuple "load" (Some "const_power"), [(2, 7)])];
               next_idx := 3 |} 2
  = Ok {| found_table := "load";
          found_name := Some "const_power";
          found_index := ItemScalar 7 |}.
Proof.
  apply (@lookup_id_of_allocated_id init
           [("bus", None, [10; 11]); ("load", Some "const_power", [7])]
           _ [[0; 1]; [2]] 1%nat "load" (Some "const_power") [7] [2]
           0%nat 7 2);
    try reflexivity.
  simpl. lia.
Defined.

Lemma lookup_id_defined_on_ids self reqs self' idss pgm_id :
  allocate_all (_parse_data_reset self) reqs = Ok (self', idss) ->
  Z.of_nat (total_size reqs) <= 2 ^ 31 ->
  (0 <= pgm_id < Z.of_nat (total_size reqs) ->
   is_ok (lookup_id self' pgm_id) = true)
  /\ (~ (0 <= pgm_id < Z.of_nat (total_size reqs)) ->
      lookup_id self' pgm_id = Raise KeyError).
Proof.
  intros Hrun Hb.
  destruct (pass_registry Hrun Hb) as (Hlk & Hlen & Hids & Hnd & Hk).
  assert (Hin : In pgm_id (entry_ids (idx_lookup self'))
                <-> 0 <= pgm_id < Z.of_nat (total_size reqs))
    by (rewrite Hids, in_iota; lia).
  split.
  - intros Hi. apply Hin in Hi. unfold entry_ids in Hi.
    apply in_flat_map in Hi.
    destruct Hi as ([key s] & Hkv & Hi). cbn [snd] in Hi.
    apply In_nth_error in Hkv. destruct Hkv as [k Hkth].
    pose proof Hk as Hk0. unfold tuple_keys in Hk0.
    rewrite Forall_forall in Hk0.
    destruct (Hk0 (key, s) (nth_error_In _ _ Hkth)) as (t & n & Hkey).
    cbn [fst] in Hkey. subst key.
    destruct (get s pgm_id) as [p|] eqn:Hget.
    + unfold lookup_id.
      now rewrite (lookup_id_in_present Hnd Hk Hkth Hget).
    + apply get_none_not_in in Hget. contradiction.
  - intros Hn. apply lookup_id_in_absent; [assumption | tauto].
Qed.

(** X6.  After a pass, [lookup_id] answers exactly for the integers
    [0 .. total-1], the ids of the pass, and raises [KeyError] exactly for
    all others. *)
Theorem lookup_id_fails_iff_not_allocated self reqs self' idss pgm_id :
  allocate_all (_parse_data_reset self) reqs = Ok (self', idss) ->
  Z.of_nat (total_size reqs) <= 2 ^ 31 ->
  (lookup_id self' pgm_id = Raise KeyError
   <-> ~ (0 <= pgm_id < Z.of_nat (total_size reqs)))
  /\ (is_ok (lookup_id self' pgm_id) = true
      <-> 0 <= pgm_id < Z.of_nat (total_size reqs)).
Proof.
  intros Hrun Hb.
  destruct (@lookup_id_defined_on_ids self reqs self' idss pgm_id Hrun Hb)
    as [Hin Hout].
  split; split.
  - intros Hr Hrange. apply Hin in Hrange. rewrite Hr in Hrange.
    discriminate.
  - exact Hout.
  - intros Hok.
    destruct (Z_le_dec 0 pgm_id) as [H0|H0];
      [destruct (Z_lt_dec pgm_id (Z.of_nat (total_size reqs))) as [H1|H1]|];
      [lia | |]; rewrite Hout in Hok by lia; discriminate.
  - exact Hin.
Qed.

Lemma lookup_id_fails_iff_not_allocated_witness :
  (lookup_id example_bus_registry 5 = Raise KeyError
   <-> ~ (0 <= 5 < Z.of_nat (total_size [("bus", None, [10; 11])])))
  /\ (is_ok (lookup_id example_bus_registry 5) = true
      <-> 0 <= 5 < Z.of_nat (total_size [("bus", None, [10; 11])])).
Proof.
  apply (@lookup_id_fails_iff_not_allocated init [("bus", None, [10; 11])]
           example_bus_registry [[0; 1]] 5).
  - reflexivity.
  - simpl. lia.
Defined.

Lemma in_combine_swap {A B} (l1 : list A) : forall (l2 : list B) a b,
  In (a, b) (combine l1 l2) -> In (b, a) (combine l2 l1).
Proof.
  induction l1 as [|x l1 IH]; intros [|y l2] a b; simpl; try tauto.
  intros [E|Hin]; [left; congruence | right; now apply IH].
Qed.

Lemma nth_error_idx_lookup_entries_inv reqs idss k key s :
  nth_error (idx_lookup_entries reqs idss) k = Some (key, s) ->
  exists pp_table name pp_idx ids,
    nth_error reqs k = Some (pp_table, name, pp_idx)
    /\ nth_error idss k = Some ids
    /\ key = KTuple pp_table name
    /\ s = mkSeries pp_idx ids.
Proof.
  unfold idx_lookup_entries. rewrite nth_error_map.
  revert idss k. induction reqs as [|[[t n] p] reqs IH]; intros [|ids idss] [|k];
    simpl; try discriminate.
  - intros H. inversion H; subst. now exists t, n, p, ids.
  - apply IH.
Qed.

Lemma truthy_name name :
  name <> Some "" -> (if truthy name then name else None) = name.
Proof. destruct name as [[|a s]|]; simpl; congruence. Qed.

(** X7.  [get_id] inverts [lookup_id].  After a pass whose source tables
    have distinct index labels and whose qualifiers are not the empty
    string, whatever [lookup_id] returns for an id leads [get_id] back to
    that id. *)
Theorem get_id_inverts_lookup_id self reqs self' idss pgm_id found :
  allocate_all (_parse_data_reset self) reqs = Ok (self', idss) ->
  Z.of_nat (total_size reqs) <= 2 ^ 31 ->
  (forall pp_table name pp_idx, In (pp_table, name, pp_idx) reqs ->
     NoDup pp_idx /\ name <> Some "") ->
  lookup_id self' pgm_id = Ok found ->
  exists pp_i,
    found_index found = ItemScalar pp_i
    /\ get_id self' (found_table found) pp_i (found_name found)
       = Ok (ItemScalar pgm_id).
Proof.
  intros Hrun Hb Hreqs Hf.
  destruct (pass_registry Hrun Hb) as (Hlk & Hlen & Hids & Hnd & Hk).
  unfold lookup_id in Hf.
  destruct (lookup_id_in_inv Hnd Hk Hf) as (k & t & n & s & p & Hkth & Hget & ->).
  rewrite Hlk in Hkth.
  destruct (nth_error_idx_lookup_entries_inv Hkth)
    as (t' & n' & pp_idx & ids & Hr & Hi & Hkey & ->).
  inversion Hkey; subst t' n'. clear Hkey.
  destruct (Hreqs t n pp_idx (nth_error_In _ _ Hr)) as [Hndp Hname].
  destruct (allocated_group Hrun Hr Hi) as (Hl & Hidx & _).
  exists p. cbn [found_index found_table found_name]. split; [reflexivity|].
  rewrite truthy_name by exact Hname.
  unfold get_id, getitem. rewrite Hidx. cbn [bind].
  assert (Hindex : index (mkSeries ids pp_idx) = pp_idx)
    by now apply index_mkSeries.
  rewrite getitem_label_get by (now rewrite Hindex).
  erewrite get_in_NoDup; [reflexivity | unfold keys; fold (index (mkSeries ids pp_idx)); now rewrite Hindex |].
  apply get_some_in in Hget. unfold mkSeries in *. now apply in_combine_swap.
Qed.

Lemma get_id_inverts_lookup_id_witness :
  exists pp_i,
    found_index {| found_table := "bus"; found_name := None;
                   found_index := ItemScalar 11 |} = ItemScalar pp_i
    /\ get_id example_bus_registry "bus" pp_i None = Ok (ItemScalar 1).
Proof.
  apply (@get_id_inverts_lookup_id init [("bus", None, [10; 11])]
           example_bus_registry [[0; 1]] 1
           {| found_table := "bus"; found_name := None;
              found_index := ItemScalar 11 |}).
  - reflexivity.
  - simpl. lia.
  - intros t n p [E|[]]. inversion E; subst. split; [|discriminate].
    repeat constructor; simpl; intuition discriminate.
  - reflexivity.
Defined.

(** *** The sidecar *)

Lemma sidecar_rows (F : Z -> Extra) (s : Series Z Z) : forall extra_info i,
  NoDup (index s) ->
  get (fold_left (fun (ei : ExtraInfoLookup) (row : Z * Z) =>
                    let '(pgm_idx, pp_idx) := row in
                    set ei pgm_idx (F pp_idx)) s extra_info) i
  = match get s i with
    | Some pp_idx => Some (F pp_idx)
    | None => get extra_info i
    end.
Proof.
  induction s as [|[a b] s IH]; intros ei i Hnd; [reflexivity|].
  cbn [fold_left]. cbn [index map fst] in Hnd.
  inversion Hnd as [|? ? Hnotin Hnd']; subst.
  rewrite IH by exact Hnd'. cbn [get].
  destruct (eq_dec i a) as [->|Hne].
  - rewrite (@get_not_in_keys _ _ _ s a) by exact Hnotin.
    apply get_set_same.
  - destruct (get s i); [reflexivity|].
    apply get_set_other. congruence.
Qed.

Lemma sidecar_entries items : forall extra_info,
  NoDup (entry_ids items) ->
  tuple_keys items ->
  exists extra_info',
    _parse_data_extra_info
      {| idx := []; idx_lookup := items; next_idx := 0 |} extra_info
    = Ok extra_info'
    /\ forall i,
         match lookup_id_in items i with
         | Ok found =>
             exists pp_i,
               found_index found = ItemScalar pp_i
               /\ get extra_info' i
                  = Some (Some {| ref_table := found_table found;
                                  ref_name := found_name found;
                                  ref_index := pp_i |})
         | Raise _ => get extra_info' i = get extra_info i
         end.
Proof.
  unfold _parse_data_extra_info. cbn [idx_lookup].
  induction items as [|[key s] items IH]; intros ei Hnd Hk.
  - exists ei. split; [reflexivity|]. intros i. reflexivity.
  - inversion Hk as [|? ? (t & n & Hkey) Hk']; subst. cbn [fst] in Hkey.
    subst key. cbn [fold_left bind].
    cbn [entry_ids flat_map snd] in Hnd. fold (entry_ids items) in Hnd.
    pose proof (NoDup_app_remove_l _ _ Hnd) as Hnd2.
    pose proof (NoDup_app_remove_r _ _ Hnd) as Hnd1.
    match goal with |- context [fold_left _ items (Ok ?e)] =>
      destruct (IH e Hnd2 Hk') as (ei' & Hrun & Hspec) end.
    exists ei'. split; [exact Hrun|].
    intros i. specialize (Hspec i).
    cbn [lookup_id_in unpack_key bind].
    destruct (existsb (Z.eqb i) (index s)) eqn:Ei.
    + apply existsb_Zeqb_In in Ei.
      assert (Hrest : ~ In i (entry_ids items)).
      { intros Hin. clear - Hnd Ei Hin.
        induction (index s) as [|x l IHl]; [contradiction|].
        cbn [app] in Hnd. inversion Hnd as [|? ? Hnotin Hnd']; subst.
        destruct Ei as [->|Ei].
        - apply Hnotin. apply in_or_app. now right.
        - now apply IHl. }
      rewrite lookup_id_in_absent in Hspec by assumption.
      rewrite Hspec.
      rewrite (@sidecar_rows
                 (fun pp_idx => Some {| ref_table := t;
                                        ref_name := if truthy n then n else None;
                                        ref_index := pp_idx |}))
        by exact Hnd1.
      rewrite getitem_label_get by exact Hnd1.
      destruct (get s i) as [p|] eqn:Hget.
      * cbn [bind]. exists p. now split.
      * apply get_none_not_in in Hget. contradiction.
    + destruct (lookup_id_in items i) as [found|e]; [exact Hspec|].
      rewrite Hspec.
      rewrite (@sidecar_rows
                 (fun pp_idx => Some {| ref_table := t;
                                        ref_name := if truthy n then n else None;
                                        ref_index := pp_idx |}))
        by exact Hnd1.
      rewrite (@get_not_in_keys _ _ _ s i); [reflexivity|].
      intros Hin. apply existsb_Zeqb_In in Hin. unfold keys in Hin.
      unfold index in Ei. congruence.
Qed.

(** X8.  The sidecar written by [_parse_data] tabulates [lookup_id].  A
    pass over pairwise distinct groups succeeds and leaves, for every id
    [0 .. total-1] of the pass, a sidecar record holding exactly what
    [lookup_id] returns for that id (table, qualifier if any, source index),
    replacing whatever record the caller's sidecar held there; the records
    of all other ids are left as the caller supplied them. *)
Theorem sidecar_tabulates_lookup_id self reqs extra_info :
  NoDup (map request_key reqs) ->
  Z.of_nat (total_size reqs) <= 2 ^ 31 ->
  exists self' extra_info',
    _parse_data self reqs extra_info = Ok (self', extra_info')
    /\ forall i,
         (0 <= i < Z.of_nat (total_size reqs) ->
          exists found pp_i,
            lookup_id self' i = Ok found
            /\ found_index found = ItemScalar pp_i
            /\ get extra_info' i
               = Some (Some {| ref_table := found_table found;
                               ref_name := found_name found;
                               ref_index := pp_i |}))
         /\ (~ (0 <= i < Z.of_nat (total_size reqs)) ->
             get extra_info' i = get extra_info i).
Proof.
  intros Hkeys Hb.
  destruct (@allocate_all_spec reqs (_parse_data_reset self))
    as (self' & idss & Hrun & _);
    [assumption | reflexivity | simpl; lia | simpl; lia |].
  destruct (pass_registry Hrun Hb) as (Hlk & Hlen & Hids & Hnd & Hk).
  destruct (@sidecar_entries (idx_lookup self') extra_info Hnd Hk)
    as (ei' & Hside & Hspec).
  exists self', ei'. split.
  - unfold _parse_data. rewrite Hrun. cbn [bind].
    unfold _parse_data_extra_info in *. cbn [idx_lookup] in Hside.
    rewrite Hside. reflexivity.
  - intros i. specialize (Hspec i). fold (lookup_id self' i) in Hspec.
    destruct (@lookup_id_defined_on_ids self reqs self' idss i Hrun Hb)
      as [Hok Hfail].
    split.
    + intros Hrange. apply Hok in Hrange.
      destruct (lookup_id self' i) as [found|e]; [|discriminate].
      destruct Hspec as (pp_i & Hfi & Hget). now exists found, pp_i.
    + intros Hout. apply Hfail in Hout. rewrite Hout in Hspec. exact Hspec.
Qed.

Lemma sidecar_tabulates_lookup_id_witness :
  exists self' extra_info',
    _parse_data init example_requests [(7, None)] = Ok (self', extra_info')
    /\ forall i,
         (0 <= i < Z.of_nat (total_size example_requests) ->
          exists found pp_i,
            lookup_id self' i = Ok found
            /\ found_index found = ItemScalar pp_i
            /\ get extra_info' i
               = Some (Some {| ref_table := found_table found;
                               ref_name := found_name found;
                               ref_index := pp_i |}))
         /\ (~ (0 <= i < Z.of_nat (total_size example_requests)) ->
             get extra_info' i = get [(7, None)] i).
Proof.
  apply (@sidecar_tabulates_lookup_id init example_requests [(7, None)]).
  - repeat constructor; simpl; intuition discriminate.
  - simpl. lia.
Defined.

(** ** Output aggregators and the groups of the forward pass *)

Lemma create_input_data_requests_groups pp :
  incl (map request_key (_create_input_data_requests pp)) input_groups.
Proof.
  destruct pp as [b l e ld sh t sg t3 sw].
  unfold _create_input_data_requests, unless_empty; cbn [bus_index line_index
    ext_grid_index load_index shunt_index trafo_index sgen_index trafo3w_index
    switch_index_et].
  rewrite !map_app.
  repeat apply incl_app;
    match goal with
    | |- incl (map _ match ?x with _ => _ end) _ => destruct x
    end;
    cbn [map request_key]; intros k Hk; cbn [In] in Hk;
    unfold input_groups; cbn [In]; intuition.
Qed.

Lemma get_pp_ids_unknown_group self pp_table pgm_idx name :
  get (idx_lookup self) (KTuple pp_table name) = None ->
  _get_pp_ids self pp_table pgm_idx name = Raise KeyError.
Proof. intros H. unfold _get_pp_ids. now rewrite H. Qed.

Lemma forward_pass_groups self pp self' idss key :
  allocate_all (_parse_data_reset self) (_create_input_data_requests pp)
  = Ok (self', idss) ->
  ~ In key input_groups ->
  get (idx_lookup self') key = None.
Proof.
  intros Hrun Hnot.
  destruct (allocate_all_groups Hrun) as (Hlen & _ & Hlk & _).
  rewrite Hlk. cbn [_parse_data_reset idx_lookup app].
  apply get_not_in_keys. rewrite keys_idx_lookup_entries by exact Hlen.
  intros Hin. apply Hnot. now apply (@create_input_data_requests_groups pp).
Qed.

(** X9.  The output aggregators ask the registry for groups that the
    forward conversion never creates.  After [_create_input_data], whatever
    the source tables hold, [_get_pp_ids] raises [KeyError] for the group
    names used by [_pp_ext_grids_output] ("source"), [_pp_sgens_output]
    ("sym_gen"), [_pp_trafos_output] ("transformer"), [_pp_trafos3w_output]
    ("three_winding_transformer"), [_pp_loads_output] ("load" with the
    qualifiers "constant_power", "constant_current", "constant_impedance"),
    [_pp_asym_loads_output] and [_pp_asym_gens_output]: the forward
    converters store these devices under "ext_grid", "sgen", "trafo",
    "trafo3w" and "load" with "const_power", "const_current",
    "const_impedance". *)
Theorem output_groups_missing_after_forward_pass self pp self' idss pgm_idx :
  allocate_all (_parse_data_reset self) (_create_input_data_requests pp)
  = Ok (self', idss) ->
  _get_pp_ids self' "source" pgm_idx None = Raise KeyError
  /\ _get_pp_ids self' "sym_gen" pgm_idx None = Raise KeyError
  /\ _get_pp_ids self' "transformer" pgm_idx None = Raise KeyError
  /\ _get_pp_ids self' "three_winding_transformer" pgm_idx None
     = Raise KeyError
  /\ _get_pp_ids self' "load" pgm_idx (Some "constant_power") = Raise KeyError
  /\ _get_pp_ids self' "load" pgm_idx (Some "constant_current")
     = Raise KeyError
  /\ _get_pp_ids self' "load" pgm_idx (Some "constant_impedance")
     = Raise KeyError
  /\ _get_pp_ids self' "asymmetric_load" pgm_idx None = Raise KeyError
  /\ _get_pp_ids self' "asymmetric_sgen" pgm_idx None = Raise KeyError.
Proof.
  intros Hrun.
  repeat split; apply get_pp_ids_unknown_group;
    apply (forward_pass_groups Hrun);
    unfold input_groups; cbn [In]; intuition discriminate.
Qed.

Lemma output_groups_missing_after_forward_pass_witness :
  _get_pp_ids example_ext_grid_registry "source" [2] None = Raise KeyError
  /\ _get_pp_ids example_ext_grid_registry "sym_gen" [2] None = Raise KeyError
  /\ _get_pp_ids example_ext_grid_registry "transformer" [2] None = Raise KeyError
  /\ _get_pp_ids example_ext_grid_registry "three_winding_transformer" [2] None
     = Raise KeyError
  /\ _get_pp_ids example_ext_grid_registry "load" [2] (Some "constant_power")
     = Raise KeyError
  /\ _get_pp_ids example_ext_grid_registry "load" [2] (Some "constant_current")
     = Raise KeyError
  /\ _get_pp_ids example_ext_grid_registry "load" [2] (Some "constant_impedance")
     = Raise KeyError
  /\ _get_pp_ids example_ext_grid_registry "asymmetric_load" [2] None
     = Raise KeyError
  /\ _get_pp_ids example_ext_grid_registry "asymmetric_sgen" [2] None
     = Raise KeyError.
Proof.
  apply (@output_groups_missing_after_forward_pass init
           {| bus_index := [10; 11]; line_index := []; ext_grid_index := [4];
              load_index := []; shunt_index := []; trafo_index := [];
              sgen_index := []; trafo3w_index := []; switch_index_et := [] |}
           example_ext_grid_registry [[0; 1]; [2]] [2]).
  reflexivity.
Defined.

(** X10.  After a forward conversion, [_pp_ext_grids_output] cannot
    return: it raises for every result dataset, and once its two [assert]s
    hold the exception is the [KeyError] of the missing group "source" (or
    of a result dataset without "source"). *)
Theorem ext_grids_output_fails_after_forward_pass
    self pp self' idss pp_output_data pgm_data pgm_output_data_source :
  allocate_all (_parse_data_reset self) (_create_input_data_requests pp)
  = Ok (self', idss) ->
  exists e,
    _pp_ext_grids_output self' pp_output_data pgm_data pgm_output_data_source
    = Raise e
    /\ (existsb (eqb "ext_grid") pp_output_data = false ->
        existsb (eqb "source") pgm_data = true -> e = KeyError).
Proof.
  intros Hrun. unfold _pp_ext_grids_output.
  destruct (existsb (eqb "ext_grid") pp_output_data);
    [exists AssertionError; split; [reflexivity | discriminate]|].
  destruct (existsb (eqb "source") pgm_data); cbn [negb];
    [|exists AssertionError; split; [reflexivity | discriminate]].
  exists KeyError. split; [|reflexivity].
  destruct pgm_output_data_source as [a|]; [|reflexivity].
  cbn [bind]. rewrite get_pp_ids_unknown_group; [reflexivity|].
  apply (forward_pass_groups Hrun).
  unfold input_groups; cbn [In]; intuition discriminate.
Qed.

Lemma ext_grids_output_fails_after_forward_pass_witness :
  exists e,
    _pp_ext_grids_output example_ext_grid_registry [] ["node"; "source"]
      (Some [SourceOut.mk 2 (Q2Qc 100000) (Q2Qc 50000)])
    = Raise e
    /\ (existsb (eqb "ext_grid") [] = false ->
        existsb (eqb "source") ["node"; "source"] = true -> e = KeyError).
Proof.
  apply (@ext_grids_output_fails_after_forward_pass init
           {| bus_index := [10; 11]; line_index := []; ext_grid_index := [4];
              load_index := []; shunt_index := []; trafo_index := [];
              sgen_index := []; trafo3w_index := []; switch_index_et := [] |}
           example_ext_grid_registry [[0; 1]; [2]]).
  reflexivity.
Defined.

(** ** Switch-state resolver: ambiguous terminals *)

Lemma length_merge_left {A B} (on : A -> B -> bool) left right :
  (length left <= length (merge_left on left right))%nat
  /\ ((exists a, In a left /\ (2 <= length (filter (on a) right))%nat) ->
      (length left < length (merge_left on left right))%nat).
Proof.
  induction left as [|a left [IH1 IH2]]; [split; [simpl; lia | intros (a & [] & _)]|].
  change (merge_left on (a :: left) right)
    with (match filter (on a) right with
          | [] => [(a, None)]
          | bs => map (fun b => (a, Some b)) bs
          end ++ merge_left on left right).
  rewrite length_app.
  assert (Hhd : (1 <= length (match filter (on a) right with
                              | [] => [(a, @None B)]
                              | bs => map (fun b => (a, Some b)) bs
                              end))%nat
                /\ ((2 <= length (filter (on a) right))%nat ->
                    (2 <= length (match filter (on a) right with
                                  | [] => [(a, @None B)]
                                  | bs => map (fun b => (a, Some b)) bs
                                  end))%nat)).
  { destruct (filter (on a) right) as [|b bs]; simpl; [lia|].
    rewrite length_map. lia. }
  destruct Hhd as [H1 H2].
  change (length (a :: left)) with (S (length left)).
  split; [lia|].
  intros (a' & [<-|Hin] & Hcount).
  - specialize (H2 Hcount). lia.
  - assert (length left < length (merge_left on left right))%nat
      by (apply IH2; now exists a').
    lia.
Qed.

(** X11.  [get_individual_switch_states] returns exactly when no terminal
    of the table is matched by two switch rows of the element type; a
    device with two or more matching switch rows at the terminal makes the
    left join longer than the table, and [set_index] raises
    [ValueError]. *)
Theorem switch_states_fail_iff_ambiguous {Row} (index bus : Row -> Z)
    element_type pp_switches (component : list Row) :
  (is_ok (get_individual_switch_states index component
            (switches_of_type element_type pp_switches) bus) = true
   <-> unambiguous index bus element_type pp_switches component)
  /\ ((exists r, In r component
                 /\ (2 <= length (filter (switch_matches element_type
                                            (index r) (bus r))
                                         pp_switches))%nat) ->
      get_individual_switch_states index component
        (switches_of_type element_type pp_switches) bus = Raise ValueError).
Proof.
  assert (Hcount : forall r,
            length (filter (fun sw : Z * Z * bool =>
                              let '(element, sw_bus, _) := sw in
                              Z.eqb (index r) element && Z.eqb (bus r) sw_bus)
                           (switches_of_type element_type pp_switches))
            = length (filter (switch_matches element_type (index r) (bus r))
                             pp_switches)).
  { intros r. rewrite filter_switches_of_type. apply length_map. }
  assert (Hraise :
            (exists r, In r component
                       /\ (2 <= length (filter (switch_matches element_type
                                                  (index r) (bus r))
                                               pp_switches))%nat) ->
            get_individual_switch_states index component
              (switches_of_type element_type pp_switches) bus
            = Raise ValueError).
  { intros (r & Hin & H2). unfold get_individual_switch_states.
    rewrite length_map.
    match goal with |- context [merge_left ?on component ?right] =>
      destruct (@length_merge_left _ _ on component right) as [_ Hlt] end.
    assert (Hne : (length component
                   < length (merge_left
                               (fun r (sw : Z * Z * bool) =>
                                  let '(element, sw_bus, _) := sw in
                                  Z.eqb (index r) element
                                  && Z.eqb (bus r) sw_bus)
                               component
                               (switches_of_type element_type pp_switches)))%nat).
    { apply Hlt. exists r. split; [exact Hin|]. now rewrite Hcount. }
    destruct (Nat.eqb_spec
                (length (merge_left
                           (fun r (sw : Z * Z * bool) =>
                              let '(element, sw_bus, _) := sw in
                              Z.eqb (index r) element && Z.eqb (bus r) sw_bus)
                           component
                           (switches_of_type element_type pp_switches)))
                (length component)) as [E|E]; [lia | reflexivity]. }
  split; [|exact Hraise].
  split.
  - intros Hok r Hin.
    destruct (le_lt_dec (length (filter (switch_matches element_type
                                           (index r) (bus r)) pp_switches)) 1)
      as [Hle|Hgt]; [exact Hle|].
    rewrite Hraise in Hok; [discriminate|].
    exists r. split; [exact Hin | lia].
  - intros Hun.
    destruct (individual_switch_states_resolved Hun) as (states & Hs & _).
    now rewrite Hs.
Qed.

(** ** Tap calculator: rows without a tap side *)

(** X12.  A row whose [tap_side] names no terminal (anything but ["hv"]
    and ["lv"], for three windings also ["mv"]: a missing value, say) is
    never written: its tap size is the uninitialised cell that [np.empty]
    handed out, whatever the row's [tap_step_percent] and voltages. *)
Theorem tap_size_without_tap_side_is_uninitialised
    garbage pp_trafo pp_3wtrafo i j r r3 :
  nth_error pp_trafo i = Some r ->
  trafo_tap_side_voltage r = None ->
  nth_error pp_3wtrafo j = Some r3 ->
  trafo3w_tap_side_voltage r3 = None ->
  nth_error (_get_tap_size garbage pp_trafo) i = Some (garbage i)
  /\ nth_error (_get_3wtransformer_tap_size garbage pp_3wtrafo) j
     = Some (garbage j).
Proof.
  intros Hr Hu Hr3 Hu3. split.
  - rewrite (get_tap_size_row garbage Hr).
    unfold trafo_tap_side_voltage in Hu.
    destruct (eqb (Trafo.tap_side r) "hv"); [discriminate|].
    destruct (eqb (Trafo.tap_side r) "lv"); [discriminate | reflexivity].
  - rewrite (get_3wtransformer_tap_size_row garbage Hr3).
    unfold trafo3w_tap_side_voltage in Hu3.
    destruct (eqb (Trafo3w.tap_side r3) "hv"); [discriminate|].
    destruct (eqb (Trafo3w.tap_side r3) "mv"); [discriminate|].
    destruct (eqb (Trafo3w.tap_side r3) "lv"); [discriminate | reflexivity].
Qed.

Lemma tap_size_without_tap_side_is_uninitialised_witness :
  nth_error (_get_tap_size (fun _ => Q2Qc 42)
               [example_trafo;
                Trafo.mk 1 10 11 "" (Q2Qc 5) (Q2Qc 110) (Q2Qc 20)]) 1
  = Some (Q2Qc 42)
  /\ nth_error (_get_3wtransformer_tap_size (fun _ => Q2Qc 42)
                  [Trafo3w.mk 0 10 11 12 "None" (Q2Qc 5) (Q2Qc 110) (Q2Qc 20)
                     (Q2Qc 10)]) 0
     = Some (Q2Qc 42).
Proof.
  apply (@tap_size_without_tap_side_is_uninitialised
           (fun _ => Q2Qc 42)
           [example_trafo; Trafo.mk 1 10 11 "" (Q2Qc 5) (Q2Qc 110) (Q2Qc 20)]
           [Trafo3w.mk 0 10 11 12 "None" (Q2Qc 5) (Q2Qc 110) (Q2Qc 20)
              (Q2Qc 10)]
           1%nat 0%nat
           (Trafo.mk 1 10 11 "" (Q2Qc 5) (Q2Qc 110) (Q2Qc 20))
           (Trafo3w.mk 0 10 11 12 "None" (Q2Qc 5) (Q2Qc 110) (Q2Qc 20)
              (Q2Qc 10)));
    reflexivity.
Defined.

(** ** Three-winding vector groups *)

Lemma fullmatch_3wdg_inv s m :
  Re.fullmatch CONNECTION_PATTERN_PP_3WDG s = Some m ->
  exists g1 g2 g3 clock,
    In g1 winding1_codes /\ In g2 winding2_codes /\ In g3 winding2_codes
    /\ Re.all_digits clock = true
    /\ s = (g1 ++ g2 ++ g3 ++ clock)%string
    /\ m = set (set (set [] 1%nat g1) 2%nat g2) 3%nat g3.
Proof.
  unfold Re.fullmatch, CONNECTION_PATTERN_PP_3WDG.
  rewrite run_seq, run_group. intros H.
  apply run_one_of_inv in H. destruct H as (g1 & s1 & Hin1 & -> & H).
  cbv beta in H. rewrite consumed_app, run_seq, run_group in H.
  apply run_one_of_inv in H. destruct H as (g2 & s2 & Hin2 & -> & H).
  cbv beta in H. rewrite consumed_app, run_seq, run_group in H.
  apply run_one_of_inv in H. destruct H as (g3 & s3 & Hin3 & -> & H).
  cbv beta in H. rewrite consumed_app, run_star_digit_at_end in H.
  destruct (Re.all_digits s3) eqn:Hd; [|discriminate].
  inversion H; subst. exists g1, g2, g3, s3. repeat split; assumption.
Qed.

Lemma fullmatch_3wdg_complete g1 g2 g3 clock :
  In g1 winding1_codes -> In g2 winding2_codes -> In g3 winding2_codes ->
  Re.all_digits clock = true ->
  Re.fullmatch CONNECTION_PATTERN_PP_3WDG (g1 ++ g2 ++ g3 ++ clock)%string
  <> None.
Proof.
  intros H1 H2 H3 Hd. unfold Re.fullmatch, CONNECTION_PATTERN_PP_3WDG.
  rewrite run_seq, run_group.
  apply run_one_of_complete; [exact H1|]. cbv beta.
  rewrite run_seq, run_group.
  apply run_one_of_complete; [exact H2|]. cbv beta.
  rewrite run_seq, run_group.
  apply run_one_of_complete; [exact H3|]. cbv beta.
  rewrite run_star_digit_at_end, Hd. discriminate.
Qed.

(** A code of the first winding is determined by the text that starts
    with it, when a code of another winding follows. *)
Lemma winding1_code_unique g1 g1' g2 g2' r r' :
  In g1 winding1_codes -> In g1' winding1_codes ->
  In g2 winding2_codes -> In g2' winding2_codes ->
  (g1 ++ g2 ++ r)%string = (g1' ++ g2' ++ r')%string ->
  g1 = g1' /\ (g2 ++ r)%string = (g2' ++ r')%string.
Proof.
  unfold winding1_codes, winding2_codes. cbn [In].
  intros H1 H1' H2 H2' He.
  repeat match goal with H : _ \/ _ |- _ => destruct H as [H|H] end;
    try contradiction; subst; cbn in He |- *;
    try (injection He as He); subst;
    solve [ split; reflexivity | discriminate | split; congruence ].
Qed.

(** Likewise for a code in the middle. *)
Lemma winding2_code_unique g2 g2' g3 g3' r r' :
  In g2 winding2_codes -> In g2' winding2_codes ->
  In g3 winding2_codes -> In g3' winding2_codes ->
  (g2 ++ g3 ++ r)%string = (g2' ++ g3' ++ r')%string ->
  g2 = g2' /\ (g3 ++ r)%string = (g3' ++ r')%string.
Proof.
  unfold winding2_codes. cbn [In].
  intros H1 H1' H2 H2' He.
  repeat match goal with H : _ \/ _ |- _ => destruct H as [H|H] end;
    try contradiction; subst; cbn in He |- *;
    try (injection He as He); subst;
    solve [ split; reflexivity | discriminate | split; congruence ].
Qed.

(** And for the last code, followed by digits. *)
Lemma winding2_code_clock_unique g3 g3' clock clock' :
  In g3 winding2_codes -> In g3' winding2_codes ->
  Re.all_digits clock = true -> Re.all_digits clock' = true ->
  (g3 ++ clock)%string = (g3' ++ clock')%string ->
  g3 = g3'.
Proof.
  unfold winding2_codes. cbn [In].
  intros H1 H1' Hd Hd' He.
  repeat match goal with H : _ \/ _ |- _ => destruct H as [H|H] end;
    try contradiction; subst; cbn in He;
    try (injection He as He); subst; cbn in Hd, Hd';
    solve [ reflexivity | discriminate ].
Qed.

Lemma two_and_three_winding_codes_differ g2 g2' g3' clock clock' :
  In g2 winding2_codes -> In g2' winding2_codes -> In g3' winding2_codes ->
  Re.all_digits clock = true ->
  (g2 ++ clock)%string <> (g2' ++ g3' ++ clock')%string.
Proof.
  unfold winding2_codes. cbn [In].
  intros H2 H2' H3' Hd He.
  repeat match goal with H : _ \/ _ |- _ => destruct H as [H|H] end;
    try contradiction; subst; cbn in He;
    try (injection He as He); subst; cbn in Hd;
    discriminate.
Qed.

(** X13.  The three-winding pattern accepts exactly the strings
    [<winding1><winding2><winding2><digits>*] with winding1 one of Y, YN, D,
    Z, ZN and winding2 one of y, yn, d, z, zn; its groups 1, 2 and 3 are
    then the three codes (the split is unique, so the backtracking of the
    matcher always ends on it).  No string is accepted by both the
    two-winding and the three-winding pattern. *)
Theorem three_winding_pattern_matches_three_codes :
  (forall g1 g2 g3 clock,
     In g1 winding1_codes -> In g2 winding2_codes -> In g3 winding2_codes ->
     Re.all_digits clock = true ->
     exists m,
       Re.fullmatch CONNECTION_PATTERN_PP_3WDG (g1 ++ g2 ++ g3 ++ clock)%string
       = Some m
       /\ Re.group m 1 = g1 /\ Re.group m 2 = g2 /\ Re.group m 3 = g3)
  /\ (forall s m,
        Re.fullmatch CONNECTION_PATTERN_PP_3WDG s = Some m ->
        exists clock,
          In (Re.group m 1) winding1_codes
          /\ In (Re.group m 2) winding2_codes
          /\ In (Re.group m 3) winding2_codes
          /\ Re.all_digits clock = true
          /\ s = (Re.group m 1 ++ Re.group m 2 ++ Re.group m 3 ++ clock)%string)
  /\ (forall s,
        Re.fullmatch CONNECTION_PATTERN_PP s <> None ->
        Re.fullmatch CONNECTION_PATTERN_PP_3WDG s = None).
Proof.
  split; [|split].
  - intros g1 g2 g3 clock H1 H2 H3 Hd.
    pose proof (fullmatch_3wdg_complete H1 H2 H3 Hd) as Hc.
    destruct (Re.fullmatch CONNECTION_PATTERN_PP_3WDG _) as [m|] eqn:Hm;
      [|congruence].
    exists m. split; [reflexivity|].
    apply fullmatch_3wdg_inv in Hm.
    destruct Hm as (g1' & g2' & g3' & clock' & H1' & H2' & H3' & Hd' & Hs & ->).
    destruct (winding1_code_unique H1 H1' H2 H2' Hs) as [<- Hs2].
    destruct (winding2_code_unique H2 H2' H3 H3' Hs2) as [<- Hs3].
    rewrite <- (winding2_code_clock_unique H3 H3' Hd Hd' Hs3).
    repeat split.
  - intros s m Hm. apply fullmatch_3wdg_inv in Hm.
    destruct Hm as (g1 & g2 & g3 & clock & H1 & H2 & H3 & Hd & Hs & ->).
    exists clock.
    change (Re.group (set (set (set [] 1%nat g1) 2%nat g2) 3%nat g3) 1)
      with g1.
    change (Re.group (set (set (set [] 1%nat g1) 2%nat g2) 3%nat g3) 2)
      with g2.
    change (Re.group (set (set (set [] 1%nat g1) 2%nat g2) 3%nat g3) 3)
      with g3.
    repeat split; assumption.
  - intros s H2w.
    destruct (Re.fullmatch CONNECTION_PATTERN_PP s) as [m2|] eqn:Hm2;
      [|congruence].
    apply fullmatch_connection_pattern_inv in Hm2.
    destruct Hm2 as (g1 & g2 & clock & H1 & H2 & Hd & -> & _).
    destruct (Re.fullmatch CONNECTION_PATTERN_PP_3WDG _) as [m3|] eqn:Hm3;
      [|reflexivity].
    exfalso. apply fullmatch_3wdg_inv in Hm3.
    destruct Hm3 as (g1' & g2' & g3' & clock' & H1' & H2' & H3' & Hd' & Hs & _).
    destruct (@winding1_code_unique g1 g1' g2 g2' clock
                (g3' ++ clock')%string H1 H1' H2 H2' Hs) as [_ Hs2].
    exact (two_and_three_winding_codes_differ H2 H2' H3' Hd Hs2).
Qed.

(** ** Clock numbers *)

Lemma Qfloor_unique (y : Q) m :
  (inject_Z m <= y)%Q -> (y < inject_Z (m + 1))%Q -> Qfloor y = m.
Proof.
  intros Hle Hlt.
  pose proof (Qfloor_le y) as H1. pose proof (Qlt_floor y) as H2.
  assert (Ha : (inject_Z (Qfloor y) < inject_Z (m + 1))%Q)
    by (eapply Qle_lt_trans; eassumption).
  assert (Hb : (inject_Z m < inject_Z (Qfloor y + 1))%Q)
    by (eapply Qle_lt_trans; eassumption).
  rewrite <- Zlt_Qlt in Ha, Hb. lia.
Qed.

Lemma Qfloor_add_Z (y : Q) n : Qfloor (y + inject_Z n) = Qfloor y + n.
Proof.
  apply Qfloor_unique.
  - rewrite inject_Z_plus. apply Qplus_le_l. apply Qfloor_le.
  - replace (Qfloor y + n + 1) with ((Qfloor y + 1) + n) by lia.
    rewrite inject_Z_plus. apply Qplus_lt_l. apply Qlt_floor.
Qed.

Lemma Q2Qc_inject_Z_plus a b :
  Q2Qc (inject_Z (a + b)) = (Q2Qc (inject_Z a) + Q2Qc (inject_Z b))%Qc.
Proof.
  unfold Qcplus. apply Q2Qc_eq_iff.
  change (this (Q2Qc (inject_Z a))) with (Qred (inject_Z a)).
  change (this (Q2Qc (inject_Z b))) with (Qred (inject_Z b)).
  rewrite !Qred_correct. rewrite inject_Z_plus. reflexivity.
Qed.

Lemma Q2Qc_inject_Z_mult a b :
  Q2Qc (inject_Z (a * b)) = (Q2Qc (inject_Z a) * Q2Qc (inject_Z b))%Qc.
Proof.
  unfold Qcmult. apply Q2Qc_eq_iff.
  change (this (Q2Qc (inject_Z a))) with (Qred (inject_Z a)).
  change (this (Q2Qc (inject_Z b))) with (Qred (inject_Z b)).
  rewrite !Qred_correct. rewrite inject_Z_mult. reflexivity.
Qed.

Lemma round_half_even_add_even x k :
  round_half_even (x + Q2Qc (inject_Z (2 * k))) = round_half_even x + 2 * k.
Proof.
  unfold round_half_even.
  assert (Hf : Qfloor (x + Q2Qc (inject_Z (2 * k)))%Qc = Qfloor x + 2 * k).
  { rewrite <- Qfloor_add_Z. apply Qfloor_comp.
    change (this (x + Q2Qc (inject_Z (2 * k)))%Qc)
      with (Qred (this x + Qred (inject_Z (2 * k)))).
    rewrite !Qred_correct. reflexivity. }
  rewrite Hf.
  replace (x + Q2Qc (inject_Z (2 * k)) - Q2Qc (inject_Z (Qfloor x + 2 * k)))%Qc
    with (x - Q2Qc (inject_Z (Qfloor x)))%Qc
    by (rewrite Q2Qc_inject_Z_plus; ring).
  replace (Z.even (Qfloor x + 2 * k)) with (Z.even (Qfloor x))
    by (rewrite Z.even_add_mul_2; reflexivity).
  destruct (Qccompare _ _); try lia.
  destruct (Z.even (Qfloor x)); lia.
Qed.

Lemma round_half_even_Z k : round_half_even (Q2Qc (inject_Z k)) = k.
Proof.
  unfold round_half_even.
  assert (Hf : Qfloor (Q2Qc (inject_Z k)) = k).
  { rewrite <- (Qfloor_Z k) at 2. apply Qfloor_comp.
    change (this (Q2Qc (inject_Z k))) with (Qred (inject_Z k)).
    apply Qred_correct. }
  rewrite Hf.
  replace (Q2Qc (inject_Z k) - Q2Qc (inject_Z k))%Qc with (Q2Qc 0) by ring.
  reflexivity.
Qed.

Lemma round_half_even_nearest (y : Qc) :
  (Q2Qc (inject_Z (round_half_even y)) - Q2Qc (1 # 2) <= y)%Qc
  /\ (y <= Q2Qc (inject_Z (round_half_even y)) + Q2Qc (1 # 2))%Qc.
Proof.
  unfold round_half_even.
  set (f := Qfloor y).
  assert (Hlo : (Q2Qc (inject_Z f) <= y)%Qc).
  { unfold Qcle. change (this (Q2Qc (inject_Z f))) with (Qred (inject_Z f)).
    rewrite Qred_correct. apply Qfloor_le. }
  assert (Hhi : (y < Q2Qc (inject_Z (f + 1)))%Qc).
  { unfold Qclt.
    change (this (Q2Qc (inject_Z (f + 1)))) with (Qred (inject_Z (f + 1))).
    rewrite Qred_correct. apply Qlt_floor. }
  rewrite Q2Qc_inject_Z_plus in Hhi.
  change (Q2Qc (inject_Z 1)) with 1%Qc in Hhi.
  assert (Hhalf : (Q2Qc (1 # 2) + Q2Qc (1 # 2) = 1)%Qc)
    by (apply Qc_is_canon; reflexivity).
  assert (Hcases :
            forall r, (r = f /\ (y - Q2Qc (inject_Z f) <= Q2Qc (1 # 2))%Qc)
                      \/ (r = f + 1
                          /\ (Q2Qc (1 # 2) <= y - Q2Qc (inject_Z f))%Qc) ->
            (Q2Qc (inject_Z r) - Q2Qc (1 # 2) <= y)%Qc
            /\ (y <= Q2Qc (inject_Z r) + Q2Qc (1 # 2))%Qc).
  { intros r [[-> Hc]|[-> Hc]].
    - split.
      + apply Qcle_trans with (Q2Qc (inject_Z f)); [|exact Hlo].
        apply Qcle_minus_iff.
        replace (Q2Qc (inject_Z f) + - (Q2Qc (inject_Z f) - Q2Qc (1 # 2)))%Qc
          with (Q2Qc (1 # 2)) by ring.
        discriminate.
      + apply Qcle_minus_iff. apply Qcle_minus_iff in Hc.
        replace (Q2Qc (inject_Z f) + Q2Qc (1 # 2) + - y)%Qc
          with (Q2Qc (1 # 2) + - (y - Q2Qc (inject_Z f)))%Qc by ring.
        exact Hc.
    - rewrite Q2Qc_inject_Z_plus. change (Q2Qc (inject_Z 1)) with 1%Qc.
      split.
      + apply Qcle_minus_iff. apply Qcle_minus_iff in Hc.
        replace (y + - (Q2Qc (inject_Z f) + 1 - Q2Qc (1 # 2)))%Qc
          with (y - Q2Qc (inject_Z f) + - Q2Qc (1 # 2))%Qc
          by (rewrite <- Hhalf; ring).
        exact Hc.
      + apply Qclt_le_weak.
        apply Qclt_le_trans with (Q2Qc (inject_Z f) + 1)%Qc; [exact Hhi|].
        apply Qcle_minus_iff.
        replace (Q2Qc (inject_Z f) + 1 + Q2Qc (1 # 2)
                 + - (Q2Qc (inject_Z f) + 1))%Qc
          with (Q2Qc (1 # 2)) by ring.
        discriminate. }
  destruct (Qccompare (y - Q2Qc (inject_Z f)) (Q2Qc (1 # 2))) eqn:E.
  - apply Qceq_alt in E.
    destruct (Z.even f); apply Hcases; [left | right]; split;
      try reflexivity; rewrite E; apply Qcle_refl.
  - apply Hcases. left. split; [reflexivity|].
    apply Qclt_le_weak. apply Qclt_alt. exact E.
  - apply Hcases. right. split; [reflexivity|].
    apply Qclt_le_weak. apply Qcgt_alt in E. exact E.
Qed.

(** X14.  The clock number [round(shift_degree / 30) % 12] is always one
    of 0..11; it is the whole number nearest to [shift_degree / 30] (a
    half going to the even neighbour: 15 degrees give 0, 45 degrees give
    2), taken modulo 12: a shift of [30 * k] degrees gives [k mod 12]
    (so -30 degrees give 11), and shifts that differ by 360 degrees give
    the same clock. *)
Theorem clock_is_nearest_hour_modulo_12 :
  (forall shift_degree, 0 <= clock shift_degree < 12)
  /\ (forall shift_degree,
        exists r,
          clock shift_degree = r mod 12
          /\ (Q2Qc (inject_Z r) - Q2Qc (1 # 2) <= shift_degree / Q2Qc 30)%Qc
          /\ (shift_degree / Q2Qc 30 <= Q2Qc (inject_Z r) + Q2Qc (1 # 2))%Qc)
  /\ (forall k, clock (Q2Qc (inject_Z (30 * k))) = k mod 12)
  /\ (forall shift_degree,
        clock (shift_degree + Q2Qc 360) = clock shift_degree)
  /\ clock (Q2Qc 15) = 0 /\ clock (Q2Qc 45) = 2 /\ clock (Q2Qc (-30)) = 11.
Proof.
  split; [|split; [|split; [|split]]].
  - intros x. unfold clock. apply Z.mod_pos_bound. lia.
  - intros x. exists (round_half_even (x / Q2Qc 30)).
    split; [reflexivity|]. apply round_half_even_nearest.
  - intros k. unfold clock.
    replace (Q2Qc (inject_Z (30 * k)) / Q2Qc 30)%Qc with (Q2Qc (inject_Z k)).
    + now rewrite round_half_even_Z.
    + rewrite Q2Qc_inject_Z_mult. change (Q2Qc (inject_Z 30)) with (Q2Qc 30).
      field. discriminate.
  - intros x. unfold clock.
    replace ((x + Q2Qc 360) / Q2Qc 30)%Qc
      with (x / Q2Qc 30 + Q2Qc (inject_Z (2 * 6)))%Qc.
    + rewrite round_half_even_add_even.
      replace (round_half_even (x / Q2Qc 30) + 2 * 6)
        with (round_half_even (x / Q2Qc 30) + 1 * 12) by lia.
      apply Z.mod_add. lia.
    + assert (E : Q2Qc (inject_Z (2 * 6)) = (Q2Qc 360 / Q2Qc 30)%Qc)
        by (apply Qc_is_canon; reflexivity).
      rewrite E. field. discriminate.
  - repeat split; reflexivity.
Qed.

(** ** Accumulator: a family without input data *)

Lemma accumulate_components_missing_input self pgm_data pgm_output_data
    component sides output items :
  In (component, sides) items ->
  present pgm_output_data component = Some output ->
  get pgm_data component = None ->
  forall pp_output_buses,
    is_ok (accumulate_components self pgm_data pgm_output_data
             pp_output_buses items) = false.
Proof.
  intros Hin Hp Hm.
  induction items as [|[c sd] items IH]; [contradiction|].
  intros buses. cbn [accumulate_components].
  destruct Hin as [E|Hin].
  - inversion E; subst c sd. unfold present in Hp.
    destruct (get pgm_output_data component) as [o|]; [|discriminate].
    destruct (Nat.eqb (StructArray.size o) 0); [discriminate|].
    now rewrite Hm.
  - specialize (IH Hin).
    destruct (get pgm_output_data c) as [o|]; [|apply IH].
    destruct (Nat.eqb (StructArray.size o) 0); [apply IH|].
    destruct (get pgm_data c) as [input|]; [|reflexivity].
    destruct (accumulate_sides self input o buses sd) as [b|]; [|reflexivity].
    cbn [bind]. apply IH.
Qed.

Lemma accumulate_components_no_input self pgm_output_data items :
  forall pp_output_buses,
    (exists component sides output,
        In (component, sides) items
        /\ present pgm_output_data component = Some output) ->
    accumulate_components self [] pgm_output_data pp_output_buses items
    = Raise KeyError.
Proof.
  induction items as [|[c sd] items IH]; intros buses (component & sides & o & Hin & Hp);
    [contradiction|].
  cbn [accumulate_components].
  destruct (get pgm_output_data c) as [oc|] eqn:Ec.
  - destruct (Nat.eqb (StructArray.size oc) 0) eqn:Es; [|reflexivity].
    apply IH. exists component, sides, o. split; [|exact Hp].
    destruct Hin as [E|Hin]; [|exact Hin].
    inversion E; subst. unfold present in Hp. rewrite Ec, Es in Hp.
    discriminate.
  - apply IH. exists component, sides, o. split; [|exact Hp].
    destruct Hin as [E|Hin]; [|exact Hin].
    inversion E; subst. unfold present in Hp. rewrite Ec in Hp.
    discriminate.
Qed.

(** X15.  The accumulator needs the input dataset of every device family
    it finds in the result dataset.  If one of line, link, transformer or
    three-winding transformer has result rows while [pgm_data] lacks that
    family, [_pp_buses_output__accumulate_power] never returns; with an
    empty [pgm_data] (a converter that did not run the forward pass) the
    exception is the [KeyError] of source line 475. *)
Theorem accumulate_power_needs_input_data
    self pgm_data pgm_output_data pp_output_buses component sides output :
  In (component, sides) component_sides ->
  present pgm_output_data component = Some output ->
  (get pgm_data component = None ->
   is_ok (_pp_buses_output__accumulate_power self pgm_data pgm_output_data
            pp_output_buses) = false)
  /\ _pp_buses_output__accumulate_power self [] pgm_output_data
       pp_output_buses = Raise KeyError.
Proof.
  intros Hin Hp. unfold _pp_buses_output__accumulate_power,
    accumulate_power_over.
  split.
  - intros Hm.
    pose proof (@accumulate_components_missing_input self pgm_data
                  pgm_output_data component sides output component_sides
                  Hin Hp Hm) as H.
    match goal with |- context [accumulate_components _ _ _ ?z _] =>
      specialize (H z); destruct (accumulate_components self pgm_data
                                    pgm_output_data z component_sides)
    end; [discriminate | reflexivity].
  - rewrite accumulate_components_no_input; [reflexivity|].
    now exists component, sides, output.
Qed.

Lemma accumulate_power_needs_input_data_witness :
  (get (@nil (string * StructArray.t Z)) "line" = None ->
   is_ok (_pp_buses_output__accumulate_power example_bus_registry []
            example_pgm_output_data example_pp_output_buses) = false)
  /\ _pp_buses_output__accumulate_power example_bus_registry []
       example_pgm_output_data example_pp_output_buses = Raise KeyError.
Proof.
  eapply (@accumulate_power_needs_input_data example_bus_registry []
            example_pgm_output_data example_pp_output_buses "line").
  - left. reflexivity.
  - reflexivity.
Defined.

(** ** Symmetric loads: when the split keeps the power *)

(** X17.  The three records generated for a load row add up to
    [p_mw * scaling * 1e6] (and to [q_mvar * scaling * 1e6]) exactly when
    the row has no constant-current and constant-impedance share in total,
    or its scaling is 0 or 1, or its power is 0; in every other case the
    sum is off by [(const_i_percent + const_z_percent) * 1e4 * scaling *
    (1 - scaling) * p_mw]. *)
Theorem load_split_keeps_power_iff populated self pp_loads self' arr i r :
  _create_pgm_input_sym_loads populated self pp_loads = Ok (self', Some arr) ->
  nth_error pp_loads i = Some r ->
  let rows := generated_for (length pp_loads) i arr in
  let kept (power : Qc) :=
    (Load.const_i_percent r + Load.const_z_percent r)%Qc = Q2Qc 0
    \/ Load.scaling r = Q2Qc 0 \/ Load.scaling r = Q2Qc 1
    \/ power = Q2Qc 0 in
  (Qc_sum (map SymLoad.p_specified rows)
   = (Load.p_mw r * Load.scaling r * f_1e6)%Qc <-> kept (Load.p_mw r))
  /\ (Qc_sum (map SymLoad.q_specified rows)
      = (Load.q_mvar r * Load.scaling r * f_1e6)%Qc <-> kept (Load.q_mvar r)).
Proof.
  intros Hrun Hr rows kept.
  destruct (sym_loads_of_row_sum Hrun Hr) as [Hp Hq].
  cbv zeta in Hp, Hq. fold rows in Hp, Hq. rewrite Hp, Hq.
  assert (Hk : (f_1e_2 * f_1e6)%Qc <> Q2Qc 0) by discriminate.
  assert (Hiff : forall sh s pw : Qc,
            (pw * s * f_1e6 + sh * (f_1e_2 * f_1e6) * s * (Q2Qc 1 - s) * pw
             = pw * s * f_1e6)%Qc
            <-> (sh = Q2Qc 0 \/ s = Q2Qc 0 \/ s = Q2Qc 1 \/ pw = Q2Qc 0)).
  { intros sh s pw. split.
    - intros H.
      assert (H0 : (sh * (f_1e_2 * f_1e6) * s * (Q2Qc 1 - s) * pw)%Qc = Q2Qc 0).
      { transitivity
          ((pw * s * f_1e6 + sh * (f_1e_2 * f_1e6) * s * (Q2Qc 1 - s) * pw)
           - pw * s * f_1e6)%Qc; [ring|].
        rewrite H. ring. }
      apply Qcmult_integral in H0. destruct H0 as [H0|H0]; [|tauto].
      apply Qcmult_integral in H0. destruct H0 as [H0|H0].
      + apply Qcmult_integral in H0. destruct H0 as [H0|H0]; [|tauto].
        apply Qcmult_integral in H0. destruct H0 as [H0|H0]; [tauto|].
        contradiction.
      + right; right; left.
        transitivity (Q2Qc 1 - (Q2Qc 1 - s))%Qc; [ring|].
        rewrite H0. ring.
    - intros [-> | [-> | [-> | ->]]]; ring. }
  split; apply Hiff.
Qed.

Lemma load_split_keeps_power_iff_witness :
  let rows :=
    generated_for 1 0
      (match _create_pgm_input_sym_loads [] example_bus_registry
               [example_load] with
       | Ok (_, Some arr) => arr
       | _ => []
       end) in
  let kept (power : Qc) :=
    (Load.const_i_percent example_load
     + Load.const_z_percent example_load)%Qc = Q2Qc 0
    \/ Load.scaling example_load = Q2Qc 0
    \/ Load.scaling example_load = Q2Qc 1
    \/ power = Q2Qc 0 in
  (Qc_sum (map SymLoad.p_specified rows)
   = (Load.p_mw example_load * Load.scaling example_load * f_1e6)%Qc
   <-> kept (Load.p_mw example_load))
  /\ (Qc_sum (map SymLoad.q_specified rows)
      = (Load.q_mvar example_load * Load.scaling example_load * f_1e6)%Qc
      <-> kept (Load.q_mvar example_load)).
Proof.
  apply (@load_split_keeps_power_iff [] example_bus_registry [example_load]
           (match _create_pgm_input_sym_loads [] example_bus_registry
                    [example_load] with
            | Ok (self', _) => self'
            | _ => init
            end)
           (match _create_pgm_input_sym_loads [] example_bus_registry
                    [example_load] with
            | Ok (_, Some arr) => arr
            | _ => []
            end)
           0%nat example_load).
  - vm_compute. reflexivity.
  - reflexivity.
Defined.

(** ** Symmetric loads: ids and nodes of the records *)

Lemma nth_error_iota a n i :
  (i < n)%nat -> nth_error (iota a n) i = Some (a + Z.of_nat i).
Proof.
  intros Hi. unfold iota. rewrite nth_error_map.
  rewrite nth_error_seq.
  destruct (Nat.ltb_spec i n) as [_|]; [reflexivity | lia].
Qed.

Lemma get_ids_bus_nodes self buses pp_bus nodes i b :
  get (idx self) (KTuple "bus" None) = Some buses ->
  NoDup (index buses) ->
  _get_ids self "bus" pp_bus None = Ok nodes ->
  nth_error pp_bus i = Some b ->
  exists node, get buses b = Some node /\ nth_error nodes i = Some node.
Proof.
  intros Hb Hnd Hget Hi. unfold _get_ids in Hget. rewrite Hb in Hget.
  rewrite loc_lookup_all in Hget by exact Hnd.
  apply lookup_all_inv in Hget.
  assert (E : nth_error (map (get buses) pp_bus) i
              = nth_error (map Some nodes) i) by now rewrite Hget.
  rewrite !nth_error_map, Hi in E. cbn [option_map] in E.
  destruct (nth_error nodes i) as [node|]; [|discriminate].
  cbn [option_map] in E. inversion E as [E']. now exists node.
Qed.

(** X18.  The records of a load row.  With the bus group in place (its
    source indices distinct) and the ids inside [int32], the load at
    position [i] of a table of [n] rows yields the records at positions
    [i], [n + i] and [2n + i] of the array; their ids are
    [next_idx + i], [next_idx + n + i] and [next_idx + 2n + i], all three
    sit at the node id of the load's bus and carry the load's
    [in_service] flag, and the counter has moved on by [3n]. *)
Theorem sym_load_records_ids_and_nodes
    populated self pp_loads self' arr i r buses :
  _create_pgm_input_sym_loads populated self pp_loads = Ok (self', Some arr) ->
  nth_error pp_loads i = Some r ->
  get (idx self) (KTuple "bus" None) = Some buses ->
  NoDup (index buses) ->
  0 <= next_idx self ->
  next_idx self + 3 * Z.of_nat (length pp_loads) <= 2 ^ 31 ->
  exists node cp cz ci,
    get buses (Load.bus r) = Some node
    /\ generated_for (length pp_loads) i arr = [cp; cz; ci]
    /\ SymLoad.id cp = next_idx self + Z.of_nat i
    /\ SymLoad.id cz
       = next_idx self + Z.of_nat (length pp_loads) + Z.of_nat i
    /\ SymLoad.id ci
       = next_idx self + 2 * Z.of_nat (length pp_loads) + Z.of_nat i
    /\ (SymLoad.node cp, SymLoad.node cz, SymLoad.node ci) = (node, node, node)
    /\ (SymLoad.status cp, SymLoad.status cz, SymLoad.status ci)
       = (Load.in_service r, Load.in_service r, Load.in_service r)
    /\ next_idx self' = next_idx self + 3 * Z.of_nat (length pp_loads).
Proof.
  intros Hrun Hr Hb Hnd H0 Hbound.
  assert (Hi : (i < length pp_loads)%nat)
    by (apply nth_error_Some; congruence).
  unfold _create_pgm_input_sym_loads in Hrun.
  destruct (existsb _ populated); [discriminate|].
  destruct pp_loads as [|r0 rest] eqn:Eloads; [discriminate|].
  rewrite <- Eloads in *. clear Eloads r0 rest.
  set (n := length pp_loads) in *.
  set (pp_index := map Load.index pp_loads) in *.
  assert (Hlen_index : length pp_index = n) by apply length_map.
  (* first block *)
  destruct (_generate_ids self "load" pp_index (Some "const_power"))
    as [[self1 ids1]|] eqn:G1; [cbn [bind] in Hrun | discriminate].
  destruct (assign_rows n ids1) as [id_p|] eqn:A1;
    [cbn [bind] in Hrun | discriminate].
  destruct (_get_ids self1 "bus" (map Load.bus pp_loads) None)
    as [nodes1|] eqn:N1; [cbn [bind] in Hrun | discriminate].
  destruct (assign_rows n nodes1) as [node_p|] eqn:B1;
    [cbn [bind] in Hrun | discriminate].
  (* second block *)
  destruct (_generate_ids self1 "load" pp_index (Some "const_impedance"))
    as [[self2 ids2]|] eqn:G2; [cbn [bind] in Hrun | discriminate].
  destruct (assign_rows n ids2) as [id_z|] eqn:A2;
    [cbn [bind] in Hrun | discriminate].
  destruct (_get_ids self2 "bus" (map Load.bus pp_loads) None)
    as [nodes2|] eqn:N2; [cbn [bind] in Hrun | discriminate].
  destruct (assign_rows n nodes2) as [node_z|] eqn:B2;
    [cbn [bind] in Hrun | discriminate].
  (* third block *)
  destruct (_generate_ids self2 "load" pp_index (Some "const_current"))
    as [[self3 ids3]|] eqn:G3; [cbn [bind] in Hrun | discriminate].
  destruct (assign_rows n ids3) as [id_i|] eqn:A3;
    [cbn [bind] in Hrun | discriminate].
  destruct (_get_ids self3 "bus" (map Load.bus pp_loads) None)
    as [nodes3|] eqn:N3; [cbn [bind] in Hrun | discriminate].
  destruct (assign_rows n nodes3) as [node_i|] eqn:B3;
    [cbn [bind] in Hrun | discriminate].
  inversion Hrun; subst self' arr; clear Hrun.
  apply assign_rows_inv in A1, A2, A3, B1, B2, B3.
  destruct A1 as [-> La1], A2 as [-> La2], A3 as [-> La3].
  destruct B1 as [-> Lb1], B2 as [-> Lb2], B3 as [-> Lb3].
  destruct (generate_ids_inv G1) as (_ & I1 & X1 & _ & C1).
  destruct (generate_ids_inv G2) as (_ & I2 & X2 & _ & C2).
  destruct (generate_ids_inv G3) as (_ & I3 & X3 & _ & C3).
  rewrite Hlen_index in *.
  rewrite arange_int32_iota in I1 by lia.
  rewrite C1 in I2. rewrite arange_int32_iota in I2 by lia.
  rewrite C2, C1 in I3. rewrite arange_int32_iota in I3 by lia.
  assert (Hb1 : get (idx self1) (KTuple "bus" None) = Some buses)
    by (rewrite X1, get_set_other by discriminate; exact Hb).
  assert (Hb2 : get (idx self2) (KTuple "bus" None) = Some buses)
    by (rewrite X2, get_set_other by discriminate; exact Hb1).
  assert (Hb3 : get (idx self3) (KTuple "bus" None) = Some buses)
    by (rewrite X3, get_set_other by discriminate; exact Hb2).
  assert (Hbus : nth_error (map Load.bus pp_loads) i = Some (Load.bus r))
    by (rewrite nth_error_map, Hr; reflexivity).
  destruct (get_ids_bus_nodes Hb1 Hnd N1 Hbus) as (node & Hnode & Hn1).
  destruct (get_ids_bus_nodes Hb2 Hnd N2 Hbus) as (node2 & Hnode2 & Hn2).
  destruct (get_ids_bus_nodes Hb3 Hnd N3 Hbus) as (node3 & Hnode3 & Hn3).
  assert (node2 = node) by congruence. assert (node3 = node) by congruence.
  subst node2 node3.
  assert (Hs : nth_error (map Load.in_service pp_loads) i
               = Some (Load.in_service r))
    by (rewrite nth_error_map, Hr; reflexivity).
  assert (Hp : forall f g : Load.row -> Qc,
             nth_error (col_mul (map f pp_loads) (map g pp_loads)) i
             = Some (f r * g r)%Qc)
    by (intros; apply nth_error_col_mul; rewrite nth_error_map, Hr;
        reflexivity).
  assert (Hlen : forall (A : Type) (f : Load.row -> A),
             length (map f pp_loads) = n)
    by (intros; apply length_map).
  exists node. eexists _, _, _. split; [exact Hnode|]. split.
  - apply generated_for_blocks;
      try (apply length_sym_load_block; auto using length_col_mul);
      apply nth_error_sym_load_block; eauto;
      first [ subst ids1; now apply nth_error_iota
            | subst ids2; now apply nth_error_iota
            | subst ids3; now apply nth_error_iota ].
  - cbn [SymLoad.id SymLoad.node SymLoad.status].
    repeat split; lia.
Qed.

Lemma sym_load_records_ids_and_nodes_witness :
  exists node cp cz ci,
    get [(10, 0); (11, 1)] (Load.bus example_load) = Some node
    /\ generated_for (length [example_load]) 0
         (match _create_pgm_input_sym_loads [] example_bus_registry
                  [example_load] with
          | Ok (_, Some arr) => arr
          | _ => []
          end) = [cp; cz; ci]
    /\ SymLoad.id cp = next_idx example_bus_registry + Z.of_nat 0
    /\ SymLoad.id cz
       = next_idx example_bus_registry + Z.of_nat (length [example_load])
         + Z.of_nat 0
    /\ SymLoad.id ci
       = next_idx example_bus_registry
         + 2 * Z.of_nat (length [example_load]) + Z.of_nat 0
    /\ (SymLoad.node cp, SymLoad.node cz, SymLoad.node ci) = (node, node, node)
    /\ (SymLoad.status cp, SymLoad.status cz, SymLoad.status ci)
       = (Load.in_service example_load, Load.in_service example_load,
          Load.in_service example_load)
    /\ next_idx (match _create_pgm_input_sym_loads [] example_bus_registry
                         [example_load] with
                 | Ok (self', _) => self'
                 | _ => init
                 end)
       = next_idx example_bus_registry
         + 3 * Z.of_nat (length [example_load]).
Proof.
  apply (@sym_load_records_ids_and_nodes [] example_bus_registry
           [example_load]
           (match _create_pgm_input_sym_loads [] example_bus_registry
                    [example_load] with
            | Ok (self', _) => self'
            | _ => init
            end)
           (match _create_pgm_input_sym_loads [] example_bus_registry
                    [example_load] with
            | Ok (_, Some arr) => arr
            | _ => []
            end)
           0%nat example_load [(10, 0); (11, 1)]).
  - vm_compute. reflexivity.
  - reflexivity.
  - reflexivity.
  - repeat constructor; simpl; intuition discriminate.
  - simpl. lia.
  - simpl. lia.
Defined.

(** ** Forward converter: links *)

Lemma nth_error_link_rows : forall ids f t fs ts k i a b c d,
  nth_error ids k = Some i -> nth_error f k = Some a ->
  nth_error t k = Some b -> nth_error fs k = Some c ->
  nth_error ts k = Some d ->
  nth_error (link_rows ids f t fs ts) k = Some (Link.mk i a b c d).
Proof.
  induction ids as [|i0 ids IH];
    intros [|a0 f] [|b0 t] [|c0 fs] [|d0 ts] [|k] i a b c d;
    simpl; try discriminate.
  - intros H1 H2 H3 H4 H5.
    inversion H1; inversion H2; inversion H3; inversion H4; inversion H5.
    now subst.
  - apply IH.
Qed.

Lemma length_link_rows n : forall ids f t fs ts,
  length ids = n -> length f = n -> length t = n ->
  length fs = n -> length ts = n ->
  length (link_rows ids f t fs ts) = n.
Proof.
  induction n as [|n IH];
    intros [|i ids] [|a f] [|b t] [|c fs] [|d ts];
    simpl; try discriminate; try reflexivity.
  intros. f_equal. apply IH; congruence.
Qed.

Lemma get_ids_bus_total self buses labels :
  get (idx self) (KTuple "bus" None) = Some buses ->
  NoDup (index buses) ->
  (forall l, In l labels -> get buses l <> None) ->
  exists nodes,
    _get_ids self "bus" labels None = Ok nodes
    /\ length nodes = length labels.
Proof.
  intros Hb Hnd Hall. unfold _get_ids. rewrite Hb.
  rewrite loc_lookup_all by exact Hnd.
  destruct (lookup_all_total Hall) as (nodes & Hn).
  exists nodes. split; [exact Hn|].
  apply lookup_all_inv in Hn.
  apply (f_equal (@length (option Z))) in Hn.
  now rewrite !length_map in Hn.
Qed.

(** X19.  Links are made of the bus-to-bus switches and of nothing else.
    For a non-empty switch table whose switches of type "b" join buses
    known to the registry, [_create_pgm_input_links] returns one record per
    switch of type "b", in table order: the [k]-th of them gets the id
    [next_idx + k], the node ids of its [bus] and of its [element] (read as
    a bus), and its [closed] flag as the status of both sides.  Switches
    of any other type leave no record and take no id. *)
Theorem links_are_the_bus_to_bus_switches
    populated self (pp_switches : list Switch.row) buses :
  existsb (eqb "link") populated = false ->
  pp_switches <> [] ->
  mem (KTuple "switch" (Some "bus_to_bus")) (idx_lookup self) = false ->
  get (idx self) (KTuple "bus" None) = Some buses ->
  NoDup (index buses) ->
  let b2b := filter (fun sw => eqb (Switch.et sw) "b") pp_switches in
  (forall sw, In sw b2b ->
     get buses (Switch.bus sw) <> None
     /\ get buses (Switch.element sw) <> None) ->
  0 <= next_idx self ->
  next_idx self + Z.of_nat (length b2b) <= 2 ^ 31 ->
  exists self' arr,
    _create_pgm_input_links populated self pp_switches = Ok (self', Some arr)
    /\ length arr = length b2b
    /\ next_idx self' = next_idx self + Z.of_nat (length b2b)
    /\ forall k sw, nth_error b2b k = Some sw ->
         exists from_node to_node,
           get buses (Switch.bus sw) = Some from_node
           /\ get buses (Switch.element sw) = Some to_node
           /\ nth_error arr k
              = Some (Link.mk (next_idx self + Z.of_nat k) from_node to_node
                        (Switch.closed sw) (Switch.closed sw)).
Proof.
  intros Hpop Hne Hm Hb Hnd b2b Hknown H0 Hbound.
  unfold _create_pgm_input_links. rewrite Hpop.
  assert (Hmatch : forall (X : Type) (a b : X),
             match pp_switches with [] => a | _ :: _ => b end = b)
    by (intros; destruct pp_switches; congruence).
  rewrite Hmatch. clear Hmatch.
  fold b2b. set (n := length b2b) in *.
  assert (Hlen : forall (A : Type) (f : Switch.row -> A),
             length (map f b2b) = n) by (intros; apply length_map).
  rewrite generate_ids_ok by (rewrite ?Hlen; assumption).
  rewrite Hlen. cbn [bind].
  set (self1 := {| idx := _; idx_lookup := _; next_idx := _ |}).
  unfold assign_rows at 1. rewrite length_iota, Nat.eqb_refl. cbn [bind].
  assert (Hb1 : get (idx self1) (KTuple "bus" None) = Some buses)
    by (unfold self1; cbn [idx]; rewrite get_set_other by discriminate;
        exact Hb).
  destruct (@get_ids_bus_total self1 buses (map Switch.bus b2b) Hb1 Hnd)
    as (from_node & Hfrom & Lfrom).
  { intros l Hl. apply in_map_iff in Hl. destruct Hl as (sw & <- & Hin).
    now apply Hknown. }
  destruct (@get_ids_bus_total self1 buses (map Switch.element b2b) Hb1 Hnd)
    as (to_node & Hto & Lto).
  { intros l Hl. apply in_map_iff in Hl. destruct Hl as (sw & <- & Hin).
    now apply Hknown. }
  rewrite Hlen in Lfrom, Lto.
  rewrite Hfrom. cbn [bind].
  unfold assign_rows at 1. rewrite Lfrom, Nat.eqb_refl. cbn [bind].
  rewrite Hto. cbn [bind].
  unfold assign_rows at 1. rewrite Lto, Nat.eqb_refl. cbn [bind].
  eexists _, _. split; [reflexivity|]. split; [|split].
  - apply length_link_rows; auto using length_iota.
  - reflexivity.
  - intros k sw Hk.
    assert (Hkn : (k < n)%nat) by (apply nth_error_Some; congruence).
    assert (Hbus : nth_error (map Switch.bus b2b) k = Some (Switch.bus sw))
      by (rewrite nth_error_map, Hk; reflexivity).
    assert (Hel : nth_error (map Switch.element b2b) k
                  = Some (Switch.element sw))
      by (rewrite nth_error_map, Hk; reflexivity).
    destruct (get_ids_bus_nodes Hb1 Hnd Hfrom Hbus) as (f & Hf & Hfk).
    destruct (get_ids_bus_nodes Hb1 Hnd Hto Hel) as (t & Ht & Htk).
    exists f, t. split; [exact Hf|]. split; [exact Ht|].
    apply nth_error_link_rows; try assumption.
    + now apply nth_error_iota.
    + rewrite nth_error_map, Hk. reflexivity.
    + rewrite nth_error_map, Hk. reflexivity.
Qed.

Lemma links_are_the_bus_to_bus_switches_witness :
  let pp_switches :=
    [Switch.mk 0 "l" 10 5 true; Switch.mk 1 "b" 10 11 false] in
  let b2b := filter (fun sw => eqb (Switch.et sw) "b") pp_switches in
  exists self' arr,
    _create_pgm_input_links [] example_bus_registry pp_switches
    = Ok (self', Some arr)
    /\ length arr = length b2b
    /\ next_idx self' = next_idx example_bus_registry + Z.of_nat (length b2b)
    /\ forall k sw, nth_error b2b k = Some sw ->
         exists from_node to_node,
           get [(10, 0); (11, 1)] (Switch.bus sw) = Some from_node
           /\ get [(10, 0); (11, 1)] (Switch.element sw) = Some to_node
           /\ nth_error arr k
              = Some (Link.mk (next_idx example_bus_registry + Z.of_nat k)
                        from_node to_node
                        (Switch.closed sw) (Switch.closed sw)).
Proof.
  apply (@links_are_the_bus_to_bus_switches [] example_bus_registry
           [Switch.mk 0 "l" 10 5 true; Switch.mk 1 "b" 10 11 false]
           [(10, 0); (11, 1)]).
  - reflexivity.
  - discriminate.
  - reflexivity.
  - reflexivity.
  - repeat constructor; simpl; intuition discriminate.
  - intros sw [<-|[]]. split; discriminate.
  - simpl. lia.
  - simpl. lia.
Defined.

(** ** Public look-ups on a registry rebuilt from the sidecar *)

Lemma keys_set {K V} `{EqDec K} (d : dict K V) k v k' :
  In k' (keys (set d k v)) <-> k' = k \/ In k' (keys d).
Proof.
  unfold keys. induction d as [|[k0 v0] d IH]; simpl.
  - intuition.
  - destruct (eq_dec k k0) as [->|Hne]; simpl; [intuition|].
    rewrite IH. intuition.
Qed.

Lemma hd_key_set {K V} `{EqDec K} (d : dict K V) k v k0 v0 :
  exists v1, set ((k0, v0) :: d) k v
             = (k0, v1) :: tl (set ((k0, v0) :: d) k v).
Proof.
  simpl. destruct (eq_dec k k0) as [->|]; eexists; reflexivity.
Qed.

Lemma collect_step_keys (acc : dict string (list (Z * Z))) t (row : Z * Z) k :
  let d := if mem t acc then acc else set acc t [] in
  In k (keys match get d t with
             | Some l => set d t (l ++ [row])
             | None => d
             end)
  <-> k = t \/ In k (keys acc).
Proof.
  cbv zeta. unfold mem.
  destruct (get acc t) as [l|] eqn:E.
  - rewrite E. rewrite keys_set. reflexivity.
  - rewrite get_set_same. rewrite !keys_set. tauto.
Qed.

Lemma collect_keys extra_info : forall acc k,
  In k (keys (fold_left
                (fun (pgm_to_pp_id : dict string (list (Z * Z)))
                     (entry : Z * Extra) =>
                   let '(pgm_idx, extra) := entry in
                   match extra with
                   | None => pgm_to_pp_id
                   | Some id_reference =>
                       let pp_table := ref_table id_reference in
                       let pp_index := ref_index id_reference in
                       let d := if mem pp_table pgm_to_pp_id then pgm_to_pp_id
                                else set pgm_to_pp_id pp_table [] in
                       match get d pp_table with
                       | Some l => set d pp_table (l ++ [(pgm_idx, pp_index)])
                       | None => d
                       end
                   end) extra_info acc))
  <-> In k (keys acc) \/ In k (sidecar_tables extra_info).
Proof.
  induction extra_info as [|[i [ref|]] ei IH]; intros acc k; cbn [fold_left].
  - unfold sidecar_tables. simpl. tauto.
  - rewrite IH. cbv zeta. rewrite collect_step_keys.
    unfold sidecar_tables. cbn [flat_map snd app In].
    fold (sidecar_tables ei). intuition.
  - rewrite IH. unfold sidecar_tables. cbn [flat_map snd app].
    reflexivity.
Qed.

Lemma collect_id_references_keys extra_info k :
  In k (keys (collect_id_references extra_info))
  <-> In k (sidecar_tables extra_info).
Proof.
  destruct (@collect_keys extra_info [] k) as [H1 H2].
  split.
  - intros H. destruct (H1 H) as [[]|H']. exact H'.
  - intros H. apply H2. now right.
Qed.

Lemma rebuild_first_key entries : forall (self : Registry) k0 s0 rest,
  idx_lookup self = (k0, s0) :: rest ->
  exists s1 rest',
    idx_lookup
      (fold_left
         (fun (self : Registry) (entry : string * list (Z * Z)) =>
            let '(pp_table, table_pgm_to_pp_id) := entry in
            let pgm_ids := map fst table_pgm_to_pp_id in
            let pp_indices := map snd table_pgm_to_pp_id in
            {| idx := set (idx self) (KStr pp_table) (mkSeries pgm_ids pp_indices);
               idx_lookup :=
                 set (idx_lookup self) (KStr pp_table)
                     (mkSeries pp_indices pgm_ids);
               next_idx := next_idx self |})
         entries self)
    = (k0, s1) :: rest'.
Proof.
  induction entries as [|[t l] entries IH]; intros self k0 s0 rest Hlk;
    cbn [fold_left].
  - now exists s0, rest.
  - match goal with |- context [fold_left _ entries ?s] =>
      destruct (@hd_key_set _ _ _ rest (KStr t)
                  (mkSeries (map snd l) (map fst l)) k0 s0) as (v1 & Hv1);
      apply (IH s k0 v1 (tl (set ((k0, s0) :: rest) (KStr t)
                               (mkSeries (map snd l) (map fst l)))))
    end.
    cbn [idx_lookup]. rewrite Hlk. exact Hv1.
Qed.

(** X20.  After [_extra_info_to_idx_lookup], the public look-ups are
    unusable.  [get_id] raises [KeyError] for every table, index and
    qualifier; [lookup_id] raises [ValueError] for every id as soon as the
    sidecar holds one id reference (its loop unpacks the stored keys, which
    are bare table names, into [(table, name)]; table names of two
    characters, which would unpack, are excluded), and [KeyError] when the
    sidecar holds none. *)
Theorem public_lookups_fail_after_sidecar_rebuild
    self (extra_info : ExtraInfoLookup) :
  (forall pp_table, In pp_table (sidecar_tables extra_info) ->
     String.length pp_table <> 2%nat) ->
  let rebuilt := _extra_info_to_idx_lookup self extra_info in
  (forall pp_table pp_idx name,
     get_id rebuilt pp_table pp_idx name = Raise KeyError)
  /\ (forall pgm_id,
        lookup_id rebuilt pgm_id
        = match sidecar_tables extra_info with
          | [] => Raise KeyError
          | _ => Raise ValueError
          end).
Proof.
  intros Hlen rebuilt. split.
  - intros pp_table pp_idx name. unfold get_id, getitem, rebuilt.
    unfold _extra_info_to_idx_lookup.
    destruct (@rebuild_keeps_tuple_keys_out (collect_id_references extra_info)
                {| idx := []; idx_lookup := []; next_idx := next_idx self |}
                pp_table name eq_refl eq_refl) as [H1 _].
    cbv zeta in H1. rewrite H1. reflexivity.
  - intros pgm_id. unfold lookup_id, rebuilt, _extra_info_to_idx_lookup.
    pose proof (@collect_id_references_keys extra_info) as Hkeys.
    destruct (collect_id_references extra_info) as [|[t l] entries] eqn:Ec.
    + destruct (sidecar_tables extra_info) as [|t ts]; [reflexivity|].
      exfalso. apply (proj2 (Hkeys t)). now left.
    + assert (Ht : In t (sidecar_tables extra_info)).
      { apply (proj1 (Hkeys t)). now left. }
      cbn [fold_left idx_lookup set].
      match goal with |- lookup_id_in (idx_lookup ?R) _ = _ =>
        assert (Hfirst : exists s1 rest', idx_lookup R = (KStr t, s1) :: rest')
          by (eapply rebuild_first_key; reflexivity)
      end.
      destruct Hfirst as (s1 & rest' & Hfirst).
      rewrite Hfirst. cbn [lookup_id_in].
      specialize (Hlen t Ht).
      destruct (sidecar_tables extra_info) as [|t' ts]; [contradiction|].
      destruct t as [|a [|b [|c t]]]; cbn [unpack_key bind];
        try reflexivity.
      exfalso. apply Hlen. reflexivity.
Qed.

Lemma public_lookups_fail_after_sidecar_rebuild_witness :
  let extra_info : ExtraInfoLookup :=
    [(0, Some (mkIdReference "bus" None 10));
     (1, Some (mkIdReference "bus" None 11))] in
  let rebuilt := _extra_info_to_idx_lookup init extra_info in
  (forall pp_table pp_idx name,
     get_id rebuilt pp_table pp_idx name = Raise KeyError)
  /\ (forall pgm_id,
        lookup_id rebuilt pgm_id
        = match sidecar_tables extra_info with
          | [] => Raise KeyError
          | _ => Raise ValueError
          end).
Proof.
  apply (@public_lookups_fail_after_sidecar_rebuild init
           [(0, Some (mkIdReference "bus" None 10));
            (1, Some (mkIdReference "bus" None 11))]).
  intros t [<-|[<-|[]]]; discriminate.
Defined.

(** ** Accumulator: when it returns *)

Section AccumulatorReturns.
Variables (self : Registry) (s : Series Z Z).
Hypothesis Hgroup : get (idx_lookup self) (KTuple "bus" None) = Some s.
Hypothesis Hindex : NoDup (index s).
Hypothesis Hvalues : NoDup (values s).

Lemma side_ok_ready input output side acc :
  accumulated_side_data self input output side = Ok acc ->
  side_ready self input output side = true.
Proof.
  intros Hacc.
  destruct (accumulated_side_data_inv Hgroup Hindex Hacc) as (labels & Hl & _).
  destruct side as [[node_col p_col] q_col].
  unfold accumulated_side_data in Hacc. unfold side_ready, side_rows in *.
  destruct (StructArray.field input node_col) as [nodes|]; [|discriminate].
  destruct (StructArray.field output p_col) as [p|]; [|discriminate].
  destruct (StructArray.field output q_col) as [q|]; [|discriminate].
  cbn [is_ok andb]. apply forallb_forall. intros r Hr.
  rewrite (bus_of_node_get Hgroup).
  assert (Hin : In (fst r) (sorted_unique
                              (map fst (combine nodes (combine p q)))))
    by (apply in_sorted_unique; now apply in_map).
  apply (in_map (get s)) in Hin. rewrite Hl in Hin.
  apply in_map_iff in Hin. destruct Hin as (b & Hb & _).
  now rewrite <- Hb.
Qed.

Lemma sides_ok_ready input output sides accs :
  mapM (accumulated_side_data self input output) sides = Ok accs ->
  forallb (side_ready self input output) sides = true.
Proof.
  revert accs. induction sides as [|side sides IH]; intros accs;
    cbn [mapM forallb]; [reflexivity|].
  destruct (accumulated_side_data self input output side) as [acc|] eqn:E;
    [|discriminate].
  cbn [bind].
  destruct (mapM (accumulated_side_data self input output) sides)
    as [accs'|] eqn:E'; [|discriminate].
  intros _. rewrite (side_ok_ready E), (IH _ eq_refl). reflexivity.
Qed.

Lemma components_ok_ready pgm_data pgm_output_data items :
  is_ok (accumulate_components self pgm_data pgm_output_data [] items) = true ->
  components_ready self pgm_data pgm_output_data items = true.
Proof.
  rewrite (is_ok_accumulate_components Hgroup Hindex Hvalues).
  unfold components_ready.
  intros H. apply forallb_forall. intros [component sides] Hin.
  rewrite forallb_forall in H. specialize (H _ Hin).
  cbn [accumulate_components fst snd] in *. unfold present.
  destruct (get pgm_output_data component) as [output|]; [|reflexivity].
  destruct (Nat.eqb (StructArray.size output) 0); [reflexivity|].
  destruct (get pgm_data component) as [input|]; [|discriminate].
  rewrite (accumulate_sides_adds Hgroup Hindex Hvalues) in H.
  destruct (mapM (accumulated_side_data self input output) sides)
    as [accs|] eqn:E; [|discriminate].
  exact (sides_ok_ready E).
Qed.

End AccumulatorReturns.

(** X21.  With the bus group of the registry a bijection and the labels
    of the bus frame distinct, [_pp_buses_output__accumulate_power] returns
    a frame exactly when each of the families line, link, transformer and
    three-winding transformer that has rows in the result dataset is also
    in [pgm_data], offers the node field and the two power fields of each
    of its terminals, and has only nodes that the bus group knows; in every
    other case it raises. *)
Theorem accumulate_power_returns_iff_ready
    self pgm_data pgm_output_data pp_output_buses s :
  get (idx_lookup self) (KTuple "bus" None) = Some s ->
  NoDup (index s) -> NoDup (values s) ->
  NoDup (map BusOut.index pp_output_buses) ->
  (is_ok (_pp_buses_output__accumulate_power self pgm_data pgm_output_data
            pp_output_buses) = true
   <-> named_families_ready self pgm_data pgm_output_data = true).
Proof.
  intros Hgroup Hindex Hvalues _.
  rewrite <- components_ready_named.
  unfold _pp_buses_output__accumulate_power.
  rewrite (accumulate_power_over_totals Hgroup Hindex Hvalues).
  split.
  - intros H. apply (components_ok_ready Hgroup Hindex Hvalues).
    destruct (accumulate_components self pgm_data pgm_output_data []
                component_sides); [reflexivity | discriminate].
  - intros H.
    now rewrite (components_ready_ok Hgroup Hindex Hvalues H).
Qed.

Lemma accumulate_power_returns_iff_ready_witness :
  is_ok (_pp_buses_output__accumulate_power example_bus_registry
           example_pgm_data example_pgm_output_data example_pp_output_buses)
  = true
  <-> named_families_ready example_bus_registry example_pgm_data
        example_pgm_output_data = true.
Proof.
  apply (@accumulate_power_returns_iff_ready example_bus_registry
           example_pgm_data example_pgm_output_data example_pp_output_buses
           [(0, 10); (1, 11)]).
  - reflexivity.
  - repeat constructor; simpl; intuition discriminate.
  - repeat constructor; simpl; intuition discriminate.
  - repeat constructor; simpl; intuition discriminate.
Defined.

(** ** The allocations of a forward conversion *)





